(** * gobson_exp: the BSON document builder and the SequoiaDB wire messages

  A shallow embedding of [bson/bson.go], of the byte-order service and of
  the wire-message codec of package [sdb], with the properties that the
  specification states about them (C1 to C10) and further properties that
  the code has (X1 to X19).

  Conventions of the embedding:
  - a Go integer of any width is a [Z]; every conversion between widths is
    written out ([to_int32], [to_uint32], ...), so wrap-around is explicit;
  - a byte is a [Z] in [0, 256); a [[]byte] is a [list Z];
  - a Go [string] is a [string]: both are sequences of 8-bit code units;
  - a method with a pointer receiver takes the receiver's state and returns
    the new state;
  - a builder handed to a method by pointer is a [pointer]: nil, the
    receiver itself, or another builder in the state in which it is read;
  - the child of a builder shares the buffer of its parent until it is
    closed: it is kept in the field [child] of the parent, and the calls of
    the caller on the open child go through that field ([on_child]);
  - a call that can [panic] returns an [outcome]. *)

From Stdlib Require Import ZArith String Ascii List Lia DecimalString.
From stdpp Require Import base list list_numbers strings.

Open Scope Z_scope.
Set Warnings "-register-all".

(** ** The fragment of the Go runtime that the code relies on *)
Module Go.

(** A call either returns or panics with a value, printed as text. *)
Inductive outcome (A : Type) : Type :=
| Returned (a : A)
| Panicked (v : string).
Arguments Returned {A} a.
Arguments Panicked {A} v.

#[global] Instance outcome_ret : MRet outcome := @Returned.
#[global] Instance outcome_bind : MBind outcome := fun A B f m =>
  match m with
  | Returned a => f a
  | Panicked v => Panicked v
  end.

Definition returns {A} (m : outcome A) : bool :=
  match m with Returned _ => true | Panicked _ => false end.

Definition panics {A} (m : outcome A) : bool := negb (returns m).

(** The [error] interface, by the concrete errors the code produces. *)
Inductive error : Type :=
| EOF
| ErrUnexpectedEOF
| ErrShortWrite
| errorString (s : string).

Definition index_out_of_range : string := "runtime error: index out of range".
Definition slice_out_of_range : string := "runtime error: slice bounds out of range".
Definition nil_dereference : string :=
  "runtime error: invalid memory address or nil pointer dereference".

(** Integer conversions. *)
Definition to_byte (v : Z) : Z := v mod 2 ^ 8.
Definition to_uint16 (v : Z) : Z := v mod 2 ^ 16.
Definition to_uint32 (v : Z) : Z := v mod 2 ^ 32.
Definition to_uint64 (v : Z) : Z := v mod 2 ^ 64.
Definition to_int32 (v : Z) : Z := (v + 2 ^ 31) mod 2 ^ 32 - 2 ^ 31.
Definition to_int64 (v : Z) : Z := (v + 2 ^ 63) mod 2 ^ 64 - 2 ^ 63.

Definition MinInt32 : Z := - 2 ^ 31.
Definition MaxInt32 : Z := 2 ^ 31 - 1.
Definition MinInt64 : Z := - 2 ^ 63.
Definition MaxInt64 : Z := 2 ^ 63 - 1.
Definition MaxUint64 : Z := 2 ^ 64 - 1.

(** [len(s)] *)
Definition len {A} (s : list A) : Z := Z.of_nat (length s).

(** [[]byte(s)] *)
Fixpoint bytes_of_string (s : string) : list Z :=
  match s with
  | EmptyString => []
  | String c rest => Z.of_nat (nat_of_ascii c) :: bytes_of_string rest
  end.

(** [make([]byte, n)]: [n] zero bytes. *)
Definition make (n : Z) : list Z := replicate (Z.to_nat n) 0.

(** [s[i]] *)
Definition index (s : list Z) (i : Z) : outcome Z :=
  if bool_decide (0 <= i < len s) then
    match s !! Z.to_nat i with
    | Some x => Returned x
    | None => Panicked index_out_of_range
    end
  else Panicked index_out_of_range.

(** [s[i] = x] *)
Definition set_index (s : list Z) (i : Z) (x : Z) : outcome (list Z) :=
  if bool_decide (0 <= i < len s) then Returned (<[Z.to_nat i := x]> s)
  else Panicked index_out_of_range.

(** [s[i:]] *)
Definition slice_from (s : list Z) (i : Z) : outcome (list Z) :=
  if bool_decide (0 <= i <= len s) then Returned (drop (Z.to_nat i) s)
  else Panicked slice_out_of_range.

(** [%d] *)
Definition format_d (v : Z) : string := NilZero.string_of_int (Z.to_int v).

End Go.
Export Go.

(** ** Package bson *)
Module bson.

(** *** Byte-order service *)

(** A [float64] is observed by the code only through [math.Float64bits]:
    it is represented by that bit pattern, an unsigned 64-bit integer. *)
Record float64 : Type := { Float64bits : Z }.

(** The interface [ByteOrder]: a value of it is the table of its methods
    (each is named [ByteOrder_] and the method's name, the plain names being
    those of the methods of [Bson]). *)
Record ByteOrder : Type := {
  ByteOrder_AppendInt32 : list Z -> Z -> list Z;
  ByteOrder_AppendInt64 : list Z -> Z -> list Z;
  ByteOrder_AppendFloat64 : list Z -> float64 -> list Z;
  ByteOrder_SetInt32 : list Z -> Z -> Z -> outcome (list Z);
  ByteOrder_IsBigEndian : bool;
  ByteOrder_IsLittleEndian : bool
}.

Definition littleEndian_AppendInt32 (b : list Z) (v : Z) : list Z :=
  let u := to_uint32 v in
  b ++ [to_byte u; to_byte (u ≫ 8); to_byte (u ≫ 16); to_byte (u ≫ 24)].

Definition littleEndian_AppendInt64 (b : list Z) (v : Z) : list Z :=
  let u := to_uint64 v in
  b ++ [to_byte u; to_byte (u ≫ 8); to_byte (u ≫ 16); to_byte (u ≫ 24);
        to_byte (u ≫ 32); to_byte (u ≫ 40); to_byte (u ≫ 48); to_byte (u ≫ 56)].

Definition littleEndian_AppendFloat64 (b : list Z) (v : float64) : list Z :=
  let u := to_int64 (Float64bits v) in
  littleEndian_AppendInt64 b u.

Definition littleEndian_SetInt32 (b : list Z) (pos : Z) (v : Z) : outcome (list Z) :=
  b ← set_index b (pos + 0) (to_byte v);
  b ← set_index b (pos + 1) (to_byte (v ≫ 8));
  b ← set_index b (pos + 2) (to_byte (v ≫ 16));
  set_index b (pos + 3) (to_byte (v ≫ 24)).

Definition LittleEndian : ByteOrder := {|
  ByteOrder_AppendInt32 := littleEndian_AppendInt32;
  ByteOrder_AppendInt64 := littleEndian_AppendInt64;
  ByteOrder_AppendFloat64 := littleEndian_AppendFloat64;
  ByteOrder_SetInt32 := littleEndian_SetInt32;
  ByteOrder_IsBigEndian := false;
  ByteOrder_IsLittleEndian := true
|}.

Definition bigEndian_AppendInt32 (b : list Z) (v : Z) : list Z :=
  let u := to_uint32 v in
  b ++ [to_byte (u ≫ 24); to_byte (u ≫ 16); to_byte (u ≫ 8); to_byte u].

Definition bigEndian_AppendInt64 (b : list Z) (v : Z) : list Z :=
  let u := to_uint64 v in
  b ++ [to_byte (u ≫ 56); to_byte (u ≫ 48); to_byte (u ≫ 40); to_byte (u ≫ 32);
        to_byte (u ≫ 24); to_byte (u ≫ 16); to_byte (u ≫ 8); to_byte u].

Definition bigEndian_AppendFloat64 (b : list Z) (v : float64) : list Z :=
  let u := to_int64 (Float64bits v) in
  bigEndian_AppendInt64 b u.

Definition bigEndian_SetInt32 (b : list Z) (pos : Z) (v : Z) : outcome (list Z) :=
  b ← set_index b (pos + 0) (to_byte (v ≫ 24));
  b ← set_index b (pos + 1) (to_byte (v ≫ 16));
  b ← set_index b (pos + 2) (to_byte (v ≫ 8));
  set_index b (pos + 3) (to_byte v).

Definition BigEndian : ByteOrder := {|
  ByteOrder_AppendInt32 := bigEndian_AppendInt32;
  ByteOrder_AppendInt64 := bigEndian_AppendInt64;
  ByteOrder_AppendFloat64 := bigEndian_AppendFloat64;
  ByteOrder_SetInt32 := bigEndian_SetInt32;
  ByteOrder_IsBigEndian := true;
  ByteOrder_IsLittleEndian := false
|}.

(** The host on which the process runs: how it lays an [int] out in memory,
    and how many bytes an [int] has ([unsafe.Sizeof(0)]). *)
Inductive host_order : Type := LittleEndianHost | BigEndianHost.

Record host : Type := { order_of : host_order; sizeof_int : Z }.

(** The bytes of the [int] [x] in the memory of host [h], lowest address
    first: what the array pointer made from [unsafe.Pointer(&x)] reads. *)
Definition memory_of_int (h : host) (x : Z) : list Z :=
  let le := (fun i => to_byte (x ≫ (8 * Z.of_nat i))) <$> seq 0 (Z.to_nat (sizeof_int h)) in
  match order_of h with
  | LittleEndianHost => le
  | BigEndianHost => reverse le
  end.

(** [func init()]: the value it leaves in the package variable [byteOrder]. *)
Definition init (h : host) : outcome ByteOrder :=
  let x := 0x1234 in
  let p2 := memory_of_int h x in
  b0 ← index p2 0;
  if bool_decide (b0 = 0) then Returned BigEndian else Returned LittleEndian.

(** *** Type tags *)

(** Modelled from the spec: the constants of [BsonType], whose declaration
    is not among the sources; the values are those of the table of type
    tags of section 3.1. *)
Definition BsonTypeEOD : Z := 0x00.
Definition BsonTypeFloat64 : Z := 0x01.
Definition BsonTypeString : Z := 0x02.
Definition BsonTypeBson : Z := 0x03.
Definition BsonTypeArray : Z := 0x04.
Definition BsonTypeBinary : Z := 0x05.
Definition BsonTypeObjectId : Z := 0x07.
Definition BsonTypeBool : Z := 0x08.
Definition BsonTypeDate : Z := 0x09.
Definition BsonTypeNull : Z := 0x0A.
Definition BsonTypeRegEx : Z := 0x0B.
Definition BsonTypeInt32 : Z := 0x10.
Definition BsonTypeTimestamp : Z := 0x11.
Definition BsonTypeInt64 : Z := 0x12.
Definition BsonTypeMinKey : Z := 0xFF.
Definition BsonTypeMaxKey : Z := 0x7F.

(** *** The builder *)

(** [type Bson struct]. The field [child] is a pointer that the caller of
    [AppendBsonStart] holds too: the child is kept here, and whoever writes
    through that pointer writes to this field ([on_child]). *)
Inductive Bson : Type := Build_Bson {
  raw : list Z;
  offset : Z;
  child : option Bson;
  inChild : bool;
  finished : bool
}.

Definition with_raw (r : list Z) (b : Bson) : Bson :=
  Build_Bson r (offset b) (child b) (inChild b) (finished b).
Definition with_child (c : option Bson) (b : Bson) : Bson :=
  Build_Bson (raw b) (offset b) c (inChild b) (finished b).
Definition with_inChild (f : bool) (b : Bson) : Bson :=
  Build_Bson (raw b) (offset b) (child b) f (finished b).
Definition with_finished (f : bool) (b : Bson) : Bson :=
  Build_Bson (raw b) (offset b) (child b) (inChild b) f.

Definition initialBufferSize : Z := 64.
Definition eod : Z := 0x00.

Definition reserveInt32 (b : Bson) : Z * Bson :=
  let pos := len (raw b) in
  (pos, with_raw (raw b ++ [0; 0; 0; 0]) b).

Definition setInt32 (pos : Z) (v : Z) (b : Bson) : outcome Bson :=
  r ← set_index (raw b) (pos + 0) (to_byte v);
  r ← set_index r (pos + 1) (to_byte (v ≫ 8));
  r ← set_index r (pos + 2) (to_byte (v ≫ 16));
  r ← set_index r (pos + 3) (to_byte (v ≫ 24));
  Returned (with_raw r b).

Definition appendType (t : Z) (b : Bson) : Bson :=
  with_raw (raw b ++ [to_byte t]) b.

Definition appendCString (v : string) (b : Bson) : Bson :=
  let eos := 0x00 in
  let b := with_raw (raw b ++ bytes_of_string v) b in
  with_raw (raw b ++ [eos]) b.

Definition appendBytes (v : list Z) (b : Bson) : Bson :=
  with_raw (raw b ++ v) b.

Definition appendInt32 (v : Z) (b : Bson) : Bson :=
  let u := to_uint32 v in
  with_raw (raw b ++ [to_byte u; to_byte (u ≫ 8); to_byte (u ≫ 16); to_byte (u ≫ 24)]) b.

Definition appendInt64 (v : Z) (b : Bson) : Bson :=
  let u := to_uint64 v in
  with_raw (raw b ++ [to_byte u; to_byte (u ≫ 8); to_byte (u ≫ 16); to_byte (u ≫ 24);
                      to_byte (u ≫ 32); to_byte (u ≫ 40); to_byte (u ≫ 48);
                      to_byte (u ≫ 56)]) b.

Definition appendFloat64 (v : float64) (b : Bson) : Bson :=
  let u := to_int64 (Float64bits v) in
  appendInt64 u b.

Definition NewBson : Bson :=
  let bson := Build_Bson [] 0 None false false in
  snd (reserveInt32 bson).

Definition NewBsonWithRaw (r : list Z) : Bson :=
  Build_Bson r 0 None false true.

Definition checkBeforeAppend (b : Bson) : outcome unit :=
  if finished b then Panicked "the bson is finished"
  else if inChild b then Panicked "in child bson"
  else Returned tt.

Definition Finish (b : Bson) : outcome Bson :=
  _ ← checkBeforeAppend b;
  let b := with_raw (raw b ++ [eod]) b in
  b ← setInt32 (offset b) (to_int32 (len (raw b) - offset b)) b;
  Returned (with_finished true b).

Definition Raw (b : Bson) : outcome (list Z) :=
  slice_from (raw b) (offset b).


(** *** The values of section 3.2 *)

Record Binary : Type := {
  Subtype : Z;
  Data : option (list Z)   (* [None] is the nil slice *)
}.

Record RegEx : Type := { Pattern : string; Options : string }.

Record Timestamp : Type := { Increment : Z; Second : Z }.

(** Modelled from the spec: [ObjectId] and its method [IsValid], which are
    not among the sources. Section 3.2: an object identifier has 12 bytes and
    is valid iff they are not all zero. *)
Definition ObjectId : Type := list Z.

Definition ObjectId_IsValid (id : ObjectId) : bool :=
  bool_decide (len id = 12) && negb (forallb (Z.eqb 0) id).

(** Modelled from the spec: [orderKey], whose declaration is not among the
    sources; [MinKey] and [MaxKey] are the two sentinels of section 3.2, any
    other value of the type is [otherKey]. *)
Inductive orderKey : Type := MinKey | MaxKey | otherKey (k : Z).

(** Modelled from the spec: [BsonArray], whose declaration is not among the
    sources. Section 4.3: a document builder, the field [bson] that
    [AppendArrayStart] fills, and the index of the next element. *)
Record BsonArray : Type := { array_bson : Bson; array_index : Z }.

Definition BsonArray_Raw (a : BsonArray) : outcome (list Z) :=
  Raw (array_bson a).

(** *** The typed appends *)

Definition AppendFloat64 (name : string) (value : float64) (b : Bson) : outcome Bson :=
  _ ← checkBeforeAppend b;
  let b := appendType BsonTypeFloat64 b in
  let b := appendCString name b in
  let b := appendFloat64 value b in
  Returned b.

Definition AppendString (name : string) (value : string) (b : Bson) : outcome Bson :=
  _ ← checkBeforeAppend b;
  let b := appendType BsonTypeString b in
  let b := appendCString name b in
  let b := appendInt32 (to_int32 (Z.of_nat (String.length value) + 1)) b in
  let b := appendCString value b in
  Returned b.

(** A pointer handed to a method of [Bson]: nil, a pointer to the receiver
    of the call itself, or a pointer to another object, which is given by the
    state it is in when the method reads it. *)
Inductive pointer (A : Type) : Type :=
| nil_pointer
| to_receiver
| to_other (v : A).
Arguments nil_pointer {A}.
Arguments to_receiver {A}.
Arguments to_other {A} v.

(** [value] is a pointer, and [value.Raw()] is read after the tag and the
    name were appended: when [value] is the receiver, these are part of what
    is read. *)
Definition AppendBson (name : string) (value : pointer Bson) (b : Bson) : outcome Bson :=
  _ ← checkBeforeAppend b;
  let b := appendType BsonTypeBson b in
  let b := appendCString name b in
  r ← match value with
      | to_other v => Raw v
      | to_receiver => Raw b
      | nil_pointer => Panicked nil_dereference
      end;
  let b := appendBytes r b in
  Returned b.

(** The pointer that [AppendBsonStart] returns is the one it stores in the
    field [child]: the caller's child is [child] of the result. *)
Definition AppendBsonStart (name : string) (b : Bson) : outcome Bson :=
  _ ← checkBeforeAppend b;
  let b := appendType BsonTypeBson b in
  let b := appendCString name b in
  let c := Build_Bson (raw b) (len (raw b)) None false false in
  let c := snd (reserveInt32 c) in
  let b := with_inChild true b in
  let b := with_child (Some c) b in
  Returned b.

(** A call of a method of [Bson] through the pointer to the open child: the
    pointer that [AppendBsonStart] or [AppendArrayStart] returned, used until
    the child is closed, which is the stack discipline of section 5 of the
    spec and what [Append] itself does. A pointer that a caller keeps beyond
    [AppendBsonEnd] is not in this model, where the call goes through the
    field [child]. *)
Definition on_child (f : Bson -> outcome Bson) (b : Bson) : outcome Bson :=
  match child b with
  | Some c => c ← f c; Returned (with_child (Some c) b)
  | None => Panicked nil_dereference
  end.

Definition AppendBsonEnd (b : Bson) : outcome Bson :=
  if negb (inChild b) then Panicked "not in child bson"
  else if finished b then Panicked "the bson is finished"
  else
    match child b with
    | None => Panicked nil_dereference
    | Some c =>
        last_byte ← index (raw c) (len (raw c) - 1);
        if negb (bool_decide (last_byte = eod)) then Panicked "the child bson is not finished"
        else
          let b := with_raw (raw c) b in
          let b := with_child None b in
          let b := with_inChild false b in
          Returned b
    end.

(** As for [AppendBson]; [to_receiver] is the array whose document is the
    receiver. *)
Definition AppendArray (name : string) (value : pointer BsonArray) (b : Bson) : outcome Bson :=
  _ ← checkBeforeAppend b;
  let b := appendType BsonTypeArray b in
  let b := appendCString name b in
  r ← match value with
      | to_other v => BsonArray_Raw v
      | to_receiver => Raw b
      | nil_pointer => Panicked nil_dereference
      end;
  let b := appendBytes r b in
  Returned b.

(** As for [AppendBsonStart]: the array returned wraps [child] of the result. *)
Definition AppendArrayStart (name : string) (b : Bson) : outcome Bson :=
  _ ← checkBeforeAppend b;
  let b := appendType BsonTypeArray b in
  let b := appendCString name b in
  let c := Build_Bson (raw b) (len (raw b)) None false false in
  let c := snd (reserveInt32 c) in
  let b := with_inChild true b in
  let b := with_child (Some c) b in
  Returned b.

Definition AppendArrayEnd (b : Bson) : outcome Bson :=
  if negb (inChild b) then Panicked "not in child array"
  else if finished b then Panicked "the bson is finished"
  else
    match child b with
    | None => Panicked nil_dereference
    | Some c =>
        last_byte ← index (raw c) (len (raw c) - 1);
        if negb (bool_decide (last_byte = eod)) then Panicked "the child array is not finished"
        else
          let b := with_raw (raw c) b in
          let b := with_child None b in
          let b := with_inChild false b in
          Returned b
    end.

Definition AppendBinary (name : string) (value : Binary) (b : Bson) : outcome Bson :=
  _ ← checkBeforeAppend b;
  match Data value with
  | None => Panicked "binary is null"
  | Some data =>
      let b := appendType BsonTypeBinary b in
      let b := appendCString name b in
      let b := appendInt32 (to_int32 (len data)) b in
      let b := appendBytes [to_byte (Subtype value)] b in
      let b := appendBytes data b in
      Returned b
  end.

(** The text of the panic is [fmt.Sprintf("invalid ObjectId: %s", value)]:
    the bytes of the identifier, printed as a string. *)
Definition AppendObjectId (name : string) (value : ObjectId) (b : Bson) : outcome Bson :=
  _ ← checkBeforeAppend b;
  if negb (ObjectId_IsValid value) then
    Panicked ("invalid ObjectId: " +:+
              string_of_list_ascii ((fun c => ascii_of_nat (Z.to_nat c)) <$> value))
  else
    let b := appendType BsonTypeObjectId b in
    let b := appendCString name b in
    let b := appendBytes value b in
    Returned b.

Definition AppendBool (name : string) (value : bool) (b : Bson) : outcome Bson :=
  _ ← checkBeforeAppend b;
  let b := appendType BsonTypeBool b in
  let b := appendCString name b in
  let b := if value then appendBytes [to_byte 1] b else appendBytes [to_byte 0] b in
  Returned b.

(** A [Date] is an [int64]. *)
Definition AppendDate (name : string) (value : Z) (b : Bson) : outcome Bson :=
  _ ← checkBeforeAppend b;
  let b := appendType BsonTypeDate b in
  let b := appendCString name b in
  let b := appendInt64 (to_int64 value) b in
  Returned b.

Definition AppendNull (name : string) (b : Bson) : outcome Bson :=
  _ ← checkBeforeAppend b;
  let b := appendType BsonTypeNull b in
  let b := appendCString name b in
  Returned b.

Definition AppendRegex (name : string) (value : RegEx) (b : Bson) : outcome Bson :=
  _ ← checkBeforeAppend b;
  let b := appendType BsonTypeRegEx b in
  let b := appendCString name b in
  let b := appendCString (Pattern value) b in
  let b := appendCString (Options value) b in
  Returned b.

Definition AppendInt32 (name : string) (value : Z) (b : Bson) : outcome Bson :=
  _ ← checkBeforeAppend b;
  let b := appendType BsonTypeInt32 b in
  let b := appendCString name b in
  let b := appendInt32 value b in
  Returned b.

Definition AppendTimestamp (name : string) (value : Timestamp) (b : Bson) : outcome Bson :=
  _ ← checkBeforeAppend b;
  let b := appendType BsonTypeTimestamp b in
  let b := appendCString name b in
  let b := appendInt32 (Increment value) b in
  let b := appendInt32 (Second value) b in
  Returned b.

Definition AppendInt64 (name : string) (value : Z) (b : Bson) : outcome Bson :=
  _ ← checkBeforeAppend b;
  let b := appendType BsonTypeInt64 b in
  let b := appendCString name b in
  let b := appendInt64 value b in
  Returned b.

Definition AppendMinKey (name : string) (b : Bson) : outcome Bson :=
  _ ← checkBeforeAppend b;
  let b := appendType BsonTypeMinKey b in
  let b := appendCString name b in
  Returned b.

Definition AppendMaxKey (name : string) (b : Bson) : outcome Bson :=
  _ ← checkBeforeAppend b;
  let b := appendType BsonTypeMaxKey b in
  let b := appendCString name b in
  Returned b.

(** *** The generic append *)

(** The dynamic type and value of the [interface{}] handed to [Append]. An
    integer constructor carries a value of its Go type, so one within that
    type's range ([in_int], [in_uint]). A [float32] is carried as the
    [float64] that the conversion [float64(v)] gives, which is exact.
    [V_ptr (Some v)] is a pointer to [v] and [V_ptr None] a nil pointer;
    [V_other t s] is a value of an unsupported kind (complex, chan, func,
    unsafe pointer) whose type prints as [t] and whose value prints as [s].
    The values that become a sub-document carry their names and values in
    the order in which they are appended: [V_Map m] is a [Map] with its
    entries in the order in which the iteration yields them, [V_Doc d] a
    [Doc] with its pairs, [V_map entries] a map of any other type with its
    keys in the order of [v.MapKeys()], each key as [k.String()] prints it,
    and [V_struct fields] a struct with its fields in the order of their
    declaration, under their declared names. [V_array elems] is an array or
    a slice with its elements. The values of this type are finite: a value
    that holds itself, through pointers, maps or slices, is not among them,
    and [Append] does not come back from one. *)
Inductive value : Type :=
| V_float32 (v : float64)
| V_float64 (v : float64)
| V_int8 (v : Z)
| V_int16 (v : Z)
| V_int32 (v : Z)
| V_int64 (v : Z)
| V_uint8 (v : Z)
| V_uint16 (v : Z)
| V_uint32 (v : Z)
| V_uint64 (v : Z)
| V_int (v : Z)
| V_uint (v : Z)
| V_uintptr (v : Z)
| V_bool (v : bool)
| V_string (v : string)
| V_nil
| V_ObjectId (v : ObjectId)
| V_Date (v : Z)
| V_RegEx (v : RegEx)
| V_Timestamp (v : Timestamp)
| V_Binary (v : Binary)
| V_orderKey (v : orderKey)
| V_ptr (v : option value)
| V_Map (m : list (string * value))
| V_Doc (d : list (string * value))
| V_array (elems : list value)
| V_map (entries : list (string * value))
| V_struct (fields : list (string * value))
| V_other (type_name printed : string).

(** Modelled from the spec: [Map.toBson], which is not among the sources.
    Section 4.5: a map-shaped value is appended by one generic append per
    entry. [append] is the generic append, which is defined below with the
    functions that call it. *)
Fixpoint Map_toBson (append : string -> value -> Bson -> outcome Bson)
    (m : list (string * value)) (child : Bson) {struct m} : outcome Bson :=
  match m with
  | [] => Returned child
  | (k, v) :: m => child ← append k v child; Map_toBson append m child
  end.

(** Modelled from the spec: [Doc.toBson], which is not among the sources.
    Section 4.5: a doc-shaped value is appended by one generic append per
    pair, in the order of the pairs. *)
Fixpoint Doc_toBson (append : string -> value -> Bson -> outcome Bson)
    (d : list (string * value)) (child : Bson) {struct d} : outcome Bson :=
  match d with
  | [] => Returned child
  | (k, v) :: d => child ← append k v child; Doc_toBson append d child
  end.

(** Modelled from the spec: [structToBson], which is not among the sources.
    Section 4.5: the fields are enumerated in the order of their
    declaration, with one generic append per field under its declared name. *)
Fixpoint structToBson (append : string -> value -> Bson -> outcome Bson)
    (fields : list (string * value)) (child : Bson) {struct fields} : outcome Bson :=
  match fields with
  | [] => Returned child
  | (k, v) :: fields => child ← append k v child; structToBson append fields child
  end.

(** Modelled from the spec: the methods [Append] and [Finish] of
    [BsonArray], which are not among the sources. Section 4.3: the array
    builder names each element by its index in decimal and counts it up with
    every append; section 4.2: the child of an array acts as an array
    builder, so that it is finished as its document is. *)
Definition BsonArray_Append (append : string -> value -> Bson -> outcome Bson)
    (v : value) (a : BsonArray) : outcome BsonArray :=
  b ← append (format_d (array_index a)) v (array_bson a);
  Returned {| array_bson := b; array_index := array_index a + 1 |}.

Definition BsonArray_Finish (a : BsonArray) : outcome BsonArray :=
  b ← Finish (array_bson a);
  Returned {| array_bson := b; array_index := array_index a |}.

Definition in_int (bits : Z) (v : Z) : Prop := - 2 ^ (bits - 1) <= v < 2 ^ (bits - 1).
Definition in_uint (bits : Z) (v : Z) : Prop := 0 <= v < 2 ^ bits.

Definition no_uint64 : string :=
  "bson has no uint64 type, and value is too large to fit correctly in an int64".

(** In the cases of an array or slice and of a map, [each] is the loop of
    the source. [AppendArrayStart] sets no index in the array that it
    returns, so that the index starts as the zero value. *)
Fixpoint Append (name : string) (value : value) (b : Bson) {struct value} : outcome Bson :=
  match value with
  | V_float32 v => AppendFloat64 name v b
  | V_float64 v => AppendFloat64 name v b
  | V_int8 v => AppendInt32 name (to_int32 v) b
  | V_int16 v => AppendInt32 name (to_int32 v) b
  | V_int32 v => AppendInt32 name v b
  | V_int64 v =>
      let val := v in
      if bool_decide (val >= MinInt32) && bool_decide (val <= MaxInt32)
      then AppendInt32 name (to_int32 val) b
      else AppendInt64 name (to_int64 val) b
  | V_uint8 v => AppendInt32 name (to_int32 v) b
  | V_uint16 v => AppendInt32 name (to_int32 v) b
  | V_uint32 v =>
      let val := v in
      if bool_decide (to_int32 val < 0)
      then AppendInt64 name (to_int64 val) b
      else AppendInt32 name (to_int32 val) b
  | V_uint64 v =>
      let val := to_int64 v in
      if bool_decide (val < 0) then Panicked no_uint64
      else if bool_decide (val >= MinInt32) && bool_decide (val <= MaxInt32)
      then AppendInt32 name (to_int32 val) b
      else AppendInt64 name (to_int64 val) b
  | V_int v =>
      let val := to_int64 v in
      if bool_decide (val >= MinInt32) && bool_decide (val <= MaxInt32)
      then AppendInt32 name (to_int32 val) b
      else AppendInt64 name (to_int64 val) b
  | V_uint v =>
      let val := to_int64 v in
      if bool_decide (val < 0) then Panicked no_uint64
      else if bool_decide (val >= MinInt32) && bool_decide (val <= MaxInt32)
      then AppendInt32 name (to_int32 val) b
      else AppendInt64 name (to_int64 val) b
  | V_uintptr v =>
      let val := to_int64 v in
      if bool_decide (val < 0) then Panicked no_uint64
      else if bool_decide (val >= MinInt32) && bool_decide (val <= MaxInt32)
      then AppendInt32 name (to_int32 val) b
      else AppendInt64 name (to_int64 val) b
  | V_bool v => AppendBool name v b
  | V_string v => AppendString name v b
  | V_nil => AppendNull name b
  | V_ObjectId v => AppendObjectId name v b
  | V_Date v => AppendDate name v b
  | V_RegEx v => AppendRegex name v b
  | V_Timestamp v => AppendTimestamp name v b
  | V_Binary v => AppendBinary name v b
  | V_orderKey v =>
      match v with
      | MaxKey => AppendMaxKey name b
      | MinKey => AppendMinKey name b
      | otherKey _ => Panicked "invalid orderkey"
      end
  | V_ptr None => AppendNull name b
  | V_ptr (Some elem) => Append name elem b
  | V_Map m =>
      b ← AppendBsonStart name b;
      b ← on_child (fun child => child ← Map_toBson Append m child; Finish child) b;
      AppendBsonEnd b
  | V_Doc d =>
      b ← AppendBsonStart name b;
      b ← on_child (fun child => child ← Doc_toBson Append d child; Finish child) b;
      AppendBsonEnd b
  | V_array elems =>
      let each :=
        fix each elems (child : BsonArray) {struct elems} : outcome BsonArray :=
          match elems with
          | [] => Returned child
          | elem :: elems => child ← BsonArray_Append Append elem child; each elems child
          end in
      b ← AppendArrayStart name b;
      b ← on_child (fun c =>
             child ← each elems {| array_bson := c; array_index := 0 |};
             child ← BsonArray_Finish child;
             Returned (array_bson child)) b;
      AppendArrayEnd b
  | V_map entries =>
      let each :=
        fix each entries (child : Bson) {struct entries} : outcome Bson :=
          match entries with
          | [] => Returned child
          | (k, v) :: entries => child ← Append k v child; each entries child
          end in
      b ← AppendBsonStart name b;
      b ← on_child (fun child => child ← each entries child; Finish child) b;
      AppendBsonEnd b
  | V_struct fields =>
      b ← AppendBsonStart name b;
      b ← on_child (fun child => child ← structToBson Append fields child; Finish child) b;
      AppendBsonEnd b
  | V_other type_name printed =>
      Panicked ("can't append " +:+ type_name +:+ "(" +:+ printed +:+ ") to bson")
  end.

(** *** Reading a document *)

(** Modelled from the spec: [bytesToInt32], which is not among the sources;
    it parses the first four bytes as a little-endian int32 (sections 3.1 and
    8), and like every indexing of a slice it panics on a shorter one. *)
Definition bytesToInt32 (b : list Z) : outcome Z :=
  b0 ← index b 0;
  b1 ← index b 1;
  b2 ← index b 2;
  b3 ← index b 3;
  Returned (to_int32 (Z.lor (Z.lor (Z.lor b0 (b1 ≪ 8)) (b2 ≪ 16)) (b3 ≪ 24))).

Definition Length (b : Bson) : outcome Z :=
  if negb (finished b) then Panicked "the bson is unfinished"
  else
    r ← slice_from (raw b) (offset b);
    bytesToInt32 r.

(** [s[lo:hi]] *)
Definition slice (s : list Z) (lo hi : Z) : outcome (list Z) :=
  if bool_decide (0 <= lo /\ lo <= hi /\ hi <= len s)
  then Returned (take (Z.to_nat (hi - lo)) (drop (Z.to_nat lo) s))
  else Panicked slice_out_of_range.

(** The number of bytes before the first NUL of [s], if there is one. *)
Fixpoint cstring_length (s : list Z) : option Z :=
  match s with
  | [] => None
  | c :: rest => if c =? 0 then Some 0 else Z.succ <$> cstring_length rest
  end.

(** Modelled from the spec: the iterator of section 4.4 ([BsonIterator],
    [NewBsonIterator], [Next], [Name], [Value]), which is not among the
    sources. It is a forward cursor over the bytes of a finished document:
    [Next] reads the type tag at the current position, answers [false] at the
    terminator, and otherwise takes the NUL-terminated name and the value
    bytes, whose number the tag decides, and moves behind them. A read
    outside the buffer panics as every slice operation does, and a tag
    outside the table of section 3.1 panics with "invalid bson type". *)
Record BsonIterator : Type := {
  it_doc : list Z;
  it_pos : Z;
  it_type : Z;
  it_name : list Z;
  it_value : list Z
}.

Definition NewBsonIterator (b : Bson) : outcome BsonIterator :=
  r ← Raw b;
  Returned {| it_doc := r; it_pos := 4; it_type := BsonTypeEOD; it_name := []; it_value := [] |}.

Definition read_cstring (doc : list Z) (pos : Z) : outcome (list Z) :=
  s ← slice_from doc pos;
  match cstring_length s with
  | Some n => slice s 0 n
  | None => Panicked index_out_of_range
  end.

Definition value_size (t : Z) (doc : list Z) (pos : Z) : outcome Z :=
  if bool_decide (t = BsonTypeFloat64) then Returned 8
  else if bool_decide (t = BsonTypeString) then
    s ← slice_from doc pos; n ← bytesToInt32 s; Returned (4 + n)
  else if bool_decide (t = BsonTypeBson \/ t = BsonTypeArray) then
    s ← slice_from doc pos; bytesToInt32 s
  else if bool_decide (t = BsonTypeBinary) then
    s ← slice_from doc pos; n ← bytesToInt32 s; Returned (4 + 1 + n)
  else if bool_decide (t = BsonTypeObjectId) then Returned 12
  else if bool_decide (t = BsonTypeBool) then Returned 1
  else if bool_decide (t = BsonTypeDate) then Returned 8
  else if bool_decide (t = BsonTypeNull) then Returned 0
  else if bool_decide (t = BsonTypeRegEx) then
    pattern ← read_cstring doc pos;
    options ← read_cstring doc (pos + len pattern + 1);
    Returned (len pattern + 1 + len options + 1)
  else if bool_decide (t = BsonTypeInt32) then Returned 4
  else if bool_decide (t = BsonTypeTimestamp) then Returned 8
  else if bool_decide (t = BsonTypeInt64) then Returned 8
  else if bool_decide (t = BsonTypeMinKey \/ t = BsonTypeMaxKey) then Returned 0
  else Panicked ("invalid bson type: " +:+ format_d t).

Definition Next (it : BsonIterator) : outcome (bool * BsonIterator) :=
  t ← index (it_doc it) (it_pos it);
  if bool_decide (t = BsonTypeEOD) then Returned (false, it)
  else
    name ← read_cstring (it_doc it) (it_pos it + 1);
    let start := it_pos it + 1 + len name + 1 in
    size ← value_size t (it_doc it) start;
    v ← slice (it_doc it) start (start + size);
    Returned (true, {| it_doc := it_doc it; it_pos := start + size;
                       it_type := t; it_name := name; it_value := v |}).

Definition Name (it : BsonIterator) : outcome string :=
  Returned (string_of_list_ascii ((fun c => ascii_of_nat (Z.to_nat c)) <$> it_name it)).

(** The value under the cursor, as its tag and its bytes. *)
Definition Value (it : BsonIterator) : outcome (Z * list Z) :=
  Returned (it_type it, it_value it).

Definition Iterator (b : Bson) : outcome BsonIterator := NewBsonIterator b.

(** The loop [for it.Next() { it.Name(); it.Value() }] of [Validate], run
    for at most [fuel] iterations; [None] when they do not suffice. *)
Fixpoint Validate_loop (fuel : nat) (it : BsonIterator) : option (outcome unit) :=
  match fuel with
  | O => None
  | S fuel =>
      match Next it with
      | Panicked v => Some (Panicked v)
      | Returned (false, _) => Some (Returned tt)
      | Returned (true, it) =>
          match Name it with
          | Panicked v => Some (Panicked v)
          | Returned _ =>
              match Value it with
              | Panicked v => Some (Panicked v)
              | Returned _ => Validate_loop fuel it
              end
          end
      end
  end.

(** The body of [Validate], without the deferred function. *)
Definition Validate_body (fuel : nat) (b : Bson) : option (outcome (option error)) :=
  if negb (finished b) then Some (Returned (Some (errorString "unfinished bson")))
  else
    match Length b with
    | Panicked v => Some (Panicked v)
    | Returned l =>
        match Raw b with
        | Panicked v => Some (Panicked v)
        | Returned r =>
            if negb (bool_decide (l = len r))
            then Some (Returned (Some (errorString "invalid bson length")))
            else
              match Iterator b with
              | Panicked v => Some (Panicked v)
              | Returned it =>
                  match Validate_loop fuel it with
                  | None => None
                  | Some (Panicked v) => Some (Panicked v)
                  | Some (Returned _) => Some (Returned None)
                  end
              end
        end
    end.

(** [Validate]: the deferred function recovers a panic of the body and turns
    it into the error returned ([fmt.Errorf("invalid bson: %v", r)]). The
    result is [None] when [fuel] iterations do not end the loop. *)
Definition Validate_fuel (fuel : nat) (b : Bson) : option (outcome (option error)) :=
  match Validate_body fuel b with
  | None => None
  | Some (Panicked r) => Some (Returned (Some (errorString ("invalid bson: " +:+ r))))
  | Some (Returned err) => Some (Returned err)
  end.

(** Every turn of the loop consumes at least one byte of the buffer: its
    length bounds the number of turns. *)
Definition Validate (b : Bson) : option (outcome (option error)) :=
  Validate_fuel (S (length (raw b))) b.

End bson.

(** ** Packages encoding/binary and io, as far as package sdb uses them *)
Module binary.

Inductive ByteOrder : Type := LittleEndian | BigEndian.

(** The bytes of the [n]-byte unsigned integer [v], least significant first. *)
Fixpoint le_bytes (n : nat) (v : Z) : list Z :=
  match n with
  | O => []
  | S n => to_byte v :: le_bytes n (v ≫ 8)
  end.

(** The unsigned integer whose bytes, least significant first, are [bs]. *)
Fixpoint le_value (bs : list Z) : Z :=
  match bs with
  | [] => 0
  | b :: bs => Z.lor b (le_value bs ≪ 8)
  end.

Definition encode (order : ByteOrder) (n : nat) (v : Z) : list Z :=
  match order with
  | LittleEndian => le_bytes n v
  | BigEndian => reverse (le_bytes n v)
  end.

Definition decode (order : ByteOrder) (bs : list Z) : Z :=
  match order with
  | LittleEndian => le_value bs
  | BigEndian => le_value (reverse bs)
  end.

(** [order.PutUintN(b[off:], v)]: the slice must hold the [n] bytes. *)
Definition put (order : ByteOrder) (n : nat) (b : list Z) (off : Z) (v : Z) : outcome (list Z) :=
  if bool_decide (0 <= off /\ off + Z.of_nat n <= len b)
  then Returned (take (Z.to_nat off) b ++ encode order n v ++ drop (Z.to_nat off + n) b)
  else Panicked index_out_of_range.

(** [order.UintN(b[off:])] *)
Definition get (order : ByteOrder) (n : nat) (b : list Z) (off : Z) : outcome Z :=
  if bool_decide (0 <= off /\ off + Z.of_nat n <= len b)
  then Returned (decode order (take n (drop (Z.to_nat off) b)))
  else Panicked index_out_of_range.

Definition PutUint16 (order : ByteOrder) := put order 2.
Definition PutUint32 (order : ByteOrder) := put order 4.
Definition PutUint64 (order : ByteOrder) := put order 8.
Definition Uint32 (order : ByteOrder) := get order 4.
Definition Uint64 (order : ByteOrder) := get order 8.

End binary.

Module io.

(** An [io.Writer]: the bytes it has accepted, and how many more it accepts
    ([None]: any number). A write that does not fit is cut short and fails. *)
Record Writer : Type := { written : list Z; room : option Z }.

Definition Write (w : Writer) (p : list Z) : Writer * option error :=
  match room w with
  | None => ({| written := written w ++ p; room := None |}, None)
  | Some k =>
      if bool_decide (len p <= k)
      then ({| written := written w ++ p; room := Some (k - len p) |}, None)
      else ({| written := written w ++ take (Z.to_nat k) p; room := Some 0 |},
            Some ErrShortWrite)
  end.

(** An [io.Reader]: the bytes it still has to deliver. *)
Record Reader : Type := { unread : list Z }.

(** [io.ReadFull(r, buf)] for a buffer of [n] zero bytes: the buffer after
    the call, the reader after it, and the error. *)
Definition ReadFull (r : Reader) (n : Z) : list Z * Reader * option error :=
  let data := unread r in
  if bool_decide (n <= len data)
  then (take (Z.to_nat n) data, {| unread := drop (Z.to_nat n) data |}, None)
  else
    (data ++ make (n - len data), {| unread := [] |},
     Some (if bool_decide (len data = 0) then EOF else ErrUnexpectedEOF)).

End io.

(** ** Package sdb *)
Module sdb.
Import bson binary io.

(** The result of a method that returns an [error]: the stream after the
    call and the error, unless the call panics. *)
Definition writing : Type := outcome (Writer * option error).

(** [if err := step; err != nil { return err }], then [k]. *)
Definition and_then (step : writing) (k : Writer -> writing) : writing :=
  '(w, err) ← step;
  match err with
  | Some e => Returned (w, Some e)
  | None => k w
  end.

Notation "'check' w ← step ; k" := (and_then step (fun w => k))
  (at level 20, w name, step at level 100, k at level 200, only parsing).

Definition nil_error (w : Writer) : writing := Returned (w, None).

(** Modelled from the spec: [alignedSize], which is not among the sources;
    section 4.8 has it round a size up to the next multiple of the alignment
    ("zero-padding up to a 4-byte boundary"). Both are [int32]. *)
Definition alignedSize (size : Z) (align : Z) : Z :=
  to_int32 (to_int32 (size + align - 1) `quot` align * align).

(** Modelled from the spec: the package variable [emptyBson], which is not
    among the sources; section 4.8 has it be the empty document, which
    section 8 builds by [new(); finish()]. *)
Definition emptyBson : Bson :=
  match Finish NewBson with
  | Returned b => b
  | Panicked _ => NewBson
  end.

Definition sysInfoSpecial : Z := 0xFFFFFFFF.
Definition sysInfoEyeCatcher : Z := 0xFFFEFDFC.
Definition sysInfoEyeCatcherRevert : Z := 0xFCFDFEFF.

Definition RspMsgMask : Z := 0x80000000.
Definition RspMsgUnmask : Z := 0x7FFFFFFF.
Definition UpdateReqMsg : Z := 2001.
Definition UpdateRspMsg : Z := Z.lor UpdateReqMsg RspMsgMask.
Definition InsertReqMsg : Z := 2002.
Definition InsertRspMsg : Z := Z.lor InsertReqMsg RspMsgMask.
Definition QueryReqMsg : Z := 2004.
Definition QueryRspMsg : Z := Z.lor QueryReqMsg RspMsgMask.
Definition DeleteReqMsg : Z := 2006.
Definition DeleteRspMsg : Z := Z.lor DeleteReqMsg RspMsgMask.
Definition DisconnectReqMsg : Z := 2008.

Definition sysInfoMsgHeaderSize : Z := 12.
Definition sysInfoRequestSize : Z := sysInfoMsgHeaderSize.
Definition sysInfoReplySize : Z := 128.
Definition msgHeaderSize : Z := 28.

Module SysInfoMsgHeader.

Record t : Type := { Special : Z; EyeCatcher : Z; Length : Z }.

Definition Size (m : t) : Z := sysInfoMsgHeaderSize.

Definition Encode (m : t) (w : Writer) (order : ByteOrder) : writing :=
  let buf := make 12 in
  buf ← PutUint32 order buf 0 (Special m);
  buf ← PutUint32 order buf 4 (EyeCatcher m);
  buf ← PutUint32 order buf 8 (to_uint32 (Length m));
  Returned (Write w buf).

Definition Decode (m : t) (r : Reader) (order : ByteOrder) : outcome (t * Reader * option error) :=
  let '(buf, r, err) := ReadFull r 12 in
  match err with
  | Some e => Returned (m, r, Some e)
  | None =>
      special ← Uint32 order buf 0;
      eyeCatcher ← Uint32 order buf 4;
      length ← Uint32 order buf 8;
      Returned ({| Special := special; EyeCatcher := eyeCatcher; Length := to_int32 length |},
                r, None)
  end.

End SysInfoMsgHeader.

Module SysInfoRequest.

(** [type SysInfoRequest struct { SysInfoMsgHeader }]: a request is its
    embedded header, and its methods are those of the header. *)
Definition t : Type := SysInfoMsgHeader.t.

Definition NewSysInfoRequest : t :=
  {| SysInfoMsgHeader.Special := sysInfoSpecial;
     SysInfoMsgHeader.EyeCatcher := sysInfoEyeCatcher;
     SysInfoMsgHeader.Length := sysInfoRequestSize |}.

Definition Size (m : t) : Z := sysInfoRequestSize.

Definition Encode (m : t) (w : Writer) (order : ByteOrder) : writing :=
  SysInfoMsgHeader.Encode m w order.

Definition Decode (m : t) (r : Reader) (order : ByteOrder) : outcome (t * Reader * option error) :=
  SysInfoMsgHeader.Decode m r order.

End SysInfoRequest.

Module SysInfoReply.

Record t : Type := { Header : SysInfoMsgHeader.t; OSType : Z }.

Definition Size (m : t) : Z := sysInfoReplySize.

Definition Encode (m : t) (w : Writer) (order : ByteOrder) : writing :=
  check w ← SysInfoMsgHeader.Encode (Header m) w order;
  let buf := make (sysInfoReplySize - sysInfoMsgHeaderSize) in
  buf ← PutUint32 order buf 0 (to_uint32 (OSType m));
  Returned (Write w buf).

Definition Decode (m : t) (r : Reader) (order : ByteOrder) : outcome (t * Reader * option error) :=
  '(h, r, err) ← SysInfoMsgHeader.Decode (Header m) r order;
  let m := {| Header := h; OSType := OSType m |} in
  match err with
  | Some e => Returned (m, r, Some e)
  | None =>
      if negb (bool_decide (SysInfoMsgHeader.Length (Header m) = sysInfoReplySize))
      then Returned (m, r, Some (errorString "invalid sysinfo reply size"))
      else
        let '(buf, r, err) := ReadFull r (sysInfoReplySize - sysInfoMsgHeaderSize) in
        match err with
        | Some e => Returned (m, r, Some e)
        | None =>
            osType ← Uint32 order buf 0;
            Returned ({| Header := Header m; OSType := to_int32 osType |}, r, None)
        end
  end.

End SysInfoReply.

Module MsgHeader.

Record t : Type := { Length : Z; OpCode : Z; Tid : Z; RouteId : Z; RequestId : Z }.

Definition Size (m : t) : Z := msgHeaderSize.

Definition Encode (m : t) (w : Writer) (order : ByteOrder) : writing :=
  let buf := make msgHeaderSize in
  buf ← PutUint32 order buf 0 (to_uint32 (Length m));
  buf ← PutUint32 order buf 4 (to_uint32 (OpCode m));
  buf ← PutUint32 order buf 8 (Tid m);
  buf ← PutUint64 order buf 12 (RouteId m);
  buf ← PutUint64 order buf 20 (RequestId m);
  Returned (Write w buf).

Definition Decode (m : t) (r : Reader) (order : ByteOrder) : outcome (t * Reader * option error) :=
  let '(buf, r, err) := ReadFull r msgHeaderSize in
  match err with
  | Some e => Returned (m, r, Some e)
  | None =>
      length ← Uint32 order buf 0;
      opCode ← Uint32 order buf 4;
      tid ← Uint32 order buf 8;
      routeId ← Uint64 order buf 12;
      requestId ← Uint64 order buf 20;
      Returned ({| Length := to_int32 length; OpCode := opCode; Tid := tid;
                   RouteId := routeId; RequestId := requestId |}, r, None)
  end.

End MsgHeader.

Module ReplyMsg.

Record t : Type := {
  Header : MsgHeader.t;
  ContextId : Z;
  Flags : Z;
  StartFrom : Z;
  ReturnNum : Z;
  Error : string
}.

Definition Size (m : t) : Z := to_int32 (MsgHeader.Size (Header m) + 20).

Definition with_Header (h : MsgHeader.t) (m : t) : t :=
  {| Header := h; ContextId := ContextId m; Flags := Flags m;
     StartFrom := StartFrom m; ReturnNum := ReturnNum m; Error := Error m |}.

Definition with_Error (e : string) (m : t) : t :=
  {| Header := Header m; ContextId := ContextId m; Flags := Flags m;
     StartFrom := StartFrom m; ReturnNum := ReturnNum m; Error := e |}.

Section Decode.

(** The method [String] of [Bson] renders a document through the iterator,
    the [String] methods of the values and [fmt]'s printing of floats, none
    of which are among the sources: the rendering is a parameter here. *)
Variable Bson_String : Bson -> outcome string.

(** [bson.NewBson(buf)] wraps the bytes read as a finished document: in the
    sources that constructor is [NewBsonWithRaw]. *)
Definition Decode (m : t) (r : Reader) (order : ByteOrder) : outcome (t * Reader * option error) :=
  '(h, r, err) ← MsgHeader.Decode (Header m) r order;
  let m := with_Header h m in
  match err with
  | Some e => Returned (m, r, Some e)
  | None =>
      if bool_decide (MsgHeader.Length (Header m) < Size m)
      then Returned (m, r, Some (errorString
             ("invalid msg length: expect " +:+ format_d (Size m) +:+
              ", actual " +:+ format_d (MsgHeader.Length (Header m)))))
      else
        let '(buf, r, err) := ReadFull r 20 in
        match err with
        | Some e => Returned (m, r, Some e)
        | None =>
            contextId ← Uint64 order buf 0;
            flags ← Uint32 order buf 8;
            startFrom ← Uint32 order buf 12;
            returnNum ← Uint32 order buf 16;
            let m := {| Header := Header m; ContextId := to_int64 contextId;
                        Flags := to_int32 flags; StartFrom := to_int32 startFrom;
                        ReturnNum := to_int32 returnNum; Error := Error m |} in
            if bool_decide (Flags m = 0) then Returned (m, r, None)
            else
              let '(buf, r, err) :=
                ReadFull r (to_int32 (MsgHeader.Length (Header m) - Size m)) in
              match err with
              | Some e => Returned (m, r, Some e)
              | None =>
                  let errInfo := NewBsonWithRaw buf in
                  s ← Bson_String errInfo;
                  Returned (with_Error s m, r, None)
              end
        end
  end.

End Decode.

End ReplyMsg.

Module DisconnectMsg.

Definition NewDisconnectMsg : MsgHeader.t :=
  {| MsgHeader.Length := msgHeaderSize; MsgHeader.OpCode := DisconnectReqMsg;
     MsgHeader.Tid := 0; MsgHeader.RouteId := 0; MsgHeader.RequestId := 0 |}.

Definition Encode (m : MsgHeader.t) (w : Writer) (order : ByteOrder) : writing :=
  MsgHeader.Encode m w order.

End DisconnectMsg.

Definition writeBson (w : Writer) (b : Bson) : writing :=
  r ← Raw b;
  check w ← Returned (Write w r);
  l ← bson.Length b;
  let paddingLen := to_int32 (alignedSize (to_int32 l) 4 - to_int32 l) in
  check w ← (if bool_decide (paddingLen > 0)
             then Returned (Write w (make paddingLen)) else nil_error w);
  nil_error w.

(** [if p != nil { if err := writeBson(w, *p); err != nil { return err } }] *)
Definition writeBson_if_present (w : Writer) (p : option Bson) : writing :=
  match p with
  | Some b => writeBson w b
  | None => nil_error w
  end.

(** [if p == nil { p = emptyBson }] *)
Definition or_empty (p : option Bson) : Bson :=
  match p with
  | Some b => b
  | None => emptyBson
  end.

Module QueryMsg.

Record t : Type := {
  Header : MsgHeader.t;
  Version : Z;
  W : Z;
  padding : Z;
  Flags : Z;
  NameLength : Z;
  SkipNum : Z;
  ReturnNum : Z;
  Name : list Z;
  Where : option Bson;
  Select : option Bson;
  OrderBy : option Bson;
  Hint : option Bson
}.

Definition FixedSize (m : t) : Z := to_int32 (MsgHeader.Size (Header m) + 32).

Definition Encode (m : t) (w : Writer) (order : ByteOrder) : writing :=
  check w ← MsgHeader.Encode (Header m) w order;
  let buf := make 32 in
  buf ← PutUint32 order buf 0 (to_uint32 (Version m));
  buf ← PutUint16 order buf 4 (to_uint16 (W m));
  buf ← PutUint16 order buf 6 (padding m);
  buf ← PutUint32 order buf 8 (to_uint32 (Flags m));
  buf ← PutUint32 order buf 12 (to_uint32 (NameLength m));
  buf ← PutUint64 order buf 16 (to_uint64 (SkipNum m));
  buf ← PutUint64 order buf 24 (to_uint64 (ReturnNum m));
  check w ← Returned (Write w buf);
  check w ← Returned (Write w (Name m));
  let paddingLen := to_int32 (alignedSize (to_int32 (NameLength m + 1)) 4 - NameLength m) in
  check w ← (if bool_decide (paddingLen > 0)
             then Returned (Write w (make paddingLen)) else nil_error w);
  check w ← writeBson_if_present w (Where m);
  check w ← writeBson_if_present w (Select m);
  check w ← writeBson_if_present w (OrderBy m);
  check w ← writeBson_if_present w (Hint m);
  nil_error w.

End QueryMsg.

Module InsertMsg.

Record t : Type := {
  Header : MsgHeader.t;
  Version : Z;
  W : Z;
  padding : Z;
  Flags : Z;
  NameLength : Z;
  Name : list Z;
  Doc : option Bson
}.

Definition FixedSize (m : t) : Z := to_int32 (MsgHeader.Size (Header m) + 16).

Definition Encode (m : t) (w : Writer) (order : ByteOrder) : writing :=
  check w ← MsgHeader.Encode (Header m) w order;
  let buf := make 16 in
  buf ← PutUint32 order buf 0 (to_uint32 (Version m));
  buf ← PutUint16 order buf 4 (to_uint16 (W m));
  buf ← PutUint16 order buf 6 (padding m);
  buf ← PutUint32 order buf 8 (to_uint32 (Flags m));
  buf ← PutUint32 order buf 12 (to_uint32 (NameLength m));
  check w ← Returned (Write w buf);
  check w ← Returned (Write w (Name m));
  let paddingLen := to_int32 (alignedSize (to_int32 (NameLength m + 1)) 4 - NameLength m) in
  check w ← (if bool_decide (paddingLen > 0)
             then Returned (Write w (make paddingLen)) else nil_error w);
  check w ← writeBson_if_present w (Doc m);
  nil_error w.

End InsertMsg.

Module DeleteMsg.

Record t : Type := {
  Header : MsgHeader.t;
  Version : Z;
  W : Z;
  padding : Z;
  Flags : Z;
  NameLength : Z;
  Name : list Z;
  Condition : option Bson;
  Hint : option Bson
}.

Definition FixedSize (m : t) : Z := to_int32 (MsgHeader.Size (Header m) + 16).

Definition Encode (m : t) (w : Writer) (order : ByteOrder) : writing :=
  check w ← MsgHeader.Encode (Header m) w order;
  let buf := make 16 in
  buf ← PutUint32 order buf 0 (to_uint32 (Version m));
  buf ← PutUint16 order buf 4 (to_uint16 (W m));
  buf ← PutUint16 order buf 6 (padding m);
  buf ← PutUint32 order buf 8 (to_uint32 (Flags m));
  buf ← PutUint32 order buf 12 (to_uint32 (NameLength m));
  check w ← Returned (Write w buf);
  check w ← Returned (Write w (Name m));
  let paddingLen := to_int32 (alignedSize (to_int32 (NameLength m + 1)) 4 - NameLength m) in
  check w ← (if bool_decide (paddingLen > 0)
             then Returned (Write w (make paddingLen)) else nil_error w);
  let cond := or_empty (Condition m) in
  check w ← writeBson w cond;
  let hint := or_empty (Hint m) in
  check w ← writeBson w hint;
  nil_error w.

End DeleteMsg.

Module UpdateMsg.

Record t : Type := {
  Header : MsgHeader.t;
  Version : Z;
  W : Z;
  padding : Z;
  Flags : Z;
  NameLength : Z;
  Name : list Z;
  Condition : option Bson;
  Rule : option Bson;
  Hint : option Bson
}.

Definition FixedSize (m : t) : Z := to_int32 (MsgHeader.Size (Header m) + 16).

Definition Encode (m : t) (w : Writer) (order : ByteOrder) : writing :=
  check w ← MsgHeader.Encode (Header m) w order;
  let buf := make 16 in
  buf ← PutUint32 order buf 0 (to_uint32 (Version m));
  buf ← PutUint16 order buf 4 (to_uint16 (W m));
  buf ← PutUint16 order buf 6 (padding m);
  buf ← PutUint32 order buf 8 (to_uint32 (Flags m));
  buf ← PutUint32 order buf 12 (to_uint32 (NameLength m));
  check w ← Returned (Write w buf);
  check w ← Returned (Write w (Name m));
  let paddingLen := to_int32 (alignedSize (to_int32 (NameLength m + 1)) 4 - NameLength m) in
  check w ← (if bool_decide (paddingLen > 0)
             then Returned (Write w (make paddingLen)) else nil_error w);
  let cond := or_empty (Condition m) in
  check w ← writeBson w cond;
  let rule := or_empty (Rule m) in
  check w ← writeBson w rule;
  let hint := or_empty (Hint m) in
  check w ← writeBson w hint;
  nil_error w.

End UpdateMsg.

End sdb.

(** ** The vocabulary of the properties *)
Module vocabulary.
Import bson.

(** The builder [b] after an element of tag [t], name [name] and payload
    [payload] has been appended to its buffer. *)
Definition element (t : Z) (name : string) (payload : list Z) (b : Bson) : Bson :=
  with_raw (raw b ++ t :: bytes_of_string name ++ 0 :: payload) b.

(** The type tag of the element that was appended on the way from [b] to
    [b']: the first byte behind the old end of the buffer. *)
Definition appended_tag (b b' : Bson) : option Z :=
  raw b' !! length (raw b).

Definition fits_int32 (v : Z) : Prop := MinInt32 <= v <= MaxInt32.

(** The payloads of an Int32 and of an Int64 element. *)
Definition int32_payload (v : Z) : list Z := littleEndian_AppendInt32 [] v.
Definition int64_payload (v : Z) : list Z := littleEndian_AppendInt64 [] v.

(** The builder after the element that the narrowing rule of section 4.5
    prescribes for the integer [v]: Int32 if it fits, Int64 otherwise. *)
Definition narrowed (name : string) (v : Z) (b : Bson) : Bson :=
  if bool_decide (fits_int32 v)
  then element BsonTypeInt32 name (int32_payload v) b
  else element BsonTypeInt64 name (int64_payload v) b.

(** The integers of section 4.5 that [Append] narrows: the signed 64-bit
    and platform-sized ones, and the unsigned 64-bit and platform-sized ones. *)
Inductive wide_signed : value -> Z -> Prop :=
| wide_int64 v : in_int 64 v -> wide_signed (V_int64 v) v
| wide_int bits v : bits = 32 \/ bits = 64 -> in_int bits v -> wide_signed (V_int v) v.

Inductive wide_unsigned : value -> Z -> Prop :=
| wide_uint64 v : in_uint 64 v -> wide_unsigned (V_uint64 v) v
| wide_uint bits v : bits = 32 \/ bits = 64 -> in_uint bits v -> wide_unsigned (V_uint v) v
| wide_uintptr bits v : bits = 32 \/ bits = 64 -> in_uint bits v -> wide_unsigned (V_uintptr v) v.

(** A builder holds the four bytes reserved for its length prefix: what
    [NewBson], [AppendBsonStart] and [AppendArrayStart] establish and every
    append keeps. *)
Definition reserved (b : Bson) : Prop :=
  0 <= offset b /\ offset b + 4 <= len (raw b).

(** The append operations of a builder, each with its arguments. *)
Inductive operation : Type :=
| op_AppendFloat64 (name : string) (v : float64)
| op_AppendString (name : string) (v : string)
| op_AppendBson (name : string) (v : pointer Bson)
| op_AppendBsonStart (name : string)
| op_AppendArray (name : string) (v : pointer BsonArray)
| op_AppendArrayStart (name : string)
| op_AppendBinary (name : string) (v : Binary)
| op_AppendObjectId (name : string) (v : ObjectId)
| op_AppendBool (name : string) (v : bool)
| op_AppendDate (name : string) (v : Z)
| op_AppendNull (name : string)
| op_AppendRegex (name : string) (v : RegEx)
| op_AppendInt32 (name : string) (v : Z)
| op_AppendTimestamp (name : string) (v : Timestamp)
| op_AppendInt64 (name : string) (v : Z)
| op_AppendMinKey (name : string)
| op_AppendMaxKey (name : string)
| op_Append (name : string) (v : value).

Definition run (op : operation) (b : Bson) : outcome Bson :=
  match op with
  | op_AppendFloat64 name v => AppendFloat64 name v b
  | op_AppendString name v => AppendString name v b
  | op_AppendBson name v => AppendBson name v b
  | op_AppendBsonStart name => AppendBsonStart name b
  | op_AppendArray name v => AppendArray name v b
  | op_AppendArrayStart name => AppendArrayStart name b
  | op_AppendBinary name v => AppendBinary name v b
  | op_AppendObjectId name v => AppendObjectId name v b
  | op_AppendBool name v => AppendBool name v b
  | op_AppendDate name v => AppendDate name v b
  | op_AppendNull name => AppendNull name b
  | op_AppendRegex name v => AppendRegex name v b
  | op_AppendInt32 name v => AppendInt32 name v b
  | op_AppendTimestamp name v => AppendTimestamp name v b
  | op_AppendInt64 name v => AppendInt64 name v b
  | op_AppendMinKey name => AppendMinKey name b
  | op_AppendMaxKey name => AppendMaxKey name b
  | op_Append name v => Append name v b
  end.

(** The values that the generic append takes: an unsigned integer that an
    int64 holds, a valid object identifier, a binary whose data is not nil,
    one of the two sentinels, a pointer that is nil or points to such a
    value, a map, [Map], [Doc], struct, array or slice that holds such
    values only, and every other value of a supported kind. *)
Fixpoint appendable (v : value) : bool :=
  match v with
  | V_uint64 v | V_uint v | V_uintptr v => bool_decide (0 <= to_int64 v)
  | V_ObjectId id => ObjectId_IsValid id
  | V_Binary v => bool_decide (is_Some (Data v))
  | V_orderKey (otherKey _) => false
  | V_ptr (Some elem) => appendable elem
  | V_Map entries | V_Doc entries | V_map entries | V_struct entries =>
      forallb (fun entry => appendable (snd entry)) entries
  | V_array elems => forallb appendable elems
  | V_other _ _ => false
  | _ => true
  end.



(** A builder with an open child that has been finished: the state before
    [AppendBsonEnd] in [{"n": {}}]. *)
Definition child_finished : Bson :=
  match b ← AppendBsonStart "n" NewBson; on_child Finish b with
  | Returned b => b
  | Panicked _ => NewBson
  end.

(** [b'] is [b] with bytes added at the end of its buffer. *)
Definition extends (b b' : Bson) : Prop :=
  offset b' = offset b /\ raw b `prefix_of` raw b'.

(** What a caller can do with a builder: one of the appends, [Finish], the
    end of a child, and any of these through the pointer to the open child.
    A caller that keeps to the stack discipline of section 5 of the spec
    does nothing else: it does not write through the pointer to a child
    that has been closed. *)
Inductive action : Type :=
| act_run (op : operation)
| act_Finish
| act_AppendBsonEnd
| act_AppendArrayEnd
| act_child (a : action).

(** The call that an action stands for. *)
Fixpoint perform (a : action) (b : Bson) : outcome Bson :=
  match a with
  | act_run op => run op b
  | act_Finish => Finish b
  | act_AppendBsonEnd => AppendBsonEnd b
  | act_AppendArrayEnd => AppendArrayEnd b
  | act_child a => on_child (perform a) b
  end.

(** The builders that a caller can obtain from [NewBson()]: [NewBson()]
    itself, what an action makes of a builder, and the child that a builder
    has open. The zero value of [Bson], on which the four bytes of the
    prefix are not reserved, and the finished builders of [NewBsonWithRaw],
    whose bytes are the caller's, are not among them. *)
Inductive built : Bson -> Prop :=
| built_NewBson : built NewBson
| built_perform a b b' : built b -> perform a b = Returned b' -> built b'
| built_child b c : built b -> child b = Some c -> built c.

(** The invariant of the builders: a builder holds its reserved prefix, a
    child is there exactly when [inChild] is set, and the child starts
    behind the bytes of its parent and is coherent itself. *)
Fixpoint coherent (b : Bson) : Prop :=
  match b with
  | Build_Bson r off ch inCh fin =>
      (0 <= off /\ off + 4 <= len r) /\
      match ch with
      | Some c => inCh = true /\ len r <= offset c /\ coherent c
      | None => inCh = false
      end
  end.

(** A step that only adds bytes to the buffer. *)
Definition plain (b b' : Bson) : Prop :=
  extends b b' /\ child b' = child b /\ inChild b' = inChild b.

(** The child that [AppendBsonStart] and [AppendArrayStart] open. *)
Definition opens (b b' : Bson) : Prop :=
  extends b b' /\ inChild b' = true /\ finished b' = finished b /\
  exists c, child b' = Some c /\ offset c = len (raw b') /\ raw b' `prefix_of` raw c /\
    reserved c /\ child c = None /\ inChild c = false.

(** The document [{"hello": "world"}], built and finished. *)
Definition hello_world : outcome (list Z) :=
  b ← AppendString "hello" "world" NewBson;
  b ← Finish b;
  Raw b.

(** The bytes that scenario 2 of section 8 lists for it. *)
Definition scenario_bytes : list Z :=
  [0x1B; 0x00; 0x00; 0x00; 0x02; 0x68; 0x65; 0x6C; 0x6C; 0x6F; 0x00;
   0x06; 0x00; 0x00; 0x00; 0x77; 0x6F; 0x72; 0x6C; 0x64; 0x00; 0x00].

(** The error that [ReplyMsg.Decode] makes of a header whose length is
    too small. *)
Definition invalid_msg_length (expect actual : Z) : error :=
  errorString ("invalid msg length: expect " +:+ format_d expect +:+
               ", actual " +:+ format_d actual).

Definition invalid_sysinfo_reply_size : error :=
  errorString "invalid sysinfo reply size".

(** The reply [m] after its header [h] and the 20 bytes [body] of the fixed
    part have been decoded. *)
Definition reply_of_body (order : binary.ByteOrder) (m : sdb.ReplyMsg.t)
    (h : sdb.MsgHeader.t) (body : list Z) : sdb.ReplyMsg.t :=
  {| sdb.ReplyMsg.Header := h;
     sdb.ReplyMsg.ContextId := to_int64 (binary.decode order (take 8 body));
     sdb.ReplyMsg.Flags := to_int32 (binary.decode order (take 4 (drop 8 body)));
     sdb.ReplyMsg.StartFrom := to_int32 (binary.decode order (take 4 (drop 12 body)));
     sdb.ReplyMsg.ReturnNum := to_int32 (binary.decode order (take 4 (drop 16 body)));
     sdb.ReplyMsg.Error := sdb.ReplyMsg.Error m |}.

(** A finished document whose stored length is the number of its bytes
    (the invariant of section 3.1), small enough for its padded size to be
    an int32. *)
Definition well_formed (b : Bson) : Prop :=
  exists r, Raw b = Returned r /\ Length b = Returned (len r) /\ len r + 3 <= MaxInt32.

(** [doc_layout off docs bytes]: from the offset [off] of a frame on,
    [bytes] holds the documents [docs] in order, each one starting at a
    multiple of 4 and followed by zero bytes only. *)
Inductive doc_layout : Z -> list (list Z) -> list Z -> Prop :=
| layout_end off : doc_layout off [] []
| layout_doc off d (pad : nat) docs rest :
    off mod 4 = 0 ->
    doc_layout (off + len d + Z.of_nat pad) docs rest ->
    doc_layout off (d :: docs) (d ++ replicate pad 0 ++ rest).

(** [aligned_frame fixed_size name raws frame]: the frame is a fixed part of
    [fixed_size] bytes (header and prelude), the name, at least one zero
    byte up to the next multiple of 4 past the name and its NUL, and the
    documents whose encodings are [raws], laid out as [doc_layout] says. *)
Definition aligned_frame (fixed_size : Z) (name : list Z) (raws : list (list Z))
    (frame : list Z) : Prop :=
  exists fixed (pad : nat) body,
    frame = fixed ++ name ++ replicate pad 0 ++ body /\
    len fixed = fixed_size /\
    Z.of_nat pad = sdb.alignedSize (len name + 1) 4 - len name /\
    (1 <= pad)%nat /\
    doc_layout (fixed_size + len name + Z.of_nat pad) raws body.

(** The documents that a frame embeds, of those it may omit. *)
Definition present (docs : list (option Bson)) : list Bson := omap id docs.

(** The encoding of the empty document. *)
Definition empty_document : list Z := [0x05; 0x00; 0x00; 0x00; 0x00].

(** The bytes [r] that a delete or an update embeds for the document [p] of
    the message: those of the document itself, and for nil those of the
    empty document. *)
Definition document_of (p : option Bson) (r : list Z) : Prop :=
  match p with
  | Some b => Raw b = Returned r
  | None => r = empty_document
  end.

(** A document of a message that is nil or well formed. *)
Definition optional_well_formed (p : option Bson) : Prop :=
  match p with
  | Some b => well_formed b
  | None => True
  end.

(** The bytes that documents with the encodings [raws] take in a frame:
    each encoding, followed by the zero bytes that bring it to a multiple of
    4. *)
Definition padded (raws : list (list Z)) : list Z :=
  concat ((fun r => r ++ replicate (Z.to_nat (sdb.alignedSize (len r) 4 - len r)) 0) <$> raws).

(** The documents of a frame, written one after the other. *)
Fixpoint write_all (docs : list Bson) (w : io.Writer) : sdb.writing :=
  match docs with
  | [] => sdb.nil_error w
  | d :: docs => sdb.and_then (sdb.writeBson w d) (write_all docs)
  end.

(** The number of zero bytes that the frames write behind a name, for the
    value that the field [NameLength] has. *)
Definition name_padding_of (nameLength : Z) : nat :=
  Z.to_nat (to_int32 (sdb.alignedSize (to_int32 (nameLength + 1)) 4 - nameLength)).

(** Example frames: a stream that takes every write, the finished document
    [{"hello": "world"}], a query for it in the collection "foo.bar", and a
    delete in the same collection with neither condition nor hint. *)
Definition buffer : io.Writer := {| io.written := []; io.room := None |}.

Definition hello_world_document : Bson :=
  match b ← AppendString "hello" "world" NewBson; Finish b with
  | Returned b => b
  | Panicked _ => NewBson
  end.

Definition example_query : sdb.QueryMsg.t :=
  {| sdb.QueryMsg.Header :=
       {| sdb.MsgHeader.Length := 92; sdb.MsgHeader.OpCode := sdb.QueryReqMsg;
          sdb.MsgHeader.Tid := 1; sdb.MsgHeader.RouteId := 0;
          sdb.MsgHeader.RequestId := 7 |};
     sdb.QueryMsg.Version := 1; sdb.QueryMsg.W := 0; sdb.QueryMsg.padding := 0;
     sdb.QueryMsg.Flags := 0; sdb.QueryMsg.NameLength := 7;
     sdb.QueryMsg.SkipNum := 0; sdb.QueryMsg.ReturnNum := -1;
     sdb.QueryMsg.Name := bytes_of_string "foo.bar";
     sdb.QueryMsg.Where := Some hello_world_document;
     sdb.QueryMsg.Select := None; sdb.QueryMsg.OrderBy := None;
     sdb.QueryMsg.Hint := None |}.

Definition encoded_query : io.Writer :=
  match sdb.QueryMsg.Encode example_query buffer binary.BigEndian with
  | Returned (w, _) => w
  | Panicked _ => buffer
  end.

Definition example_delete : sdb.DeleteMsg.t :=
  {| sdb.DeleteMsg.Header :=
       {| sdb.MsgHeader.Length := 68; sdb.MsgHeader.OpCode := sdb.DeleteReqMsg;
          sdb.MsgHeader.Tid := 1; sdb.MsgHeader.RouteId := 0;
          sdb.MsgHeader.RequestId := 8 |};
     sdb.DeleteMsg.Version := 1; sdb.DeleteMsg.W := 0; sdb.DeleteMsg.padding := 0;
     sdb.DeleteMsg.Flags := 0; sdb.DeleteMsg.NameLength := 7;
     sdb.DeleteMsg.Name := bytes_of_string "foo.bar";
     sdb.DeleteMsg.Condition := None; sdb.DeleteMsg.Hint := None |}.

Definition encoded_delete : io.Writer :=
  match sdb.DeleteMsg.Encode example_delete buffer binary.LittleEndian with
  | Returned (w, _) => w
  | Panicked _ => buffer
  end.

(** More example frames in the collection "foo.bar": an insert of the
    document, a delete with the document as its condition and no hint, and
    an update with the document as its rule and neither condition nor hint. *)
Definition example_insert : sdb.InsertMsg.t :=
  {| sdb.InsertMsg.Header :=
       {| sdb.MsgHeader.Length := 76; sdb.MsgHeader.OpCode := sdb.InsertReqMsg;
          sdb.MsgHeader.Tid := 1; sdb.MsgHeader.RouteId := 0;
          sdb.MsgHeader.RequestId := 9 |};
     sdb.InsertMsg.Version := 1; sdb.InsertMsg.W := 0; sdb.InsertMsg.padding := 0;
     sdb.InsertMsg.Flags := 0; sdb.InsertMsg.NameLength := 7;
     sdb.InsertMsg.Name := bytes_of_string "foo.bar";
     sdb.InsertMsg.Doc := Some hello_world_document |}.

Definition encoded_insert : io.Writer :=
  match sdb.InsertMsg.Encode example_insert buffer binary.LittleEndian with
  | Returned (w, _) => w
  | Panicked _ => buffer
  end.

Definition conditional_delete : sdb.DeleteMsg.t :=
  {| sdb.DeleteMsg.Header :=
       {| sdb.MsgHeader.Length := 84; sdb.MsgHeader.OpCode := sdb.DeleteReqMsg;
          sdb.MsgHeader.Tid := 1; sdb.MsgHeader.RouteId := 0;
          sdb.MsgHeader.RequestId := 10 |};
     sdb.DeleteMsg.Version := 1; sdb.DeleteMsg.W := 0; sdb.DeleteMsg.padding := 0;
     sdb.DeleteMsg.Flags := 0; sdb.DeleteMsg.NameLength := 7;
     sdb.DeleteMsg.Name := bytes_of_string "foo.bar";
     sdb.DeleteMsg.Condition := Some hello_world_document; sdb.DeleteMsg.Hint := None |}.

Definition encoded_conditional_delete : io.Writer :=
  match sdb.DeleteMsg.Encode conditional_delete buffer binary.LittleEndian with
  | Returned (w, _) => w
  | Panicked _ => buffer
  end.

Definition example_update : sdb.UpdateMsg.t :=
  {| sdb.UpdateMsg.Header :=
       {| sdb.MsgHeader.Length := 92; sdb.MsgHeader.OpCode := sdb.UpdateReqMsg;
          sdb.MsgHeader.Tid := 1; sdb.MsgHeader.RouteId := 0;
          sdb.MsgHeader.RequestId := 11 |};
     sdb.UpdateMsg.Version := 1; sdb.UpdateMsg.W := 0; sdb.UpdateMsg.padding := 0;
     sdb.UpdateMsg.Flags := 0; sdb.UpdateMsg.NameLength := 7;
     sdb.UpdateMsg.Name := bytes_of_string "foo.bar";
     sdb.UpdateMsg.Condition := None;
     sdb.UpdateMsg.Rule := Some hello_world_document;
     sdb.UpdateMsg.Hint := None |}.

Definition encoded_update : io.Writer :=
  match sdb.UpdateMsg.Encode example_update buffer binary.BigEndian with
  | Returned (w, _) => w
  | Panicked _ => buffer
  end.

(** An insert whose field [NameLength] is not the length of its name: it
    says 7 for the four bytes of "cs.c". *)
Definition misnamed_insert : sdb.InsertMsg.t :=
  {| sdb.InsertMsg.Header :=
       {| sdb.MsgHeader.Length := 76; sdb.MsgHeader.OpCode := sdb.InsertReqMsg;
          sdb.MsgHeader.Tid := 1; sdb.MsgHeader.RouteId := 0;
          sdb.MsgHeader.RequestId := 12 |};
     sdb.InsertMsg.Version := 1; sdb.InsertMsg.W := 0; sdb.InsertMsg.padding := 0;
     sdb.InsertMsg.Flags := 0; sdb.InsertMsg.NameLength := 7;
     sdb.InsertMsg.Name := bytes_of_string "cs.c";
     sdb.InsertMsg.Doc := Some hello_world_document |}.

(** The 22 bytes of the document [{"hello": "world"}]. *)
Definition hello_world_encoding : list Z :=
  [0x16; 0x00; 0x00; 0x00; 0x02; 0x68; 0x65; 0x6C; 0x6C; 0x6F; 0x00;
   0x06; 0x00; 0x00; 0x00; 0x77; 0x6F; 0x72; 0x6C; 0x64; 0x00; 0x00].

Definition encoded_misnamed_insert : io.Writer :=
  match sdb.InsertMsg.Encode misnamed_insert buffer binary.LittleEndian with
  | Returned (w, _) => w
  | Panicked _ => buffer
  end.

(** Example streams: the header of a query reply of the given length in
    little-endian order, a reply that is too short, and a reply whose flags
    are set and that carries the empty document. *)
Definition reply_header_bytes (length : Z) : list Z :=
  [length; 0; 0; 0; 0xD4; 0x07; 0; 0x80; 1; 0; 0; 0] ++ replicate 16 0.

Definition reply_header (length : Z) : sdb.MsgHeader.t :=
  {| sdb.MsgHeader.Length := length; sdb.MsgHeader.OpCode := sdb.QueryRspMsg;
     sdb.MsgHeader.Tid := 1; sdb.MsgHeader.RouteId := 0; sdb.MsgHeader.RequestId := 0 |}.

Definition empty_reply : sdb.ReplyMsg.t :=
  {| sdb.ReplyMsg.Header := reply_header 0; sdb.ReplyMsg.ContextId := 0;
     sdb.ReplyMsg.Flags := 0; sdb.ReplyMsg.StartFrom := 0;
     sdb.ReplyMsg.ReturnNum := 0; sdb.ReplyMsg.Error := EmptyString |}.

Definition short_reply : io.Reader :=
  {| io.unread := reply_header_bytes 47 ++ [9; 9] |}.

Definition failed_reply_body : list Z :=
  replicate 8 0 ++ [1; 0; 0; 0] ++ replicate 8 0 ++ [5; 0; 0; 0; 0] ++ [9; 9].

Definition failed_reply : io.Reader :=
  {| io.unread := reply_header_bytes 53 ++ failed_reply_body |}.

(** Example replies to the system-info probe, in little-endian order: one
    whose header announces 12 bytes, and a full one of 128 bytes whose
    operating-system type is 3. *)
Definition sysinfo_header (length : Z) : sdb.SysInfoMsgHeader.t :=
  {| sdb.SysInfoMsgHeader.Special := sdb.sysInfoSpecial;
     sdb.SysInfoMsgHeader.EyeCatcher := sdb.sysInfoEyeCatcher;
     sdb.SysInfoMsgHeader.Length := length |}.

Definition sysinfo_header_bytes (length : Z) : list Z :=
  [255; 255; 255; 255; 252; 253; 254; 255; length; 0; 0; 0].

Definition unread_reply : sdb.SysInfoReply.t :=
  {| sdb.SysInfoReply.Header :=
       {| sdb.SysInfoMsgHeader.Special := 0; sdb.SysInfoMsgHeader.EyeCatcher := 0;
          sdb.SysInfoMsgHeader.Length := 0 |};
     sdb.SysInfoReply.OSType := 5 |}.

Definition short_sysinfo_reply : io.Reader :=
  {| io.unread := sysinfo_header_bytes 12 ++ [1; 2; 3] |}.

Definition sysinfo_body : list Z := [3; 0; 0; 0] ++ replicate 112 0 ++ [9].

Definition full_sysinfo_reply : io.Reader :=
  {| io.unread := sysinfo_header_bytes 128 ++ sysinfo_body |}.

(** The child that is open starts with the bytes of its parent, its
    document begins right behind them, and its parent is not finished; and
    so on down the nesting. *)
Fixpoint nested (b : Bson) : Prop :=
  match b with
  | Build_Bson r off ch inCh fin =>
      match ch with
      | Some c => r `prefix_of` raw c /\ offset c = len r /\ fin = false /\ nested c
      | None => True
      end
  end.

(** A step that leaves the bytes before the document as they are, and only
    adds to the bytes behind its four-byte prefix. *)
Definition stable (b b' : Bson) : Prop :=
  take (Z.to_nat (offset b)) (raw b') = take (Z.to_nat (offset b)) (raw b) /\
  drop (Z.to_nat (offset b) + 4) (raw b) `prefix_of` drop (Z.to_nat (offset b) + 4) (raw b').



(** What a call that returns has made of the open builder [b]: the bytes
    [bytes] stand behind those that [b] held, and no child is open. The
    field [child] is as it was, or nil when the call opened a child and
    closed it. *)
Definition appended (bytes : list Z) (b b' : Bson) : Prop :=
  raw b' = raw b ++ bytes /\ offset b' = offset b /\ finished b' = false /\
  inChild b' = false /\ (child b' = child b \/ child b' = None).

(** The call [f] adds the bytes [bytes] to every open builder, whatever
    the builder holds. *)
Definition adds (f : Bson -> outcome Bson) (bytes : list Z) : Prop :=
  forall b, finished b = false -> inChild b = false ->
  exists b', f b = Returned b' /\ appended bytes b b'.

(** One generic append per entry, and one per element of an array, the
    elements being named by their index from [i] on. *)
Fixpoint fill (entries : list (string * value)) (child : Bson) {struct entries} : outcome Bson :=
  match entries with
  | [] => Returned child
  | (k, v) :: entries => child ← Append k v child; fill entries child
  end.

Fixpoint fill_array (i : Z) (elems : list value) (child : Bson) {struct elems} : outcome Bson :=
  match elems with
  | [] => Returned child
  | v :: elems => child ← Append (format_d i) v child; fill_array (i + 1) elems child
  end.

(** The loop of [Append] over the elements of an array or slice. *)
Fixpoint each_element (elems : list value) (child : BsonArray) {struct elems}
    : outcome BsonArray :=
  match elems with
  | [] => Returned child
  | elem :: elems => child ← BsonArray_Append Append elem child; each_element elems child
  end.

(** What [Append] does with a value: it adds bytes that depend on the name
    and the value only, or it panics. *)
Definition adds_or_panics (v : value) : Prop :=
  forall name,
  (appendable v = true /\ exists bytes, adds (Append name v) bytes) \/
  (appendable v = false /\ forall b, panics (Append name v b) = true).

(** The values that a value holds: the one a pointer points to, those of
    the entries of a map, [Map], [Doc] or struct, the elements of an array or
    slice. *)
Definition held (v : value) : list value :=
  match v with
  | V_ptr (Some elem) => [elem]
  | V_Map entries | V_Doc entries | V_map entries | V_struct entries => snd <$> entries
  | V_array elems => elems
  | _ => []
  end.

(** The integers of the switch of [Append] that are no wider than 32 bits,
    each with a value of its Go type. *)
Inductive narrow_integer : value -> Z -> Prop :=
| narrow_int8 v : in_int 8 v -> narrow_integer (V_int8 v) v
| narrow_int16 v : in_int 16 v -> narrow_integer (V_int16 v) v
| narrow_int32 v : in_int 32 v -> narrow_integer (V_int32 v) v
| narrow_uint8 v : in_uint 8 v -> narrow_integer (V_uint8 v) v
| narrow_uint16 v : in_uint 16 v -> narrow_integer (V_uint16 v) v
| narrow_uint32 v : in_uint 32 v -> narrow_integer (V_uint32 v) v.

(** An open builder that holds one element, and the builder that
    [AppendString "hello" "world"] makes of [NewBson()]. *)
Definition null_builder : Bson := element BsonTypeNull "a" [] NewBson.

Definition hello_world_builder : Bson :=
  element BsonTypeString "hello" (int32_payload 6 ++ bytes_of_string "world" ++ [0]) NewBson.


(** The fields of a header in wire order, each in the byte order of the
    connection. *)
Definition MsgHeader_bytes (order : binary.ByteOrder) (m : sdb.MsgHeader.t) : list Z :=
  binary.encode order 4 (to_uint32 (sdb.MsgHeader.Length m)) ++
  binary.encode order 4 (to_uint32 (sdb.MsgHeader.OpCode m)) ++
  binary.encode order 4 (sdb.MsgHeader.Tid m) ++
  binary.encode order 8 (sdb.MsgHeader.RouteId m) ++
  binary.encode order 8 (sdb.MsgHeader.RequestId m).

Definition SysInfoMsgHeader_bytes (order : binary.ByteOrder) (m : sdb.SysInfoMsgHeader.t) :
    list Z :=
  binary.encode order 4 (sdb.SysInfoMsgHeader.Special m) ++
  binary.encode order 4 (sdb.SysInfoMsgHeader.EyeCatcher m) ++
  binary.encode order 4 (to_uint32 (sdb.SysInfoMsgHeader.Length m)).

Definition SysInfoReply_bytes (order : binary.ByteOrder) (m : sdb.SysInfoReply.t) : list Z :=
  SysInfoMsgHeader_bytes order (sdb.SysInfoReply.Header m) ++
  binary.encode order 4 (to_uint32 (sdb.SysInfoReply.OSType m)) ++ replicate 112 0.

(** The fields of a header hold values of their Go types. *)
Definition MsgHeader_in_range (m : sdb.MsgHeader.t) : Prop :=
  in_int 32 (sdb.MsgHeader.Length m) /\ in_uint 32 (sdb.MsgHeader.OpCode m) /\
  in_uint 32 (sdb.MsgHeader.Tid m) /\ in_uint 64 (sdb.MsgHeader.RouteId m) /\
  in_uint 64 (sdb.MsgHeader.RequestId m).

Definition SysInfoMsgHeader_in_range (m : sdb.SysInfoMsgHeader.t) : Prop :=
  in_uint 32 (sdb.SysInfoMsgHeader.Special m) /\
  in_uint 32 (sdb.SysInfoMsgHeader.EyeCatcher m) /\
  in_int 32 (sdb.SysInfoMsgHeader.Length m).

(** The byte order that a peer of the other kind uses. *)
Definition opposite (order : binary.ByteOrder) : binary.ByteOrder :=
  match order with
  | binary.LittleEndian => binary.BigEndian
  | binary.BigEndian => binary.LittleEndian
  end.

(** The bytes that documents of the given encodings take in a frame, each
    padded to a multiple of 4. *)
Definition padded_size (raws : list (list Z)) : Z :=
  foldr (fun r n => sdb.alignedSize (len r) 4 + n) 0 raws.

(** Example messages: the full reply to the system-info probe whose
    operating-system type is 3, and an insert into "foo.bar" of a document
    that has not been finished. *)
Definition example_sysinfo_reply : sdb.SysInfoReply.t :=
  {| sdb.SysInfoReply.Header := sysinfo_header 128; sdb.SysInfoReply.OSType := 3 |}.

Definition unfinished_insert : sdb.InsertMsg.t :=
  {| sdb.InsertMsg.Header :=
       {| sdb.MsgHeader.Length := 60; sdb.MsgHeader.OpCode := sdb.InsertReqMsg;
          sdb.MsgHeader.Tid := 1; sdb.MsgHeader.RouteId := 0;
          sdb.MsgHeader.RequestId := 9 |};
     sdb.InsertMsg.Version := 1; sdb.InsertMsg.W := 0; sdb.InsertMsg.padding := 0;
     sdb.InsertMsg.Flags := 0; sdb.InsertMsg.NameLength := 7;
     sdb.InsertMsg.Name := bytes_of_string "foo.bar";
     sdb.InsertMsg.Doc := Some NewBson |}.

(** The five fields that follow the header in every frame, in wire order. *)
Definition prelude_bytes (order : binary.ByteOrder)
    (version w padding flags nameLength : Z) : list Z :=
  binary.encode order 4 (to_uint32 version) ++ binary.encode order 2 (to_uint16 w) ++
  binary.encode order 2 padding ++ binary.encode order 4 (to_uint32 flags) ++
  binary.encode order 4 (to_uint32 nameLength).

(** The fixed parts of the four frames: the header and the fields that
    follow it, in wire order. *)
Definition QueryMsg_fixed_bytes (order : binary.ByteOrder) (m : sdb.QueryMsg.t) : list Z :=
  MsgHeader_bytes order (sdb.QueryMsg.Header m) ++
  prelude_bytes order (sdb.QueryMsg.Version m) (sdb.QueryMsg.W m) (sdb.QueryMsg.padding m)
    (sdb.QueryMsg.Flags m) (sdb.QueryMsg.NameLength m) ++
  binary.encode order 8 (to_uint64 (sdb.QueryMsg.SkipNum m)) ++
  binary.encode order 8 (to_uint64 (sdb.QueryMsg.ReturnNum m)).

Definition InsertMsg_fixed_bytes (order : binary.ByteOrder) (m : sdb.InsertMsg.t) : list Z :=
  MsgHeader_bytes order (sdb.InsertMsg.Header m) ++
  prelude_bytes order (sdb.InsertMsg.Version m) (sdb.InsertMsg.W m) (sdb.InsertMsg.padding m)
    (sdb.InsertMsg.Flags m) (sdb.InsertMsg.NameLength m).

Definition DeleteMsg_fixed_bytes (order : binary.ByteOrder) (m : sdb.DeleteMsg.t) : list Z :=
  MsgHeader_bytes order (sdb.DeleteMsg.Header m) ++
  prelude_bytes order (sdb.DeleteMsg.Version m) (sdb.DeleteMsg.W m) (sdb.DeleteMsg.padding m)
    (sdb.DeleteMsg.Flags m) (sdb.DeleteMsg.NameLength m).

Definition UpdateMsg_fixed_bytes (order : binary.ByteOrder) (m : sdb.UpdateMsg.t) : list Z :=
  MsgHeader_bytes order (sdb.UpdateMsg.Header m) ++
  prelude_bytes order (sdb.UpdateMsg.Version m) (sdb.UpdateMsg.W m) (sdb.UpdateMsg.padding m)
    (sdb.UpdateMsg.Flags m) (sdb.UpdateMsg.NameLength m).

(** The error of [io.ReadFull] on a stream that ends too early, of which
    [data] was still unread. *)
Definition short_read (data : list Z) : error :=
  if bool_decide (len data = 0) then EOF else ErrUnexpectedEOF.

(** Example streams: two stray bytes, and the header of a reply of 48
    bytes followed by two bytes only. *)
Definition stray_bytes : io.Reader := {| io.unread := [9; 9] |}.

Definition truncated_reply : io.Reader :=
  {| io.unread := reply_header_bytes 48 ++ [9; 9] |}.

End vocabulary.

(** * Properties *)

Import bson vocabulary.

(** ** Arithmetic of the conversions *)

Lemma to_int64_in_range v : in_int 64 v -> to_int64 v = v.
Proof.
  unfold in_int, to_int64. intros H.
  rewrite Z.mod_small; lia.
Qed.

Lemma in_int_32_64 v : in_int 32 v -> in_int 64 v.
Proof. unfold in_int. lia. Qed.

Lemma in_uint_32_64 v : in_uint 32 v -> in_uint 64 v.
Proof. unfold in_uint. lia. Qed.

Lemma to_int64_unsigned v :
  in_uint 64 v -> to_int64 v = if bool_decide (v <= MaxInt64) then v else v - 2 ^ 64.
Proof.
  unfold in_uint, to_int64, MaxInt64. intros H.
  case_bool_decide.
  - rewrite Z.mod_small; lia.
  - replace (v + 2 ^ 63) with ((v - 2 ^ 63) + 1 * 2 ^ 64) by lia.
    rewrite Z.mod_add by lia. rewrite Z.mod_small; lia.
Qed.

Lemma wide_signed_in_range val v : wide_signed val v -> in_int 64 v.
Proof.
  intros [v' H | bits v' [-> | ->] H]; auto using in_int_32_64.
Qed.

Lemma wide_unsigned_in_range val v : wide_unsigned val v -> in_uint 64 v.
Proof.
  intros [v' H | bits v' [-> | ->] H | bits v' [-> | ->] H]; auto using in_uint_32_64.
Qed.

(** ** Calls that return *)

Lemma bind_returned {A B} (m : outcome A) (f : A -> outcome B) y :
  m ≫= f = Returned y -> exists x, m = Returned x /\ f x = Returned y.
Proof. destruct m as [x |]; simpl; [eauto | discriminate]. Qed.

(** ** The typed appends on a builder that is open *)

Section OpenBuilder.

Variable b : Bson.
Hypothesis not_finished : finished b = false.
Hypothesis not_inChild : inChild b = false.

Lemma checkBeforeAppend_open : checkBeforeAppend b = Returned tt.
Proof. unfold checkBeforeAppend. by rewrite not_finished, not_inChild. Qed.

Lemma AppendInt32_open name v :
  AppendInt32 name v b = Returned (element BsonTypeInt32 name (int32_payload v) b).
Proof.
  unfold AppendInt32. rewrite checkBeforeAppend_open. simpl.
  f_equal. unfold element, appendInt32, appendCString, appendType, with_raw. simpl.
  f_equal. rewrite <- !app_assoc. reflexivity.
Qed.

Lemma AppendInt64_open name v :
  AppendInt64 name v b = Returned (element BsonTypeInt64 name (int64_payload v) b).
Proof.
  unfold AppendInt64. rewrite checkBeforeAppend_open. simpl.
  f_equal. unfold element, appendInt64, appendCString, appendType, with_raw. simpl.
  f_equal. rewrite <- !app_assoc. reflexivity.
Qed.

End OpenBuilder.

Lemma appended_tag_element t name payload b :
  appended_tag b (element t name payload b) = Some t.
Proof.
  unfold appended_tag, element. simpl.
  rewrite lookup_app_r by lia. by rewrite Nat.sub_diag.
Qed.

(** ** The narrowing law of the generic append *)

Lemma to_int32_fits v : fits_int32 v -> to_int32 v = v.
Proof.
  unfold fits_int32, MinInt32, MaxInt32, to_int32. intros H.
  rewrite Z.mod_small; lia.
Qed.

Lemma narrow_branch name v b :
  finished b = false -> inChild b = false -> in_int 64 v ->
  (if bool_decide (v >= MinInt32) && bool_decide (v <= MaxInt32)
   then AppendInt32 name (to_int32 v) b
   else AppendInt64 name (to_int64 v) b) = Returned (narrowed name v b).
Proof.
  intros Hf Hc Hv. unfold narrowed.
  destruct (decide (fits_int32 v)) as [Hfit | Hfit].
  - rewrite (bool_decide_eq_true_2 (fits_int32 v)) by done.
    unfold fits_int32 in Hfit.
    rewrite !bool_decide_eq_true_2 by lia. simpl.
    rewrite to_int32_fits by done. by apply AppendInt32_open.
  - rewrite (bool_decide_eq_false_2 (fits_int32 v)) by done.
    rewrite to_int64_in_range by done.
    unfold fits_int32 in Hfit.
    destruct (decide (v >= MinInt32)).
    + rewrite (bool_decide_eq_true_2 (v >= MinInt32)) by done.
      rewrite (bool_decide_eq_false_2 (v <= MaxInt32)) by lia. simpl.
      by apply AppendInt64_open.
    + rewrite (bool_decide_eq_false_2 (v >= MinInt32)) by done. simpl.
      by apply AppendInt64_open.
Qed.

Lemma narrowed_tag name v b :
  (appended_tag b (narrowed name v b) = Some BsonTypeInt32 <-> fits_int32 v) /\
  (appended_tag b (narrowed name v b) = Some BsonTypeInt64 <-> ~ fits_int32 v).
Proof.
  unfold narrowed. case_bool_decide; rewrite appended_tag_element; split; split;
    try done; intros; try discriminate; exfalso; auto.
Qed.

Lemma AppendInt32_other_panic name v b : AppendInt32 name v b <> Panicked no_uint64.
Proof.
  unfold AppendInt32, checkBeforeAppend.
  destruct (finished b), (inChild b); simpl; discriminate.
Qed.

Lemma AppendInt64_other_panic name v b : AppendInt64 name v b <> Panicked no_uint64.
Proof.
  unfold AppendInt64, checkBeforeAppend.
  destruct (finished b), (inChild b); simpl; discriminate.
Qed.

(** What the three unsigned cases of [Append] have in common. *)
Lemma unsigned_branch name v b :
  in_uint 64 v ->
  let val := to_int64 v in
  let call :=
    if bool_decide (val < 0) then Panicked no_uint64
    else if bool_decide (val >= MinInt32) && bool_decide (val <= MaxInt32)
         then AppendInt32 name (to_int32 val) b
         else AppendInt64 name (to_int64 val) b in
  (call = Panicked no_uint64 <-> MaxInt64 < v) /\
  (v <= MaxInt64 -> finished b = false -> inChild b = false ->
   call = Returned (narrowed name v b)).
Proof.
  intros Hv val call. subst val call.
  rewrite (to_int64_unsigned v Hv).
  destruct (decide (v <= MaxInt64)) as [Hle | Hle].
  - rewrite (bool_decide_eq_true_2 (v <= MaxInt64)) by done.
    unfold in_uint, MaxInt64 in *.
    rewrite (bool_decide_eq_false_2 (v < 0)) by lia. split.
    + split; [| lia]. intros Hp. exfalso.
      destruct (bool_decide (v >= MinInt32) && bool_decide (v <= MaxInt32)).
      * by apply AppendInt32_other_panic in Hp.
      * by apply AppendInt64_other_panic in Hp.
    + intros _ Hf Hc. apply narrow_branch; try done. unfold in_int. lia.
  - rewrite (bool_decide_eq_false_2 (v <= MaxInt64)) by done.
    unfold in_uint, MaxInt64 in *.
    rewrite (bool_decide_eq_true_2 (v - 2 ^ 64 < 0)) by lia. split.
    + split; [lia | done].
    + lia.
Qed.

(** C1. For a signed 64-bit or platform-sized integer [v] handed to
    [Append] on an open builder, the element written has the tag Int32
    (0x10) iff [v] lies in [MinInt32, MaxInt32] and the tag Int64 (0x12)
    otherwise. For an unsigned 64-bit or platform-sized integer, [Append]
    panics with the "no uint64 type" message iff [v] exceeds [MaxInt64],
    and otherwise follows the same rule. *)
Theorem Append_narrowing_law (name : string) (val : value) (v : Z) (b : Bson) :
  (wide_signed val v -> finished b = false -> inChild b = false ->
   exists b', Append name val b = Returned b' /\
     (appended_tag b b' = Some BsonTypeInt32 <-> fits_int32 v) /\
     (appended_tag b b' = Some BsonTypeInt64 <-> ~ fits_int32 v) /\
     b' = narrowed name v b) /\
  (wide_unsigned val v ->
   (Append name val b = Panicked no_uint64 <-> MaxInt64 < v) /\
   (v <= MaxInt64 -> finished b = false -> inChild b = false ->
    exists b', Append name val b = Returned b' /\
      (appended_tag b b' = Some BsonTypeInt32 <-> fits_int32 v) /\
      (appended_tag b b' = Some BsonTypeInt64 <-> ~ fits_int32 v) /\
      b' = narrowed name v b)).
Proof.
  split.
  - intros Hs Hf Hc. exists (narrowed name v b).
    pose proof (wide_signed_in_range _ _ Hs) as Hv.
    pose proof (narrowed_tag name v b) as [H32 H64].
    split; [| split; [exact H32 | split; [exact H64 | reflexivity]]].
    destruct Hs; simpl.
    + by apply narrow_branch.
    + rewrite (to_int64_in_range v Hv). by apply narrow_branch.
  - intros Hu.
    pose proof (wide_unsigned_in_range _ _ Hu) as Hv.
    pose proof (unsigned_branch name v b Hv) as [Hpanic Hok].
    assert (Happ : Append name val b =
      if bool_decide (to_int64 v < 0) then Panicked no_uint64
      else if bool_decide (to_int64 v >= MinInt32) && bool_decide (to_int64 v <= MaxInt32)
           then AppendInt32 name (to_int32 (to_int64 v)) b
           else AppendInt64 name (to_int64 (to_int64 v)) b)
      by (destruct Hu; reflexivity).
    rewrite Happ. split; [exact Hpanic |].
    intros Hle Hf Hc. exists (narrowed name v b).
    pose proof (narrowed_tag name v b) as [H32 H64].
    split; [| split; [exact H32 | split; [exact H64 | reflexivity]]].
    by apply Hok.
Qed.

Lemma Append_narrowing_law_witness :
  (exists b', Append "a" (V_int 2147483648) NewBson = Returned b' /\
     (appended_tag NewBson b' = Some BsonTypeInt32 <-> fits_int32 2147483648) /\
     (appended_tag NewBson b' = Some BsonTypeInt64 <-> ~ fits_int32 2147483648) /\
     b' = narrowed "a" 2147483648 NewBson) /\
  (Append "a" (V_uint64 (2 ^ 63)) NewBson = Panicked no_uint64 <-> MaxInt64 < 2 ^ 63).
Proof.
  split.
  - apply (proj1 (Append_narrowing_law "a" (V_int 2147483648) 2147483648 NewBson)).
    + apply (wide_int 64); [by right | unfold in_int; lia].
    + reflexivity.
    + reflexivity.
  - apply (proj2 (Append_narrowing_law "a" (V_uint64 (2 ^ 63)) (2 ^ 63) NewBson)).
    apply wide_uint64. unfold in_uint. lia.
Defined.

(** ** The bytes of a small document *)

(** C3, as the specification has it, does not hold: the document
    [{"hello": "world"}] is not the byte sequence of scenario 2, whose
    length prefix is 0x1B. *)
Lemma hello_world_not_scenario_bytes : hello_world <> Returned scenario_bytes.
Proof. vm_compute. discriminate. Qed.

(** C3, amended. Appending the string "world" under the name "hello" and
    finishing yields the 22 bytes of scenario 2 with the length prefix 0x16,
    the number of bytes of the document. *)
Theorem hello_world_bytes :
  hello_world =
  Returned [0x16; 0x00; 0x00; 0x00; 0x02; 0x68; 0x65; 0x6C; 0x6C; 0x6F; 0x00;
            0x06; 0x00; 0x00; 0x00; 0x77; 0x6F; 0x72; 0x6C; 0x64; 0x00; 0x00].
Proof. reflexivity. Qed.

(** ** The byte order of the document encoding *)

Lemma bigEndian_differs :
  ByteOrder_AppendInt32 BigEndian [] 1 <> ByteOrder_AppendInt32 LittleEndian [] 1.
Proof. vm_compute. discriminate. Qed.

Lemma init_big_endian_host :
  init {| order_of := BigEndianHost; sizeof_int := 8 |} = Returned BigEndian.
Proof. reflexivity. Qed.

Lemma init_little_endian_host :
  init {| order_of := LittleEndianHost; sizeof_int := 8 |} = Returned LittleEndian.
Proof. reflexivity. Qed.

Lemma setInt32_little_endian pos v b :
  setInt32 pos v b =
  (r ← ByteOrder_SetInt32 LittleEndian (raw b) pos v; Returned (with_raw r b)).
Proof.
  unfold setInt32. cbn [ByteOrder_SetInt32 LittleEndian]. unfold littleEndian_SetInt32.
  destruct (set_index (raw b) (pos + 0) (to_byte v)) as [r0 |]; [| done].
  cbn [mbind outcome_bind].
  destruct (set_index r0 (pos + 1) (to_byte (v ≫ 8))) as [r1 |]; [| done].
  cbn [mbind outcome_bind].
  destruct (set_index r1 (pos + 2) (to_byte (v ≫ 16))) as [r2 |]; [| done].
  cbn [mbind outcome_bind].
  by destruct (set_index r2 (pos + 3) (to_byte (v ≫ 24))).
Qed.

(** The bytes of an element up to its payload: the tag and the name. *)
Lemma element_payload t name payload b :
  element t name payload b = with_raw ((raw b ++ t :: bytes_of_string name ++ [0]) ++ payload) b.
Proof. unfold element. by rewrite <- app_assoc, <- app_comm_cons, <- app_assoc. Qed.

(** C4. Whatever byte order [init] detected on the host and left in
    [byteOrder], the builder writes int32, int64 and float64 payloads as the
    little-endian codec does: in [appendInt32], [appendInt64] and
    [appendFloat64], in the elements that [AppendInt32], [AppendInt64] and
    [AppendFloat64] add, and in the length prefix that [setInt32] patches. *)
Theorem document_encoding_is_little_endian
    (h : host) (byteOrder : ByteOrder) (b : Bson) (i32 i64 : Z) (f : float64) :
  init h = Returned byteOrder ->
  raw (appendInt32 i32 b) = ByteOrder_AppendInt32 LittleEndian (raw b) i32 /\
  raw (appendInt64 i64 b) = ByteOrder_AppendInt64 LittleEndian (raw b) i64 /\
  raw (appendFloat64 f b) = ByteOrder_AppendFloat64 LittleEndian (raw b) f /\
  (forall pos,
     setInt32 pos i32 b =
     (r ← ByteOrder_SetInt32 LittleEndian (raw b) pos i32; Returned (with_raw r b))) /\
  (forall name, finished b = false -> inChild b = false ->
     let start t := raw b ++ t :: bytes_of_string name ++ [0] in
     AppendInt32 name i32 b =
       Returned (with_raw (ByteOrder_AppendInt32 LittleEndian (start BsonTypeInt32) i32) b) /\
     AppendInt64 name i64 b =
       Returned (with_raw (ByteOrder_AppendInt64 LittleEndian (start BsonTypeInt64) i64) b) /\
     AppendFloat64 name f b =
       Returned (with_raw (ByteOrder_AppendFloat64 LittleEndian (start BsonTypeFloat64) f) b)).
Proof.
  intros _. split; [done |]. split; [done |]. split; [done |].
  split; [intros pos; apply setInt32_little_endian |].
  intros name Hf Hc start. split; [| split].
  - rewrite AppendInt32_open by done. f_equal. apply element_payload.
  - rewrite AppendInt64_open by done. f_equal. apply element_payload.
  - unfold AppendFloat64. rewrite checkBeforeAppend_open by done. simpl. f_equal.
    unfold appendFloat64, appendInt64, appendCString, appendType, with_raw. simpl.
    f_equal. unfold littleEndian_AppendFloat64, littleEndian_AppendInt64, start.
    f_equal. by rewrite <- !app_assoc.
Qed.

Lemma document_encoding_is_little_endian_witness :
  init {| order_of := BigEndianHost; sizeof_int := 8 |} = Returned BigEndian /\
  raw (appendInt32 1 NewBson) = ByteOrder_AppendInt32 LittleEndian (raw NewBson) 1 /\
  raw (appendInt64 1 NewBson) = ByteOrder_AppendInt64 LittleEndian (raw NewBson) 1 /\
  raw (appendFloat64 {| Float64bits := 1 |} NewBson) =
    ByteOrder_AppendFloat64 LittleEndian (raw NewBson) {| Float64bits := 1 |}.
Proof.
  split; [reflexivity |].
  destruct (document_encoding_is_little_endian
              {| order_of := BigEndianHost; sizeof_int := 8 |} BigEndian
              NewBson 1 1 {| Float64bits := 1 |} eq_refl) as (H32 & H64 & Hf & _).
  exact (conj H32 (conj H64 Hf)).
Defined.

(** ** Appends on a builder that is closed *)


Lemma checkBeforeAppend_closed b :
  finished b = true \/ inChild b = true -> panics (checkBeforeAppend b) = true.
Proof.
  unfold checkBeforeAppend.
  intros [-> | ->]; [done |]. by destruct (finished b).
Qed.

(** A typed append starts with [checkBeforeAppend]. *)
Lemma bind_check_panics {A} b (k : unit -> outcome A) :
  finished b = true \/ inChild b = true ->
  panics (checkBeforeAppend b ≫= k) = true.
Proof.
  intros H. apply checkBeforeAppend_closed in H.
  by destruct (checkBeforeAppend b).
Qed.

Lemma bind_panics {A B} (m : outcome A) (k : A -> outcome B) :
  panics m = true -> panics (m ≫= k) = true.
Proof. by destruct m. Qed.

Lemma Append_closed (v : value) name b :
  finished b = true \/ inChild b = true -> panics (Append name v b) = true.
Proof.
  intros H. revert v.
  fix IH 1. intros v.
  destruct v as [| | | | | | | | | | | | | | | | | | | | | k | [elem |] | m | d | elems
                 | entries | fields |];
    cbn [Append].
  23: exact (IH elem).
  all: clear IH.
  all: try (by apply bind_check_panics).
  all: try (by apply bind_panics, bind_check_panics).
  all: try (repeat case_bool_decide; simpl; by (done || apply bind_check_panics)).
  destruct k; simpl; by (done || apply bind_check_panics).
Qed.

Lemma run_closed op b :
  finished b = true \/ inChild b = true -> panics (run op b) = true.
Proof.
  intros H. destruct op; simpl;
    try (by apply bind_check_panics); by apply Append_closed.
Qed.

Lemma index_last s :
  index s (len s - 1) =
  match last s with
  | Some x => Returned x
  | None => Panicked index_out_of_range
  end.
Proof.
  unfold index, len. rewrite last_lookup.
  destruct s as [| x s]; [done |].
  rewrite bool_decide_eq_true_2 by (simpl; lia).
  replace (Z.to_nat (Z.of_nat (length (x :: s)) - 1)) with (Init.Nat.pred (length (x :: s)))
    by (simpl; lia).
  destruct ((x :: s) !! Init.Nat.pred (length (x :: s))) eqn:E; [done |].
  apply lookup_ge_None in E. simpl in E. lia.
Qed.



(** ** Slices *)

Lemma len_app {A} (s t : list A) : len (s ++ t) = len s + len t.
Proof. unfold len. rewrite length_app. lia. Qed.

Lemma len_insert (s : list Z) i x : len (<[i := x]> s) = len s.
Proof. unfold len. by rewrite length_insert. Qed.

Lemma len_nonneg {A} (s : list A) : 0 <= len s.
Proof. unfold len. lia. Qed.

Lemma len_make n : 0 <= n -> len (make n) = n.
Proof. intros H. unfold len, make. rewrite length_replicate. lia. Qed.

Lemma len_drop {A} (s : list A) n : 0 <= n <= len s -> len (drop (Z.to_nat n) s) = len s - n.
Proof. unfold len. intros H. rewrite length_drop. lia. Qed.

Lemma set_index_in_range s i x :
  0 <= i < len s -> set_index s i x = Returned (<[Z.to_nat i := x]> s).
Proof. intros H. unfold set_index. by rewrite bool_decide_eq_true_2. Qed.

Lemma index_lookup s i x :
  0 <= i -> s !! Z.to_nat i = Some x -> index s i = Returned x.
Proof.
  intros Hi Hx. unfold index.
  pose proof (lookup_lt_Some _ _ _ Hx) as Hlt.
  rewrite bool_decide_eq_true_2 by (unfold len; lia).
  by rewrite Hx.
Qed.

Lemma index_returned s i x :
  index s i = Returned x -> 0 <= i < len s /\ s !! Z.to_nat i = Some x.
Proof.
  unfold index. case_bool_decide; [| discriminate].
  destruct (s !! Z.to_nat i) eqn:E; [| discriminate].
  intros [= <-]. done.
Qed.

Lemma slice_from_in_range s i :
  0 <= i <= len s -> slice_from s i = Returned (drop (Z.to_nat i) s).
Proof. intros H. unfold slice_from. by rewrite bool_decide_eq_true_2. Qed.

Lemma slice_from_returned s i r :
  slice_from s i = Returned r -> 0 <= i <= len s /\ r = drop (Z.to_nat i) s.
Proof. unfold slice_from. case_bool_decide; [| discriminate]. by intros [= <-]. Qed.

(** ** Little-endian integers *)

Lemma little_endian_4 v :
  Z_to_little_endian 4 8 v =
  [to_byte v; to_byte (v ≫ 8); to_byte (v ≫ 16); to_byte (v ≫ 24)].
Proof.
  change 4 with (Z.succ (Z.succ (Z.succ (Z.succ 0)))) at 1.
  rewrite !Z_to_little_endian_succ, Z_to_little_endian_0 by lia.
  rewrite !Z.land_ones, !Z.shiftr_shiftr by lia. reflexivity.
Qed.

Lemma lor_little_endian_4 v :
  Z.lor (Z.lor (Z.lor (to_byte v) (to_byte (v ≫ 8) ≪ 8)) (to_byte (v ≫ 16) ≪ 16))
        (to_byte (v ≫ 24) ≪ 24) = v mod 2 ^ 32.
Proof.
  change 32 with (4 * 8).
  rewrite <- (little_endian_to_Z_to_little_endian 4 8 v) by lia.
  rewrite little_endian_4. cbn [little_endian_to_Z].
  rewrite Z.lor_0_r. rewrite !Z.shiftl_lor, !Z.shiftl_shiftl by lia. simpl Z.add.
  rewrite !Z.lor_assoc. reflexivity.
Qed.

Lemma to_int32_mod v : to_int32 (v mod 2 ^ 32) = to_int32 v.
Proof.
  unfold to_int32.
  rewrite <- (Zplus_mod_idemp_l v). reflexivity.
Qed.

(** Reading back the four bytes that [setInt32] writes gives the value. *)
Lemma bytesToInt32_of_bytes s v :
  s !! 0%nat = Some (to_byte v) ->
  s !! 1%nat = Some (to_byte (v ≫ 8)) ->
  s !! 2%nat = Some (to_byte (v ≫ 16)) ->
  s !! 3%nat = Some (to_byte (v ≫ 24)) ->
  bytesToInt32 s = Returned (to_int32 v).
Proof.
  intros H0 H1 H2 H3. unfold bytesToInt32.
  rewrite (index_lookup s 0 _ ltac:(lia) H0). simpl.
  rewrite (index_lookup s 1 _ ltac:(lia) H1). simpl.
  rewrite (index_lookup s 2 _ ltac:(lia) H2). simpl.
  rewrite (index_lookup s 3 _ ltac:(lia) H3). simpl.
  by rewrite lor_little_endian_4, to_int32_mod.
Qed.

(** ** The bytes of an int32 *)

Lemma mod_pow2_testbit w x y m :
  x mod 2 ^ w = y mod 2 ^ w -> 0 <= m < w -> Z.testbit x m = Z.testbit y m.
Proof.
  intros H Hm.
  assert (E : forall z, Z.testbit z m = Z.testbit (z mod 2 ^ w) m).
  { intros z. rewrite Z.testbit_mod_pow2 by lia.
    destruct (Z.ltb_spec m w); [reflexivity | lia]. }
  rewrite (E x), (E y), H. reflexivity.
Qed.

Lemma to_byte_shiftr_congr w x y k :
  x mod 2 ^ w = y mod 2 ^ w -> 0 <= k -> k + 8 <= w -> to_byte (x ≫ k) = to_byte (y ≫ k).
Proof.
  intros H Hk Hw. unfold to_byte. apply Z.bits_inj'. intros n Hn.
  rewrite !Z.testbit_mod_pow2 by lia.
  destruct (Z.ltb_spec n 8); [| reflexivity]. simpl.
  rewrite !Z.shiftr_spec by lia. apply (mod_pow2_testbit w); [exact H | lia].
Qed.

Lemma to_byte_congr w x y :
  x mod 2 ^ w = y mod 2 ^ w -> 8 <= w -> to_byte x = to_byte y.
Proof.
  intros H Hw. rewrite <- (Z.shiftr_0_r x), <- (Z.shiftr_0_r y).
  apply (to_byte_shiftr_congr w); [exact H | lia | lia].
Qed.

Lemma to_uint32_mod v : to_uint32 v mod 2 ^ 32 = v mod 2 ^ 32.
Proof. unfold to_uint32. apply Z.mod_mod. lia. Qed.

Lemma to_int32_mod32 v : to_int32 v mod 2 ^ 32 = v mod 2 ^ 32.
Proof.
  unfold to_int32. rewrite Zminus_mod_idemp_l. f_equal. lia.
Qed.

Lemma to_uint64_mod v : to_uint64 v mod 2 ^ 64 = v mod 2 ^ 64.
Proof. unfold to_uint64. apply Z.mod_mod. lia. Qed.

Lemma to_int64_mod64 v : to_int64 v mod 2 ^ 64 = v mod 2 ^ 64.
Proof.
  unfold to_int64. rewrite Zminus_mod_idemp_l. f_equal. lia.
Qed.

Lemma int32_payload_bytes v :
  int32_payload v = [to_byte v; to_byte (v ≫ 8); to_byte (v ≫ 16); to_byte (v ≫ 24)].
Proof.
  unfold int32_payload, littleEndian_AppendInt32. cbn [app].
  pose proof (to_uint32_mod v) as H.
  rewrite (to_byte_congr 32 _ _ H), !(to_byte_shiftr_congr 32 _ _ _ H) by lia.
  reflexivity.
Qed.

Lemma int32_payload_to_int32 v : int32_payload (to_int32 v) = int32_payload v.
Proof.
  rewrite !int32_payload_bytes. pose proof (to_int32_mod32 v) as H.
  rewrite (to_byte_congr 32 _ _ H), !(to_byte_shiftr_congr 32 _ _ _ H) by lia.
  reflexivity.
Qed.

Lemma insert_4 (pre post : list Z) x0 x1 x2 x3 a b c d p :
  p = length pre ->
  <[(p + 3)%nat := d]> (<[(p + 2)%nat := c]> (<[(p + 1)%nat := b]> (<[p := a]>
    (pre ++ x0 :: x1 :: x2 :: x3 :: post)))) = pre ++ a :: b :: c :: d :: post.
Proof.
  intros ->. rewrite !insert_app_r_alt by lia.
  replace (length pre - length pre)%nat with 0%nat by lia.
  replace (length pre + 1 - length pre)%nat with 1%nat by lia.
  replace (length pre + 2 - length pre)%nat with 2%nat by lia.
  replace (length pre + 3 - length pre)%nat with 3%nat by lia.
  reflexivity.
Qed.

Lemma split_4 (l : list Z) p :
  (p + 4 <= length l)%nat ->
  exists x0 x1 x2 x3, l = take p l ++ x0 :: x1 :: x2 :: x3 :: drop (p + 4) l.
Proof.
  intros H. pose proof (length_drop l p) as Hd.
  assert (Ht : drop (p + 4) l = drop 4 (drop p l)) by (by rewrite drop_drop).
  destruct (drop p l) as [| x0 [| x1 [| x2 [| x3 t]]]] eqn:E; simpl in Hd; try lia.
  exists x0, x1, x2, x3. rewrite Ht. simpl. rewrite drop_0, <- E. by rewrite take_drop.
Qed.

Lemma set_index_4 (s : list Z) pos x0 x1 x2 x3 :
  0 <= pos -> pos + 4 <= len s ->
  (s ← set_index s (pos + 0) x0;
   s ← set_index s (pos + 1) x1;
   s ← set_index s (pos + 2) x2;
   set_index s (pos + 3) x3) =
  Returned (take (Z.to_nat pos) s ++ [x0; x1; x2; x3] ++ drop (Z.to_nat pos + 4) s).
Proof.
  intros Hpos Hlen.
  rewrite set_index_in_range by lia. cbn [mbind outcome_bind].
  rewrite set_index_in_range by (rewrite len_insert; lia). cbn [mbind outcome_bind].
  rewrite set_index_in_range by (rewrite !len_insert; lia). cbn [mbind outcome_bind].
  rewrite set_index_in_range by (rewrite !len_insert; lia). f_equal.
  assert (Hn : (Z.to_nat pos + 4 <= length s)%nat) by (unfold len in Hlen; lia).
  destruct (split_4 s (Z.to_nat pos) Hn) as (y0 & y1 & y2 & y3 & E).
  replace (Z.to_nat (pos + 0)) with (Z.to_nat pos) by lia.
  replace (Z.to_nat (pos + 1)) with (Z.to_nat pos + 1)%nat by lia.
  replace (Z.to_nat (pos + 2)) with (Z.to_nat pos + 2)%nat by lia.
  replace (Z.to_nat (pos + 3)) with (Z.to_nat pos + 3)%nat by lia.
  rewrite E at 1. apply insert_4. rewrite length_take. lia.
Qed.

Lemma set_index_4_returns (s : list Z) pos x0 x1 x2 x3 :
  returns (s ← set_index s (pos + 0) x0;
           s ← set_index s (pos + 1) x1;
           s ← set_index s (pos + 2) x2;
           set_index s (pos + 3) x3) =
  bool_decide (0 <= pos /\ pos + 4 <= len s).
Proof.
  case_bool_decide as H.
  - destruct H. by rewrite set_index_4.
  - unfold set_index.
    repeat (case_bool_decide; cbn [mbind outcome_bind returns]; rewrite ?len_insert in *);
      try reflexivity.
    lia.
Qed.

Lemma setInt32_bytes pos v b :
  0 <= pos -> pos + 4 <= len (raw b) ->
  setInt32 pos v b =
  Returned (with_raw (take (Z.to_nat pos) (raw b) ++ int32_payload v ++
                      drop (Z.to_nat pos + 4) (raw b)) b).
Proof.
  intros Hpos Hlen. unfold setInt32.
  pose proof (set_index_4 (raw b) pos (to_byte v) (to_byte (v ≫ 8)) (to_byte (v ≫ 16))
                (to_byte (v ≫ 24)) Hpos Hlen) as H.
  cbn [mbind outcome_bind] in H.
  destruct (set_index (raw b) (pos + 0) (to_byte v)) as [r0 |]; [| discriminate].
  cbn [mbind outcome_bind] in *.
  destruct (set_index r0 (pos + 1) (to_byte (v ≫ 8))) as [r1 |]; [| discriminate].
  cbn [mbind outcome_bind] in *.
  destruct (set_index r1 (pos + 2) (to_byte (v ≫ 16))) as [r2 |]; [| discriminate].
  cbn [mbind outcome_bind] in *.
  rewrite H. cbn [mbind outcome_bind]. by rewrite int32_payload_bytes.
Qed.

(** X4. Reserving four bytes at the end of the buffer and patching them
    with [setInt32] leaves the builder that [appendInt32] makes: the
    back-patched length prefix and an appended int32 have the same bytes,
    for every value, although one shifts the signed and the other the
    unsigned integer. *)
Theorem reserveInt32_setInt32_is_appendInt32 (v : Z) (b : Bson) :
  setInt32 (reserveInt32 b).1 v (reserveInt32 b).2 = Returned (appendInt32 v b).
Proof.
  unfold reserveInt32. cbn [fst snd].
  rewrite setInt32_bytes; cbn [raw with_raw].
  - unfold appendInt32, int32_payload, littleEndian_AppendInt32, with_raw, len.
    cbn [raw offset child inChild finished].
    rewrite Nat2Z.id, take_app_length.
    rewrite drop_ge by (rewrite length_app; simpl; lia).
    by rewrite app_nil_r.
  - apply len_nonneg.
  - rewrite len_app. unfold len at 3. simpl. lia.
Qed.

(** ** Finishing a document *)

Lemma setInt32_spec pos v b :
  0 <= pos -> pos + 4 <= len (raw b) ->
  exists r, setInt32 pos v b = Returned (with_raw r b) /\
    length r = length (raw b) /\
    r !! Z.to_nat pos = Some (to_byte v) /\
    r !! (Z.to_nat pos + 1)%nat = Some (to_byte (v ≫ 8)) /\
    r !! (Z.to_nat pos + 2)%nat = Some (to_byte (v ≫ 16)) /\
    r !! (Z.to_nat pos + 3)%nat = Some (to_byte (v ≫ 24)) /\
    (forall j, (Z.to_nat pos + 4 <= j)%nat -> r !! j = raw b !! j).
Proof.
  intros Hpos Hlen. unfold setInt32.
  rewrite set_index_in_range by lia. simpl.
  rewrite set_index_in_range by (rewrite len_insert; lia). simpl.
  rewrite set_index_in_range by (rewrite !len_insert; lia). simpl.
  rewrite set_index_in_range by (rewrite !len_insert; lia). simpl.
  eexists. split; [reflexivity |].
  assert (Hn : (Z.to_nat pos + 4 <= length (raw b))%nat) by (unfold len in Hlen; lia).
  replace (Z.to_nat (pos + 0)) with (Z.to_nat pos) by lia.
  replace (Z.to_nat (pos + 1)) with (Z.to_nat pos + 1)%nat by lia.
  replace (Z.to_nat (pos + 2)) with (Z.to_nat pos + 2)%nat by lia.
  replace (Z.to_nat (pos + 3)) with (Z.to_nat pos + 3)%nat by lia.
  repeat split.
  - by rewrite !length_insert.
  - rewrite !list_lookup_insert_ne by lia.
    apply list_lookup_insert_eq. lia.
  - rewrite !list_lookup_insert_ne by lia.
    apply list_lookup_insert_eq. rewrite !length_insert. lia.
  - rewrite !list_lookup_insert_ne by lia.
    apply list_lookup_insert_eq. rewrite !length_insert. lia.
  - apply list_lookup_insert_eq. rewrite !length_insert. lia.
  - intros j Hj. by rewrite !list_lookup_insert_ne by lia.
Qed.

Lemma Finish_spec b :
  reserved b -> finished b = false -> inChild b = false ->
  len (raw b) - offset b < MaxInt32 ->
  exists b' r, Finish b = Returned b' /\ finished b' = true /\
    Raw b' = Returned r /\
    len r = len (raw b) + 1 - offset b /\
    bytesToInt32 r = Returned (len r) /\
    last r = Some eod.
Proof.
  intros [Hoff Hres] Hf Hc Hmax. unfold Finish.
  rewrite checkBeforeAppend_open by done. simpl.
  set (v := to_int32 (len (raw b ++ [eod]) - offset b)).
  destruct (setInt32_spec (offset b) v (with_raw (raw b ++ [eod]) b))
    as (r & -> & Hlen & H0 & H1 & H2 & H3 & Hrest); simpl; try done.
  { rewrite len_app. unfold len at 2. simpl. lia. }
  simpl in *. rewrite length_app in Hlen. simpl in Hlen.
  assert (Hlenr : len r = len (raw b) + 1) by (unfold len; lia).
  exists (with_finished true (with_raw r (with_raw (raw b ++ [eod]) b))),
         (drop (Z.to_nat (offset b)) r).
  split; [reflexivity |]. split; [reflexivity |].
  unfold Raw. simpl. split; [apply slice_from_in_range; lia |].
  assert (Hd : len (drop (Z.to_nat (offset b)) r) = len (raw b) + 1 - offset b)
    by (rewrite len_drop; lia).
  split; [exact Hd |]. split.
  - rewrite (bytesToInt32_of_bytes _ v).
    + rewrite Hd. f_equal. subst v. rewrite len_app. unfold len at 2. simpl.
      rewrite !(to_int32_fits (len (raw b) + Z.of_nat 1 - offset b));
        unfold fits_int32, MinInt32, MaxInt32 in *; lia.
    + by rewrite lookup_drop, Nat.add_0_r.
    + by rewrite lookup_drop.
    + by rewrite lookup_drop.
    + by rewrite lookup_drop.
  - rewrite last_lookup, lookup_drop, length_drop.
    unfold len in *.
    replace (Z.to_nat (offset b) + Init.Nat.pred (length r - Z.to_nat (offset b)))%nat
      with (length (raw b)) by lia.
    rewrite Hrest by lia.
    rewrite lookup_app_r by lia. by rewrite Nat.sub_diag.
Qed.

Lemma Validate_length_mismatch b r stored :
  finished b = true -> Raw b = Returned r -> bytesToInt32 r = Returned stored ->
  stored <> len r ->
  Validate b = Some (Returned (Some (errorString "invalid bson length"))).
Proof.
  intros Hf Hraw Hstored Hne.
  unfold Validate, Validate_fuel, Validate_body, Length.
  rewrite Hf. simpl. unfold Raw in Hraw. rewrite Hraw. simpl.
  rewrite Hstored. unfold Raw. rewrite Hraw.
  by rewrite bool_decide_eq_false_2.
Qed.

Lemma Finish_bytes b :
  reserved b -> finished b = false -> inChild b = false ->
  Finish b =
  Returned (with_finished true
    (with_raw (take (Z.to_nat (offset b)) (raw b) ++
               int32_payload (len (raw b) + 1 - offset b) ++
               drop (Z.to_nat (offset b) + 4) (raw b) ++ [eod]) b)).
Proof.
  intros [H0 H4] Hf Hc. unfold Finish.
  rewrite checkBeforeAppend_open by done. cbn [mbind outcome_bind].
  rewrite setInt32_bytes; cbn [raw offset with_raw].
  2: done.
  2: { rewrite len_app. pose proof (len_nonneg [eod]). lia. }
  cbn [mbind outcome_bind]. do 2 f_equal.
  assert (Hn : (Z.to_nat (offset b) + 4 <= length (raw b))%nat)
    by (unfold len in H4; lia).
  rewrite take_app_le, drop_app_le by lia.
  rewrite int32_payload_to_int32, len_app. reflexivity.
Qed.

Lemma Finish_open_builder b b' :
  Finish b = Returned b' -> finished b = false /\ inChild b = false.
Proof.
  unfold Finish, checkBeforeAppend.
  destruct (finished b), (inChild b); try discriminate. done.
Qed.

Lemma End_returned b b' :
  AppendBsonEnd b = Returned b' \/ AppendArrayEnd b = Returned b' ->
  exists c, child b = Some c /\ inChild b = true /\ finished b = false /\
    last (raw c) = Some eod /\
    b' = with_inChild false (with_child None (with_raw (raw c) b)).
Proof.
  unfold AppendBsonEnd, AppendArrayEnd. intros Hend.
  destruct (inChild b); [| by destruct Hend]. destruct (finished b); [by destruct Hend |].
  cbn [negb] in Hend. destruct (child b) as [c |]; [| by destruct Hend].
  rewrite index_last in Hend.
  destruct (last (raw c)) as [x |] eqn:El; [| by destruct Hend].
  cbn [mbind outcome_bind] in Hend.
  destruct (bool_decide (x = eod)) eqn:Ex; [| by destruct Hend].
  apply bool_decide_eq_true in Ex as ->.
  cbn [negb] in Hend.
  exists c. do 3 (split; [reflexivity |]). split; [exact El |].
  by destruct Hend as [[= <-] | [= <-]].
Qed.

Lemma child_Finish (P body : list Z) :
  Finish (Build_Bson ((P ++ [0; 0; 0; 0]) ++ body) (len P) None false false) =
  Returned (Build_Bson (P ++ int32_payload (len body + 5) ++ body ++ [eod])
                       (len P) None false true).
Proof.
  rewrite Finish_bytes; [| | done | done].
  2: { unfold reserved, len. cbn [raw offset]. rewrite !length_app. simpl. lia. }
  unfold with_finished, with_raw. cbn [raw offset child inChild finished].
  do 2 f_equal. unfold len. rewrite Nat2Z.id.
  rewrite <- !app_assoc, take_app_length. f_equal.
  rewrite drop_app_ge by lia.
  replace (length P + 4 - length P)%nat with 4%nat by lia.
  cbn [app drop]. rewrite drop_0. f_equal. f_equal.
  rewrite !length_app. simpl. lia.
Qed.

(** ** What an append adds *)

(** Induction on a value, with the property at hand for the values it holds. *)
Lemma value_induction (P : value -> Prop) :
  (forall v, Forall P (held v) -> P v) -> forall v, P v.
Proof.
  intros step. fix IH 1. intros v. apply step.
  assert (Hentries : forall entries : list (string * value), Forall P (snd <$> entries)).
  { fix IHentries 1. intros [| [k u] entries]; cbn [fmap list_fmap snd].
    - apply List.Forall_nil.
    - apply List.Forall_cons; [exact (IH u) | exact (IHentries entries)]. }
  destruct v as [| | | | | | | | | | | | | | | | | | | | | | [elem |] | m | d | elems
                 | entries | fields |];
    cbn [held]; try apply List.Forall_nil; try apply Hentries.
  - apply List.Forall_cons; [exact (IH elem) | apply List.Forall_nil].
  - clear Hentries. revert elems. fix IHelems 1. intros [| u elems].
    + apply List.Forall_nil.
    + apply List.Forall_cons; [exact (IH u) | exact (IHelems elems)].
Qed.

Lemma adds_Returned : adds Returned [].
Proof.
  intros b Hf Hc. exists b. split; [reflexivity |].
  unfold appended. rewrite app_nil_r. repeat (split; [done |]). by left.
Qed.

Lemma adds_bind f g x y :
  adds f x -> adds g y -> adds (fun b => b ← f b; g b) (x ++ y).
Proof.
  intros Hx Hy b Hf Hc.
  destruct (Hx b Hf Hc) as (b1 & -> & Hr1 & Ho1 & Hf1 & Hc1 & Hch1).
  cbn [mbind outcome_bind].
  destruct (Hy b1 Hf1 Hc1) as (b2 & -> & Hr2 & Ho2 & Hf2 & Hc2 & Hch2).
  exists b2. split; [reflexivity |].
  unfold appended. rewrite Hr2, Hr1, Ho2, Ho1, app_assoc.
  do 4 (split; [done |]).
  destruct Hch2 as [-> | ->]; [exact Hch1 | by right].
Qed.

(** A step that [adds] gives a builder as it was but for the buffer, when
    there was no child. *)
Lemma appended_no_child bytes b b' :
  appended bytes b b' -> finished b = false -> inChild b = false -> child b = None ->
  b' = with_raw (raw b ++ bytes) b.
Proof.
  intros (Hr & Ho & Hf & Hc & Hch) Hfb Hcb Hchb.
  destruct b' as [r o ch ic fi]. unfold with_raw. cbn in *.
  rewrite Hfb, Hcb, Hchb. subst. f_equal.
  destruct Hch as [-> | ->]; [exact Hchb | reflexivity].
Qed.

Ltac adds_now :=
  eexists; intros b Hf Hc;
  unfold AppendFloat64, AppendString, AppendBson, AppendArray, AppendBinary, AppendObjectId,
    AppendBool, AppendDate, AppendNull, AppendRegex, AppendInt32, AppendTimestamp,
    AppendInt64, AppendMinKey, AppendMaxKey;
  rewrite (checkBeforeAppend_open b Hf Hc); cbn [mbind outcome_bind];
  eexists; split; [reflexivity |];
  unfold appended, appendFloat64, appendInt64, appendInt32, appendBytes, appendCString,
    appendType, with_raw; cbn [raw offset child inChild finished];
  split; [rewrite <- ?app_assoc; reflexivity |]; repeat (split; [done |]); by left.

(** The child that is opened, filled, finished and closed: what [Append]
    does for a value that becomes a sub-document. *)
Lemma sub_document_adds name f body :
  adds f body ->
  adds (fun b => b ← AppendBsonStart name b;
                 b ← on_child (fun child => child ← f child; Finish child) b;
                 AppendBsonEnd b)
       ([to_byte BsonTypeBson] ++ bytes_of_string name ++ [0] ++
        int32_payload (len body + 5) ++ body ++ [eod]).
Proof.
  intros Hbody b Hf Hi.
  unfold AppendBsonStart.
  rewrite (checkBeforeAppend_open b Hf Hi). cbn [mbind outcome_bind].
  unfold on_child. cbn [child with_child].
  set (b1 := appendCString name (appendType BsonTypeBson b)).
  assert (Hf1 : finished b1 = false) by exact Hf.
  unfold reserveInt32. cbn [snd raw with_raw offset child inChild finished].
  set (c0 := with_raw (raw b1 ++ [0; 0; 0; 0])
                       (Build_Bson (raw b1) (len (raw b1)) None false false)).
  destruct (Hbody c0 eq_refl eq_refl) as (c & -> & Happ).
  apply appended_no_child in Happ; [| done | done | done]. subst c.
  cbn [mbind outcome_bind].
  change (with_raw (raw c0 ++ body) c0)
    with (Build_Bson ((raw b1 ++ [0; 0; 0; 0]) ++ body) (len (raw b1)) None false false).
  rewrite child_Finish. cbn [mbind outcome_bind].
  unfold AppendBsonEnd.
  cbn [inChild finished child raw with_child with_inChild with_raw negb].
  rewrite Hf1, index_last, !app_assoc, last_snoc.
  cbn [mbind outcome_bind]. rewrite bool_decide_eq_true_2 by reflexivity. cbn [negb].
  eexists. split; [reflexivity |].
  unfold appended, with_inChild, with_child, with_raw.
  cbn [raw offset child inChild finished].
  split; [| split; [reflexivity | split; [exact Hf | split; [reflexivity | by right]]]].
  subst b1. unfold appendCString, appendType, with_raw. cbn [raw].
  by rewrite <- !app_assoc.
Qed.

Lemma array_adds name f body :
  adds f body ->
  adds (fun b => b ← AppendArrayStart name b;
                 b ← on_child (fun child => child ← f child; Finish child) b;
                 AppendArrayEnd b)
       ([to_byte BsonTypeArray] ++ bytes_of_string name ++ [0] ++
        int32_payload (len body + 5) ++ body ++ [eod]).
Proof.
  intros Hbody b Hf Hi.
  unfold AppendArrayStart.
  rewrite (checkBeforeAppend_open b Hf Hi). cbn [mbind outcome_bind].
  unfold on_child. cbn [child with_child].
  set (b1 := appendCString name (appendType BsonTypeArray b)).
  assert (Hf1 : finished b1 = false) by exact Hf.
  unfold reserveInt32. cbn [snd raw with_raw offset child inChild finished].
  set (c0 := with_raw (raw b1 ++ [0; 0; 0; 0])
                       (Build_Bson (raw b1) (len (raw b1)) None false false)).
  destruct (Hbody c0 eq_refl eq_refl) as (c & -> & Happ).
  apply appended_no_child in Happ; [| done | done | done]. subst c.
  cbn [mbind outcome_bind].
  change (with_raw (raw c0 ++ body) c0)
    with (Build_Bson ((raw b1 ++ [0; 0; 0; 0]) ++ body) (len (raw b1)) None false false).
  rewrite child_Finish. cbn [mbind outcome_bind].
  unfold AppendArrayEnd.
  cbn [inChild finished child raw with_child with_inChild with_raw negb].
  rewrite Hf1, index_last, !app_assoc, last_snoc.
  cbn [mbind outcome_bind]. rewrite bool_decide_eq_true_2 by reflexivity. cbn [negb].
  eexists. split; [reflexivity |].
  unfold appended, with_inChild, with_child, with_raw.
  cbn [raw offset child inChild finished].
  split; [| split; [reflexivity | split; [exact Hf | split; [reflexivity | by right]]]].
  subst b1. unfold appendCString, appendType, with_raw. cbn [raw].
  by rewrite <- !app_assoc.
Qed.

(** A child that panics while it is filled: the append of the value panics. *)
Lemma sub_document_panics name f b :
  (forall c, finished c = false -> inChild c = false -> panics (f c) = true) ->
  panics (b ← AppendBsonStart name b;
          b ← on_child (fun child => child ← f child; Finish child) b;
          AppendBsonEnd b) = true /\
  panics (b ← AppendArrayStart name b;
          b ← on_child (fun child => child ← f child; Finish child) b;
          AppendArrayEnd b) = true.
Proof.
  intros Hf. unfold AppendBsonStart, AppendArrayStart.
  destruct (checkBeforeAppend b) as [[] |]; [| done].
  cbn [mbind outcome_bind]. unfold on_child. cbn [child with_child].
  split; apply bind_panics, bind_panics, bind_panics, Hf; reflexivity.
Qed.

Lemma fill_adds entries :
  Forall adds_or_panics (snd <$> entries) ->
  (forallb (fun entry => appendable (snd entry)) entries = true /\
   exists bytes, adds (fill entries) bytes) \/
  (forallb (fun entry => appendable (snd entry)) entries = false /\
   forall c, finished c = false -> inChild c = false -> panics (fill entries c) = true).
Proof.
  induction entries as [| [k v] entries IH]; cbn [fmap list_fmap snd forallb fill].
  - intros _. left. split; [reflexivity |]. exists []. apply adds_Returned.
  - intros Hall. apply Forall_cons in Hall as [Hv Hall].
    destruct (Hv k) as [[-> [x Hx]] | [-> Hno]]; cbn [andb].
    + destruct (IH Hall) as [[-> [y Hy]] | [-> Hno]].
      * left. split; [reflexivity |]. exists (x ++ y).
        exact (adds_bind (Append k v) (fill entries) x y Hx Hy).
      * right. split; [reflexivity |]. intros c Hf Hc.
        destruct (Hx c Hf Hc) as (c' & -> & _ & _ & Hf' & Hc' & _).
        cbn [mbind outcome_bind]. by apply Hno.
    + right. split; [reflexivity |]. intros c _ _. by apply bind_panics.
Qed.

Lemma fill_array_adds elems : forall i,
  Forall adds_or_panics elems ->
  (forallb appendable elems = true /\ exists bytes, adds (fill_array i elems) bytes) \/
  (forallb appendable elems = false /\
   forall c, finished c = false -> inChild c = false -> panics (fill_array i elems c) = true).
Proof.
  induction elems as [| v elems IH]; intros i; cbn [forallb fill_array].
  - intros _. left. split; [reflexivity |]. exists []. apply adds_Returned.
  - intros Hall. apply Forall_cons in Hall as [Hv Hall].
    destruct (Hv (format_d i)) as [[-> [x Hx]] | [-> Hno]]; cbn [andb].
    + destruct (IH (i + 1) Hall) as [[-> [y Hy]] | [-> Hno]].
      * left. split; [reflexivity |]. exists (x ++ y).
        exact (adds_bind (Append (format_d i) v) (fill_array (i + 1) elems) x y Hx Hy).
      * right. split; [reflexivity |]. intros c Hf Hc.
        destruct (Hx c Hf Hc) as (c' & -> & _ & _ & Hf' & Hc' & _).
        cbn [mbind outcome_bind]. by apply Hno.
    + right. split; [reflexivity |]. intros c _ _. by apply bind_panics.
Qed.

Lemma on_child_ext (f g : Bson -> outcome Bson) b :
  (forall c, f c = g c) -> on_child f b = on_child g b.
Proof. intros H. unfold on_child. destruct (child b) as [c |]; [by rewrite H | done]. Qed.

(** The functions that fill a sub-document are one generic append per
    entry, and the loop over an array is one per element, named by its
    index. *)
Lemma Map_toBson_fill m child : Map_toBson Append m child = fill m child.
Proof.
  revert child. induction m as [| [k v] m IH]; intros child; [reflexivity |].
  cbn [Map_toBson fill]. destruct (Append k v child); [apply IH | reflexivity].
Qed.

Lemma Doc_toBson_fill d child : Doc_toBson Append d child = fill d child.
Proof.
  revert child. induction d as [| [k v] d IH]; intros child; [reflexivity |].
  cbn [Doc_toBson fill]. destruct (Append k v child); [apply IH | reflexivity].
Qed.

Lemma structToBson_fill fields child : structToBson Append fields child = fill fields child.
Proof.
  revert child. induction fields as [| [k v] fields IH]; intros child; [reflexivity |].
  cbn [structToBson fill]. destruct (Append k v child); [apply IH | reflexivity].
Qed.

Lemma Append_Map name m b :
  Append name (V_Map m) b =
  (b ← AppendBsonStart name b;
   b ← on_child (fun child => child ← fill m child; Finish child) b;
   AppendBsonEnd b).
Proof.
  cbn [Append]. destruct (AppendBsonStart name b) as [b1 |]; [| reflexivity].
  cbn [mbind outcome_bind]. f_equal. apply on_child_ext. intros c.
  by rewrite Map_toBson_fill.
Qed.

Lemma Append_Doc name d b :
  Append name (V_Doc d) b =
  (b ← AppendBsonStart name b;
   b ← on_child (fun child => child ← fill d child; Finish child) b;
   AppendBsonEnd b).
Proof.
  cbn [Append]. destruct (AppendBsonStart name b) as [b1 |]; [| reflexivity].
  cbn [mbind outcome_bind]. f_equal. apply on_child_ext. intros c.
  by rewrite Doc_toBson_fill.
Qed.

Lemma Append_struct name fields b :
  Append name (V_struct fields) b =
  (b ← AppendBsonStart name b;
   b ← on_child (fun child => child ← fill fields child; Finish child) b;
   AppendBsonEnd b).
Proof.
  cbn [Append]. destruct (AppendBsonStart name b) as [b1 |]; [| reflexivity].
  cbn [mbind outcome_bind]. f_equal. apply on_child_ext. intros c.
  by rewrite structToBson_fill.
Qed.

Lemma Append_map name entries b :
  Append name (V_map entries) b =
  (b ← AppendBsonStart name b;
   b ← on_child (fun child => child ← fill entries child; Finish child) b;
   AppendBsonEnd b).
Proof. reflexivity. Qed.

Lemma each_fill_array elems : forall i c,
  (child ← each_element elems {| array_bson := c; array_index := i |};
   child ← BsonArray_Finish child;
   Returned (array_bson child)) =
  (c ← fill_array i elems c; Finish c).
Proof.
  induction elems as [| v elems IH]; intros i c.
  - cbn [each_element mbind outcome_bind fill_array]. unfold BsonArray_Finish.
    cbn [array_bson]. by destruct (Finish c).
  - cbn [each_element fill_array]. unfold BsonArray_Append. cbn [array_bson array_index].
    destruct (Append (format_d i) v c) as [c1 |]; cbn [mbind outcome_bind];
      [apply IH | reflexivity].
Qed.

Lemma Append_array name elems b :
  Append name (V_array elems) b =
  (b ← AppendArrayStart name b;
   b ← on_child (fun child => child ← fill_array 0 elems child; Finish child) b;
   AppendArrayEnd b).
Proof.
  cbn [Append]. destruct (AppendArrayStart name b) as [b1 |]; [| reflexivity].
  cbn [mbind outcome_bind]. f_equal. apply on_child_ext. intros c.
  exact (each_fill_array elems 0 c).
Qed.

Lemma entries_add_or_panic name entries :
  Forall adds_or_panics (snd <$> entries) ->
  let f := fun b => b ← AppendBsonStart name b;
                    b ← on_child (fun child => child ← fill entries child; Finish child) b;
                    AppendBsonEnd b in
  (forallb (fun entry => appendable (snd entry)) entries = true /\
   exists bytes, adds f bytes) \/
  (forallb (fun entry => appendable (snd entry)) entries = false /\
   forall b, panics (f b) = true).
Proof.
  intros IH f. destruct (fill_adds entries IH) as [[-> [body Hbody]] | [-> Hno]].
  - left. split; [reflexivity |]. eexists.
    exact (sub_document_adds name (fill entries) body Hbody).
  - right. split; [reflexivity |]. intros b.
    apply (sub_document_panics name (fill entries) b Hno).
Qed.

Lemma adds_or_panics_ext (ok : bool) (f g : Bson -> outcome Bson) :
  (forall b, g b = f b) ->
  (ok = true /\ exists bytes, adds f bytes) \/ (ok = false /\ forall b, panics (f b) = true) ->
  (ok = true /\ exists bytes, adds g bytes) \/ (ok = false /\ forall b, panics (g b) = true).
Proof.
  intros Hext [[Hok [bytes Hadds]] | [Hok Hno]].
  - left. split; [exact Hok |]. exists bytes. intros b Hf Hc. rewrite Hext. by apply Hadds.
  - right. split; [exact Hok |]. intros b. rewrite Hext. apply Hno.
Qed.

Lemma Append_adds (v : value) : adds_or_panics v.
Proof.
  induction v as [v IH] using value_induction. intros name.
  destruct v as [| | | | | | | | | | | | | flag | | | id | | | | bin | k | [elem |]
                 | m | d | elems | entries | fields |];
    cbn [appendable held] in *.
  25: { apply (adds_or_panics_ext _ _ _ (Append_Map name m)).
        exact (entries_add_or_panic name m IH). }
  25: { apply (adds_or_panics_ext _ _ _ (Append_Doc name d)).
        exact (entries_add_or_panic name d IH). }
  25: { apply (adds_or_panics_ext _ _ _ (Append_array name elems)).
        destruct (fill_array_adds elems 0 IH) as [[-> [body Hbody]] | [-> Hno]].
        - left. split; [reflexivity |]. eexists.
          exact (array_adds name (fill_array 0 elems) body Hbody).
        - right. split; [reflexivity |]. intros b.
          apply (sub_document_panics name (fill_array 0 elems) b Hno). }
  25: exact (entries_add_or_panic name entries IH).
  25: { apply (adds_or_panics_ext _ _ _ (Append_struct name fields)).
        exact (entries_add_or_panic name fields IH). }
  23: { apply Forall_cons in IH as [IH _]. exact (IH name). }
  all: clear IH; cbn [Append].
  all: repeat case_bool_decide.
  all: try (left; split; [reflexivity |]; adds_now).
  all: try (right; split; [reflexivity |]; intros b; reflexivity).
  all: try (exfalso; lia).
  - left. split; [reflexivity |]. destruct flag; adds_now.
  - destruct (ObjectId_IsValid id) eqn:E.
    + left. split; [reflexivity |]. eexists; intros b Hf Hc. unfold AppendObjectId.
      rewrite (checkBeforeAppend_open b Hf Hc), E; cbn [mbind outcome_bind negb].
      eexists; split; [reflexivity |].
      unfold appended, appendBytes, appendCString, appendType, with_raw;
        cbn [raw offset child inChild finished].
      split; [rewrite <- ?app_assoc; reflexivity |]; repeat (split; [done |]); by left.
    + right. split; [reflexivity |]. intros b. unfold AppendObjectId. rewrite E.
      by destruct (checkBeforeAppend b).
  - destruct bin as [sub [data |]]; [| by destruct H].
    left. split; [reflexivity |]. adds_now.
  - destruct bin as [sub [data |]]; [exfalso; apply H; by eexists |].
    right. split; [reflexivity |]. intros b. unfold AppendBinary.
    by destruct (checkBeforeAppend b).
  - destruct k; [left; split; [reflexivity |]; adds_now
                | left; split; [reflexivity |]; adds_now
                | right; split; [reflexivity |]; intros b; reflexivity].
Qed.



(** ** The preconditions of the appends *)







(** ** The invariant of the builders *)

(** The builders that the package hands out hold their reserved prefix,
    and the appends keep it. *)

Lemma reserved_NewBson : reserved NewBson.
Proof. unfold reserved. vm_compute. split; discriminate. Qed.

Lemma checked_returned b (k : unit -> outcome Bson) b' :
  (checkBeforeAppend b ≫= k) = Returned b' -> k tt = Returned b'.
Proof. destruct (checkBeforeAppend b) as [[] |]; simpl; [done | discriminate]. Qed.

Lemma reserved_extends b b' : reserved b -> extends b b' -> reserved b'.
Proof.
  intros [H0 H4] [Hoff Hpre]. apply prefix_length in Hpre.
  unfold reserved, len in *. lia.
Qed.

Lemma coherent_unfold b :
  coherent b <->
  reserved b /\
  match child b with
  | Some c => inChild b = true /\ len (raw b) <= offset c /\ coherent c
  | None => inChild b = false
  end.
Proof. destruct b as [r off [c |] inCh fin]; simpl; unfold reserved; simpl; tauto. Qed.

Lemma coherent_plain b b' :
  coherent b -> inChild b = false -> plain b b' -> coherent b'.
Proof.
  rewrite !coherent_unfold. intros [Hres Hch] Hin ([Hoff Hpre] & Hc & Hi).
  split; [by apply (reserved_extends b) |].
  rewrite Hc, Hi. destruct (child b) as [c |]; [| done].
  destruct Hch as [Hcontra _]. congruence.
Qed.

Ltac plain_now :=
  intros [= <-]; repeat split; simpl; try reflexivity;
  repeat apply prefix_app_r; reflexivity.

Lemma Append_plain (v : value) name b b' :
  child b = None -> Append name v b = Returned b' -> plain b b'.
Proof.
  intros Hch Hret.
  assert (Hopen : finished b = false /\ inChild b = false).
  { destruct (finished b) eqn:Ef.
    { pose proof (Append_closed v name b (or_introl Ef)) as Hp.
      unfold panics in Hp. rewrite Hret in Hp. discriminate. }
    destruct (inChild b) eqn:Ei; [| done].
    pose proof (Append_closed v name b (or_intror Ei)) as Hp.
    unfold panics in Hp. rewrite Hret in Hp. discriminate. }
  destruct Hopen as [Hf Hi].
  destruct (Append_adds v name) as [[_ [bytes Hadds]] | [_ Hno]].
  - destruct (Hadds b Hf Hi) as (b1 & Hb1 & Hr & Ho & _ & Hi' & Hc').
    rewrite Hret in Hb1. injection Hb1 as <-.
    split; [split; [exact Ho | rewrite Hr; by apply prefix_app_r] |].
    split; [| congruence]. destruct Hc' as [-> | ->]; congruence.
  - specialize (Hno b). unfold panics in Hno. rewrite Hret in Hno. discriminate.
Qed.

Lemma Start_opens name b b' :
  AppendBsonStart name b = Returned b' \/ AppendArrayStart name b = Returned b' ->
  opens b b'.
Proof.
  unfold AppendBsonStart, AppendArrayStart.
  intros [Hret | Hret]; apply checked_returned in Hret; injection Hret as <-.
  all: split; [split; [reflexivity | simpl; repeat apply prefix_app_r; reflexivity] |].
  all: split; [reflexivity |]; split; [reflexivity |]; eexists; split; [reflexivity |].
  all: split; [reflexivity |]; split; [simpl; by apply prefix_app_r |]; split; [| done].
  all: unfold reserved; simpl; rewrite !len_app; unfold len; simpl; lia.
Qed.

Lemma run_plain_or_opens op b b' :
  child b = None -> run op b = Returned b' -> plain b b' \/ opens b b'.
Proof.
  intros Hch.
  destruct op as [| | ? p | name | ? p | name | ? bin | ? id | ? flag | | | | | | | | | ? v];
    simpl.
  4: { intros H. right. apply (Start_opens name). left. exact H. }
  5: { intros H. right. apply (Start_opens name). right. exact H. }
  16: { intros H. left. exact (Append_plain _ _ _ _ Hch H). }
  all: intros Hret; left; revert Hret.
  all: intros Hret; apply checked_returned in Hret; revert Hret; simpl; try discriminate;
    try plain_now.
  - destruct p as [| | v]; simpl; [discriminate | |].
    + destruct (Raw _); simpl; [plain_now | discriminate].
    + destruct (Raw v); simpl; [plain_now | discriminate].
  - destruct p as [| | v]; simpl; [discriminate | |].
    + destruct (Raw _); simpl; [plain_now | discriminate].
    + destruct (BsonArray_Raw v); simpl; [plain_now | discriminate].
  - destruct (Data bin); simpl; [plain_now | discriminate].
  - destruct (ObjectId_IsValid id); simpl; [plain_now | discriminate].
  - destruct flag; plain_now.
Qed.

Lemma coherent_opens b b' :
  coherent b -> opens b b' -> coherent b'.
Proof.
  rewrite !coherent_unfold.
  intros [Hres _] (Hext & Hin & _ & c & Hc & Hoff & _ & Hresc & Hcc & Hic).
  split; [by apply (reserved_extends b) |].
  rewrite Hc. split; [done |]. split; [lia |].
  rewrite coherent_unfold, Hcc. done.
Qed.

Lemma run_coherent op b b' :
  coherent b -> run op b = Returned b' -> coherent b' /\ offset b' = offset b.
Proof.
  intros Hco Hrun.
  assert (Hin : inChild b = false).
  { destruct (inChild b) eqn:E; [| done].
    pose proof (run_closed op b (or_intror E)) as Hp.
    unfold panics in Hp. rewrite Hrun in Hp. discriminate. }
  assert (Hch : child b = None).
  { pose proof (proj1 (coherent_unfold b) Hco) as [_ Hc].
    destruct (child b); [| done]. destruct Hc. congruence. }
  destruct (run_plain_or_opens op b b' Hch Hrun) as [Hp | Ho].
  - split; [by apply (coherent_plain b) | apply Hp].
  - split; [by apply (coherent_opens b) | apply Ho].
Qed.

Lemma Finish_coherent b b' :
  coherent b -> Finish b = Returned b' -> coherent b' /\ offset b' = offset b.
Proof.
  rewrite !coherent_unfold. intros [[H0 H4] Hch] Hfin. unfold Finish in Hfin.
  assert (Hin : inChild b = false).
  { unfold checkBeforeAppend in Hfin. destruct (finished b), (inChild b); try discriminate. done. }
  apply checked_returned in Hfin.
  destruct (setInt32_spec (offset b) (to_int32 (len (raw b ++ [eod]) - offset b))
              (with_raw (raw b ++ [eod]) b)) as (r & Hset & Hlen & _); simpl.
  { done. }
  { rewrite len_app. pose proof (len_nonneg [eod]). lia. }
  simpl in Hfin. rewrite Hset in Hfin. simpl in Hfin. injection Hfin as <-. simpl in *.
  split; [| done]. split.
  - unfold reserved, len in *. simpl. rewrite length_app in Hlen. simpl in Hlen. lia.
  - destruct (child b) as [c |]; [| done]. destruct Hch as [Hcontra _]. congruence.
Qed.

Lemma End_coherent b b' :
  coherent b -> AppendBsonEnd b = Returned b' \/ AppendArrayEnd b = Returned b' ->
  coherent b' /\ offset b' = offset b.
Proof.
  rewrite !coherent_unfold. unfold AppendBsonEnd, AppendArrayEnd.
  intros [[H0 H4] Hch] Hend.
  destruct (inChild b); [| by destruct Hend]. destruct (finished b); [by destruct Hend |].
  simpl in Hend. destruct (child b) as [c |]; [| by destruct Hend].
  destruct Hch as (_ & Hoff & Hc). apply coherent_unfold in Hc as [[Hc0 Hc4] _].
  destruct (index (raw c) (len (raw c) - 1)) as [x |]; [| by destruct Hend].
  simpl in Hend. destruct (negb (bool_decide (x = eod))); [by destruct Hend |].
  assert (b' = with_inChild false (with_child None (with_raw (raw c) b))) as ->
    by (destruct Hend as [[= <-] | [= <-]]; reflexivity).
  simpl. split; [| done]. split; [| done]. unfold reserved. simpl. lia.
Qed.

Lemma perform_coherent a : forall b b',
  coherent b -> perform a b = Returned b' -> coherent b' /\ offset b' = offset b.
Proof.
  induction a as [op | | | | a IH]; intros b b' Hco Hret; simpl in Hret.
  - by apply (run_coherent op).
  - by apply Finish_coherent.
  - apply End_coherent; [done | by left].
  - apply End_coherent; [done | by right].
  - unfold on_child in Hret. apply coherent_unfold in Hco as [Hres Hch].
    destruct (child b) as [c |] eqn:Ec; [| discriminate].
    destruct Hch as (Hin & Hoff & Hc).
    apply bind_returned in Hret as (c' & Hc' & Hret). injection Hret as <-.
    destruct (IH c c' Hc Hc') as [Hco' Hoff'].
    split; [| done]. apply coherent_unfold. simpl. rewrite Hoff'. done.
Qed.

Lemma built_coherent b : built b -> coherent b.
Proof.
  induction 1 as [| a b b' _ IH Hret | b c _ IH Hc].
  - apply coherent_unfold. split; [apply reserved_NewBson | done].
  - by apply (perform_coherent a b).
  - apply coherent_unfold in IH as [_ IH]. rewrite Hc in IH. apply IH.
Qed.

Lemma built_reserved b : built b -> reserved b.
Proof. intros H. by apply built_coherent, coherent_unfold in H as [? _]. Qed.

(** C2. On every builder that a caller can obtain and that is still open,
    [Finish] leaves a document whose first four bytes, read as a
    little-endian int32, are the number of bytes of [Raw()], prefix and
    terminator included, and whose last byte is 0x00 (the length being one
    that an int32 holds). [Validate] answers "invalid bson length" for
    every finished document whose stored length differs from the number of
    its bytes. *)
Theorem length_self_consistency (b : Bson) :
  (built b -> finished b = false -> inChild b = false ->
   len (raw b) - offset b < MaxInt32 ->
   exists b' r, Finish b = Returned b' /\ Raw b' = Returned r /\
     bytesToInt32 r = Returned (len r) /\ last r = Some eod) /\
  (forall r stored,
   finished b = true -> Raw b = Returned r -> bytesToInt32 r = Returned stored ->
   stored <> len r ->
   Validate b = Some (Returned (Some (errorString "invalid bson length")))).
Proof.
  split.
  - intros Hbuilt Hf Hc Hmax. apply built_reserved in Hbuilt as Hres.
    destruct (Finish_spec b Hres Hf Hc Hmax) as (b' & r & H1 & _ & H2 & _ & H3 & H4).
    by exists b', r.
  - intros r stored. apply Validate_length_mismatch.
Qed.

Lemma length_self_consistency_witness :
  (exists b' r, Finish NewBson = Returned b' /\ Raw b' = Returned r /\
     bytesToInt32 r = Returned (len r) /\ last r = Some eod) /\
  Validate (NewBsonWithRaw [7; 0; 0; 0; 0]) =
    Some (Returned (Some (errorString "invalid bson length"))).
Proof.
  split.
  - apply (proj1 (length_self_consistency NewBson)).
    + apply built_NewBson.
    + reflexivity.
    + reflexivity.
    + reflexivity.
  - apply (proj2 (length_self_consistency (NewBsonWithRaw [7; 0; 0; 0; 0]))
             [7; 0; 0; 0; 0] 7).
    + reflexivity.
    + reflexivity.
    + reflexivity.
    + vm_compute. discriminate.
Defined.

(** ** What is written stays written *)

Lemma nested_unfold b :
  nested b <->
  match child b with
  | Some c => raw b `prefix_of` raw c /\ offset c = len (raw b) /\ finished b = false /\
              nested c
  | None => True
  end.
Proof. destruct b as [r off [c |] inCh fin]; simpl; tauto. Qed.

Lemma stable_extends b b' : reserved b -> extends b b' -> stable b b'.
Proof.
  intros [H0 H4] [Hoff [k Hk]]. unfold stable. rewrite Hk.
  assert (Hn : (Z.to_nat (offset b) + 4 <= length (raw b))%nat)
    by (unfold len in H4; lia).
  rewrite take_app_le, drop_app_le by lia.
  split; [reflexivity | by apply prefix_app_r].
Qed.

Lemma run_open_builder op b b' :
  run op b = Returned b' -> finished b = false /\ inChild b = false.
Proof.
  intros Hrun.
  destruct (finished b) eqn:Ef.
  { pose proof (run_closed op b (or_introl Ef)) as Hp.
    unfold panics in Hp. rewrite Hrun in Hp. discriminate. }
  destruct (inChild b) eqn:Ei; [| done].
  pose proof (run_closed op b (or_intror Ei)) as Hp.
  unfold panics in Hp. rewrite Hrun in Hp. discriminate.
Qed.

Lemma run_stable op b b' :
  coherent b -> run op b = Returned b' ->
  nested b' /\ stable b b' /\ raw b `prefix_of` raw b'.
Proof.
  intros Hco Hret.
  destruct (run_open_builder _ _ _ Hret) as [Hf Hi].
  apply coherent_unfold in Hco as [Hres Hch].
  assert (Hnone : child b = None).
  { destruct (child b); [| done]. destruct Hch. congruence. }
  destruct (run_plain_or_opens _ _ _ Hnone Hret) as [(Hext & Hc & _) | Ho].
  - split; [| split; [by apply stable_extends | apply Hext]].
    apply nested_unfold. by rewrite Hc, Hnone.
  - destruct Ho as (Hext & _ & Hfin & c & Hc & Hoff & Hpre & _ & Hcc & _).
    split; [| split; [by apply stable_extends | apply Hext]].
    apply nested_unfold. rewrite Hc. split; [exact Hpre |]. split; [exact Hoff |].
    split; [congruence |]. apply nested_unfold. by rewrite Hcc.
Qed.

Lemma stable_prefix b b' :
  stable b b' -> (length (raw b) <= length (raw b'))%nat ->
  forall l, l `prefix_of` raw b -> (length l <= Z.to_nat (offset b))%nat ->
  l `prefix_of` raw b'.
Proof.
  intros [Ht _] Hlen l [k Hk] Hl.
  exists (drop (length l) (raw b')).
  rewrite <- (take_drop (length l) (raw b')) at 1. f_equal.
  assert (E : take (length l) (take (Z.to_nat (offset b)) (raw b')) =
              take (length l) (take (Z.to_nat (offset b)) (raw b))) by (by rewrite Ht).
  rewrite !take_take in E. rewrite !Nat.min_l in E by lia.
  rewrite E, Hk. by rewrite take_app_length.
Qed.

Lemma perform_stable a : forall b b',
  coherent b -> nested b -> perform a b = Returned b' ->
  nested b' /\ stable b b' /\ (length (raw b) <= length (raw b'))%nat.
Proof.
  induction a as [op | | | | a IH]; intros b b' Hco Hne Hret; simpl in Hret.
  - destruct (run_stable op b b' Hco Hret) as (Hn' & Hs & Hp).
    split; [exact Hn' |]. split; [exact Hs | by apply prefix_length].
  - destruct (Finish_open_builder _ _ Hret) as [Hf Hi].
    apply coherent_unfold in Hco as [Hres Hch].
    assert (Hnone : child b = None).
    { destruct (child b); [| done]. destruct Hch. congruence. }
    rewrite Finish_bytes in Hret by done. injection Hret as <-.
    destruct Hres as [H0 H4].
    assert (Hn : (Z.to_nat (offset b) + 4 <= length (raw b))%nat)
      by (unfold len in H4; lia).
    assert (Ht : length (take (Z.to_nat (offset b)) (raw b)) = Z.to_nat (offset b))
      by (rewrite length_take; lia).
    split; [apply nested_unfold; simpl; by rewrite Hnone |].
    unfold stable. cbn [raw offset with_raw with_finished].
    split; [split |].
    + by rewrite take_app_length'.
    + rewrite drop_app_ge by lia. rewrite Ht.
      replace (Z.to_nat (offset b) + 4 - Z.to_nat (offset b))%nat with 4%nat by lia.
      cbn [drop]. rewrite drop_0.
      by apply prefix_app_r.
    + rewrite length_app, Ht. cbn [length]. rewrite length_app, length_drop.
      cbn [length]. lia.
  - destruct (End_returned b b' (or_introl Hret)) as (c & Hc & _ & _ & _ & ->).
    apply coherent_unfold in Hco as [Hres _].
    apply nested_unfold in Hne. rewrite Hc in Hne. destruct Hne as (Hp & _).
    split; [by apply nested_unfold |].
    split; [by apply stable_extends | by apply prefix_length].
  - destruct (End_returned b b' (or_intror Hret)) as (c & Hc & _ & _ & _ & ->).
    apply coherent_unfold in Hco as [Hres _].
    apply nested_unfold in Hne. rewrite Hc in Hne. destruct Hne as (Hp & _).
    split; [by apply nested_unfold |].
    split; [by apply stable_extends | by apply prefix_length].
  - unfold on_child in Hret. apply coherent_unfold in Hco as [Hres Hch].
    apply nested_unfold in Hne.
    destruct (child b) as [c |] eqn:Ec; [| discriminate].
    destruct Hch as (Hin & Hoff & Hc). destruct Hne as (Hp & Hoc & Hfb & Hnc).
    apply bind_returned in Hret as (c' & Hc' & Hret). injection Hret as <-.
    destruct (IH c c' Hc Hnc Hc') as (Hn' & Hs & Hl).
    split; [| split; [split |]]; cbn [raw offset with_child]; try done.
    apply nested_unfold. cbn [raw child finished with_child].
    destruct (perform_coherent a c c' Hc Hc') as [_ Hoff'].
    split; [| split; [congruence | split; [exact Hfb | exact Hn']]].
    apply (stable_prefix c c' Hs Hl); [exact Hp |]. unfold len in Hoff. lia.
Qed.

Lemma built_nested b : built b -> nested b.
Proof.
  induction 1 as [| a b b' Hb IH Hret | b c _ IH Hc].
  - done.
  - by apply (perform_stable a b b' (built_coherent b Hb) IH).
  - apply nested_unfold in IH. rewrite Hc in IH. apply IH.
Qed.

(** X1. What is written stays written, on the builders that the calls of
    the package make of [NewBson()] when the pointer to a child is used
    while that child is open only. Whatever call returns on such a builder
    (an append, [Finish], the end of a child, or any of these on the open
    child), the offset of the document stays, the bytes before the document
    stay, and the bytes behind its four-byte length prefix are only added
    to; an append leaves the prefix as it is too. *)
Theorem written_bytes_are_stable (a : action) (b b' : Bson) :
  built b -> perform a b = Returned b' ->
  offset b' = offset b /\
  take (Z.to_nat (offset b)) (raw b') = take (Z.to_nat (offset b)) (raw b) /\
  drop (Z.to_nat (offset b) + 4) (raw b) `prefix_of`
    drop (Z.to_nat (offset b) + 4) (raw b') /\
  (forall op, a = act_run op -> raw b `prefix_of` raw b').
Proof.
  intros Hb Hret.
  pose proof (built_coherent b Hb) as Hco.
  destruct (perform_coherent a b b' Hco Hret) as [_ Hoff].
  destruct (perform_stable a b b' Hco (built_nested b Hb) Hret) as (_ & [Ht Hd] & _).
  split; [exact Hoff |]. split; [exact Ht |]. split; [exact Hd |].
  intros op ->. by destruct (run_stable op b b' Hco Hret) as (_ & _ & Hp).
Qed.

Lemma written_bytes_are_stable_witness :
  offset null_builder = offset NewBson /\
  take (Z.to_nat (offset NewBson)) (raw null_builder) =
    take (Z.to_nat (offset NewBson)) (raw NewBson) /\
  drop (Z.to_nat (offset NewBson) + 4) (raw NewBson) `prefix_of`
    drop (Z.to_nat (offset NewBson) + 4) (raw null_builder) /\
  (forall op, act_run (op_AppendNull "a") = act_run op ->
     raw NewBson `prefix_of` raw null_builder).
Proof.
  apply (written_bytes_are_stable (act_run (op_AppendNull "a")) NewBson).
  - apply built_NewBson.
  - reflexivity.
Defined.

(** X2. The invariant of the builders that the calls of the package make
    of [NewBson()] when the pointer to a child is used while that child is
    open only: the four bytes of the length prefix are in the buffer,
    [inChild] is set exactly when there is a child, and then the builder is
    not finished and the child's document starts right behind the bytes of
    the builder, which the child's buffer begins with. *)
Theorem builder_invariant (b : Bson) :
  built b ->
  (0 <= offset b /\ offset b + 4 <= len (raw b)) /\
  (inChild b = true <-> is_Some (child b)) /\
  (forall c, child b = Some c ->
     finished b = false /\ offset c = len (raw b) /\ raw b `prefix_of` raw c).
Proof.
  intros Hb. pose proof (built_nested b Hb) as Hne.
  apply built_coherent, coherent_unfold in Hb as [Hres Hch].
  apply nested_unfold in Hne.
  split; [exact Hres |]. destruct (child b) as [c |].
  - destruct Hch as (Hin & _). destruct Hne as (Hp & Hoff & Hf & _).
    split; [split; [by eexists | done] |].
    by intros ? [= <-].
  - split; [| discriminate]. rewrite Hch.
    split; [discriminate | by intros []].
Qed.

Lemma builder_invariant_witness :
  (0 <= offset child_finished /\ offset child_finished + 4 <= len (raw child_finished)) /\
  (inChild child_finished = true <-> is_Some (child child_finished)) /\
  (forall c, child child_finished = Some c ->
     finished child_finished = false /\ offset c = len (raw child_finished) /\
     raw child_finished `prefix_of` raw c).
Proof.
  apply builder_invariant.
  apply (built_perform (act_child act_Finish) (Build_Bson [0; 0; 0; 0; 3; 110; 0] 0
           (Some (Build_Bson [0; 0; 0; 0; 3; 110; 0; 0; 0; 0; 0] 7 None false false))
           true false)).
  - apply (built_perform (act_run (op_AppendBsonStart "n")) NewBson).
    + apply built_NewBson.
    + reflexivity.
  - reflexivity.
Defined.

Lemma sealed b : finished b = true -> inChild b = false ->
  (forall op, panics (run op b) = true) /\ panics (Finish b) = true /\
  panics (AppendBsonEnd b) = true /\ panics (AppendArrayEnd b) = true.
Proof.
  intros Hf Hi. split; [| split; [| split]].
  - intros op. apply run_closed. by left.
  - unfold Finish, checkBeforeAppend. by rewrite Hf.
  - unfold AppendBsonEnd. by rewrite Hi.
  - unfold AppendArrayEnd. by rewrite Hi.
Qed.

(** X3. On a builder that the calls of the package make of [NewBson()]
    when the pointer to a child is used while that child is open only,
    [Finish] returns exactly when the builder is neither finished nor in a
    child; it then appends the terminator and overwrites the four bytes of
    the prefix with the length of the document, touches nothing else, and
    leaves a builder on which every append, [Finish], [AppendBsonEnd] and
    [AppendArrayEnd] panics. *)
Theorem Finish_seals_the_document (b : Bson) :
  built b ->
  returns (Finish b) = negb (finished b) && negb (inChild b) /\
  (forall b', Finish b = Returned b' ->
     raw b' = take (Z.to_nat (offset b)) (raw b) ++
              int32_payload (len (raw b) + 1 - offset b) ++
              drop (Z.to_nat (offset b) + 4) (raw b) ++ [eod] /\
     offset b' = offset b /\ finished b' = true /\
     (forall op, panics (run op b') = true) /\ panics (Finish b') = true /\
     panics (AppendBsonEnd b') = true /\ panics (AppendArrayEnd b') = true).
Proof.
  intros Hb. pose proof (built_reserved b Hb) as Hres.
  split.
  - destruct (finished b) eqn:Ef; [unfold Finish, checkBeforeAppend; by rewrite Ef |].
    destruct (inChild b) eqn:Ei; [unfold Finish, checkBeforeAppend; by rewrite Ef, Ei |].
    by rewrite Finish_bytes.
  - intros b' Hret. destruct (Finish_open_builder _ _ Hret) as [Hf Hi].
    rewrite Finish_bytes in Hret by done. injection Hret as <-.
    split; [reflexivity |]. split; [reflexivity |]. split; [reflexivity |].
    by apply sealed.
Qed.

Lemma Finish_seals_the_document_witness :
  returns (Finish NewBson) = negb (finished NewBson) && negb (inChild NewBson) /\
  (forall b', Finish NewBson = Returned b' ->
     raw b' = take (Z.to_nat (offset NewBson)) (raw NewBson) ++
              int32_payload (len (raw NewBson) + 1 - offset NewBson) ++
              drop (Z.to_nat (offset NewBson) + 4) (raw NewBson) ++ [eod] /\
     offset b' = offset NewBson /\ finished b' = true /\
     (forall op, panics (run op b') = true) /\ panics (Finish b') = true /\
     panics (AppendBsonEnd b') = true /\ panics (AppendArrayEnd b') = true).
Proof. apply Finish_seals_the_document, built_NewBson. Defined.

(** ** Appends do not depend on the builder *)





(** ** The integers of at most 32 bits *)

Lemma narrowed_fits name v b :
  fits_int32 v -> narrowed name v b = element BsonTypeInt32 name (int32_payload v) b.
Proof. intros H. unfold narrowed. by rewrite bool_decide_eq_true_2. Qed.

Lemma AppendInt32_fits name v b :
  finished b = false -> inChild b = false -> fits_int32 v ->
  AppendInt32 name (to_int32 v) b = Returned (narrowed name v b).
Proof.
  intros Hf Hc Hv. rewrite to_int32_fits by done.
  rewrite AppendInt32_open by done. by rewrite narrowed_fits.
Qed.

Lemma to_int32_high v : MaxInt32 < v < 2 ^ 32 -> to_int32 v < 0.
Proof.
  unfold to_int32, MaxInt32. intros H.
  replace (v + 2 ^ 31) with ((v - 2 ^ 31) + 1 * 2 ^ 32) by lia.
  rewrite Z.mod_add by lia. rewrite Z.mod_small; lia.
Qed.

(** X7. The integers of at most 32 bits under the generic append: an
    int8, int16, int32, uint8 or uint16 is always stored as an Int32, and a
    uint32 as an Int32 up to [MaxInt32] and as an Int64 above, which the
    code decides by the sign of its conversion to int32. In every case the
    element is the one that the narrowing rule prescribes for the value. *)
Theorem Append_small_integers (name : string) (val : value) (v : Z) (b : Bson) :
  narrow_integer val v -> finished b = false -> inChild b = false ->
  Append name val b = Returned (narrowed name v b) /\
  (appended_tag b (narrowed name v b) = Some BsonTypeInt32 <-> v <= MaxInt32) /\
  (appended_tag b (narrowed name v b) = Some BsonTypeInt64 <-> MaxInt32 < v) /\
  (MaxInt32 < v -> val = V_uint32 v).
Proof.
  intros Hval Hf Hc.
  assert (Hlow : MinInt32 <= v).
  { destruct Hval; unfold in_int, in_uint, MinInt32 in *; lia. }
  destruct (narrowed_tag name v b) as [H32 H64].
  split; [| split; [| split]].
  - destruct Hval as [v H | v H | v H | v H | v H | v H]; cbn [Append].
    1, 2, 4, 5: apply AppendInt32_fits; [done | done |];
      unfold in_int, in_uint, fits_int32, MinInt32, MaxInt32 in *; lia.
    + rewrite AppendInt32_open by done. rewrite narrowed_fits; [done |].
      unfold in_int, fits_int32, MinInt32, MaxInt32 in *. lia.
    + unfold in_uint in H. destruct (decide (v <= MaxInt32)) as [Hle | Hgt].
      * rewrite bool_decide_eq_false_2
          by (rewrite to_int32_fits; unfold fits_int32, MinInt32 in *; lia).
        apply AppendInt32_fits; [done | done | split; [exact Hlow | exact Hle]].
      * rewrite bool_decide_eq_true_2 by (apply to_int32_high; lia).
        rewrite to_int64_in_range by (unfold in_int; lia).
        rewrite AppendInt64_open by done. unfold narrowed.
        rewrite bool_decide_eq_false_2; [done |]. unfold fits_int32. lia.
  - rewrite H32. unfold fits_int32. lia.
  - rewrite H64. unfold fits_int32. lia.
  - intros Hgt. destruct Hval; unfold in_int, in_uint, MaxInt32 in *; try lia. done.
Qed.

Lemma Append_small_integers_witness :
  Append "a" (V_uint32 4294967295) NewBson = Returned (narrowed "a" 4294967295 NewBson) /\
  (appended_tag NewBson (narrowed "a" 4294967295 NewBson) = Some BsonTypeInt32 <->
   4294967295 <= MaxInt32) /\
  (appended_tag NewBson (narrowed "a" 4294967295 NewBson) = Some BsonTypeInt64 <->
   MaxInt32 < 4294967295) /\
  (MaxInt32 < 4294967295 -> V_uint32 4294967295 = V_uint32 4294967295).
Proof.
  apply Append_small_integers.
  - apply narrow_uint32. unfold in_uint. lia.
  - reflexivity.
  - reflexivity.
Defined.

(** ** The byte-order service *)

Lemma little_endian_8 v :
  Z_to_little_endian 8 8 v =
  [to_byte v; to_byte (v ≫ 8); to_byte (v ≫ 16); to_byte (v ≫ 24);
   to_byte (v ≫ 32); to_byte (v ≫ 40); to_byte (v ≫ 48); to_byte (v ≫ 56)].
Proof.
  change 8 with (Z.succ (Z.succ (Z.succ (Z.succ (Z.succ (Z.succ (Z.succ (Z.succ 0)))))))) at 1.
  rewrite !Z_to_little_endian_succ, Z_to_little_endian_0 by lia.
  rewrite !Z.land_ones, !Z.shiftr_shiftr by lia. reflexivity.
Qed.

Lemma int64_bytes u v :
  u mod 2 ^ 64 = v mod 2 ^ 64 ->
  [to_byte u; to_byte (u ≫ 8); to_byte (u ≫ 16); to_byte (u ≫ 24);
   to_byte (u ≫ 32); to_byte (u ≫ 40); to_byte (u ≫ 48); to_byte (u ≫ 56)] =
  Z_to_little_endian 8 8 v.
Proof.
  intros H. rewrite little_endian_8.
  rewrite (to_byte_congr 64 _ _ H), !(to_byte_shiftr_congr 64 _ _ _ H) by lia.
  reflexivity.
Qed.

Lemma int32_bytes u v :
  u mod 2 ^ 32 = v mod 2 ^ 32 ->
  [to_byte u; to_byte (u ≫ 8); to_byte (u ≫ 16); to_byte (u ≫ 24)] =
  Z_to_little_endian 4 8 v.
Proof.
  intros H. rewrite little_endian_4.
  rewrite (to_byte_congr 32 _ _ H), !(to_byte_shiftr_congr 32 _ _ _ H) by lia.
  reflexivity.
Qed.

Lemma append_digits (b : list Z) (v : Z) (f : float64) :
  littleEndian_AppendInt32 b v = b ++ Z_to_little_endian 4 8 v /\
  bigEndian_AppendInt32 b v = b ++ reverse (Z_to_little_endian 4 8 v) /\
  littleEndian_AppendInt64 b v = b ++ Z_to_little_endian 8 8 v /\
  bigEndian_AppendInt64 b v = b ++ reverse (Z_to_little_endian 8 8 v) /\
  littleEndian_AppendFloat64 b f = b ++ Z_to_little_endian 8 8 (Float64bits f) /\
  bigEndian_AppendFloat64 b f = b ++ reverse (Z_to_little_endian 8 8 (Float64bits f)).
Proof.
  unfold littleEndian_AppendFloat64, bigEndian_AppendFloat64,
    littleEndian_AppendInt32, bigEndian_AppendInt32,
    littleEndian_AppendInt64, bigEndian_AppendInt64.
  pose proof (to_uint32_mod v) as H32. pose proof (to_uint64_mod v) as H64.
  assert (Hf : to_uint64 (to_int64 (Float64bits f)) mod 2 ^ 64 = Float64bits f mod 2 ^ 64)
    by (by rewrite to_uint64_mod, to_int64_mod64).
  rewrite <- (int32_bytes _ _ H32), <- (int64_bytes _ _ H64), <- (int64_bytes _ _ Hf).
  repeat split.
Qed.

(** X8. The bytes that the byte-order service appends are the base-256
    digits of the two's complement of the value (of the bit pattern, for a
    float): least significant first for [LittleEndian], most significant
    first for [BigEndian]. *)
Theorem ByteOrder_appends_the_digits (b : list Z) (v : Z) (f : float64) :
  ByteOrder_AppendInt32 LittleEndian b v = b ++ Z_to_little_endian 4 8 v /\
  ByteOrder_AppendInt32 BigEndian b v = b ++ reverse (Z_to_little_endian 4 8 v) /\
  ByteOrder_AppendInt64 LittleEndian b v = b ++ Z_to_little_endian 8 8 v /\
  ByteOrder_AppendInt64 BigEndian b v = b ++ reverse (Z_to_little_endian 8 8 v) /\
  ByteOrder_AppendFloat64 LittleEndian b f = b ++ Z_to_little_endian 8 8 (Float64bits f) /\
  ByteOrder_AppendFloat64 BigEndian b f =
    b ++ reverse (Z_to_little_endian 8 8 (Float64bits f)).
Proof. exact (append_digits b v f). Qed.

Lemma to_int64_mod v : to_int64 (v mod 2 ^ 64) = to_int64 v.
Proof.
  unfold to_int64.
  rewrite <- (Zplus_mod_idemp_l v). reflexivity.
Qed.

Lemma digits_inj_32 v v' :
  in_int 32 v -> in_int 32 v' ->
  Z_to_little_endian 4 8 v = Z_to_little_endian 4 8 v' -> v = v'.
Proof.
  intros Hv Hv' H. apply (f_equal (little_endian_to_Z 8)) in H.
  rewrite !little_endian_to_Z_to_little_endian in H by lia.
  change (4 * 8) with 32 in H.
  assert (E : to_int32 v = to_int32 v') by (by rewrite <- (to_int32_mod v), H, to_int32_mod).
  rewrite !to_int32_fits in E; unfold in_int, fits_int32, MinInt32, MaxInt32 in *; lia.
Qed.

Lemma digits_inj_64 v v' :
  in_int 64 v -> in_int 64 v' ->
  Z_to_little_endian 8 8 v = Z_to_little_endian 8 8 v' -> v = v'.
Proof.
  intros Hv Hv' H. apply (f_equal (little_endian_to_Z 8)) in H.
  rewrite !little_endian_to_Z_to_little_endian in H by lia.
  change (8 * 8) with 64 in H.
  assert (E : to_int64 v = to_int64 v') by (by rewrite <- (to_int64_mod v), H, to_int64_mod).
  by rewrite !to_int64_in_range in E.
Qed.

(** X9. In either byte order, two int32 values, or two int64 values, that
    are appended as the same bytes are the same value. *)
Theorem ByteOrder_encoding_is_lossless (order : ByteOrder) (b : list Z) (v v' : Z) :
  order = LittleEndian \/ order = BigEndian ->
  (in_int 32 v -> in_int 32 v' ->
   ByteOrder_AppendInt32 order b v = ByteOrder_AppendInt32 order b v' -> v = v') /\
  (in_int 64 v -> in_int 64 v' ->
   ByteOrder_AppendInt64 order b v = ByteOrder_AppendInt64 order b v' -> v = v').
Proof.
  intros Horder.
  destruct (append_digits b v {| Float64bits := 0 |}) as (L32 & B32 & L64 & B64 & _).
  destruct (append_digits b v' {| Float64bits := 0 |}) as (L32' & B32' & L64' & B64' & _).
  destruct Horder as [-> | ->];
    cbn [ByteOrder_AppendInt32 ByteOrder_AppendInt64 LittleEndian BigEndian].
  - rewrite L32, L32', L64, L64'. split; intros Hv Hv' H; apply app_inv_head in H.
    + by apply digits_inj_32.
    + by apply digits_inj_64.
  - rewrite B32, B32', B64, B64'. split; intros Hv Hv' H; apply app_inv_head in H;
      apply (inj reverse) in H.
    + by apply digits_inj_32.
    + by apply digits_inj_64.
Qed.

Lemma ByteOrder_encoding_is_lossless_witness :
  (in_int 32 (-1) -> in_int 32 (-1) ->
   ByteOrder_AppendInt32 BigEndian [7] (-1) = ByteOrder_AppendInt32 BigEndian [7] (-1) ->
   -1 = -1) /\
  (in_int 64 (-1) -> in_int 64 (-1) ->
   ByteOrder_AppendInt64 BigEndian [7] (-1) = ByteOrder_AppendInt64 BigEndian [7] (-1) ->
   -1 = -1).
Proof. apply ByteOrder_encoding_is_lossless. by right. Defined.

(** X10. In either byte order, [SetInt32] returns exactly when the four
    bytes from [pos] on are inside the slice (it panics otherwise), and
    then it overwrites them with the bytes that [AppendInt32] appends for
    the same value, and leaves every other byte and the length alone. *)
Theorem SetInt32_writes_what_AppendInt32_appends
    (order : ByteOrder) (b : list Z) (pos v : Z) :
  order = LittleEndian \/ order = BigEndian ->
  returns (ByteOrder_SetInt32 order b pos v) = bool_decide (0 <= pos /\ pos + 4 <= len b) /\
  (0 <= pos -> pos + 4 <= len b ->
   ByteOrder_SetInt32 order b pos v =
   Returned (ByteOrder_AppendInt32 order (take (Z.to_nat pos) b) v ++
             drop (Z.to_nat pos + 4) b)).
Proof.
  intros [-> | ->];
    cbn [ByteOrder_AppendInt32 ByteOrder_SetInt32 LittleEndian BigEndian];
    unfold littleEndian_SetInt32, bigEndian_SetInt32,
      littleEndian_AppendInt32, bigEndian_AppendInt32.
  all: split; [apply set_index_4_returns |].
  all: intros Hpos Hlen; rewrite set_index_4 by done; f_equal.
  all: rewrite <- app_assoc; f_equal; f_equal.
  all: pose proof (to_uint32_mod v) as H.
  all: rewrite (to_byte_congr 32 _ _ H), !(to_byte_shiftr_congr 32 _ _ _ H) by lia.
  all: reflexivity.
Qed.

Lemma SetInt32_writes_what_AppendInt32_appends_witness :
  returns (ByteOrder_SetInt32 BigEndian [1; 2; 3; 4; 5; 6] 1 (-2)) =
    bool_decide (0 <= 1 /\ 1 + 4 <= len [1; 2; 3; 4; 5; 6]) /\
  (0 <= 1 -> 1 + 4 <= len [1; 2; 3; 4; 5; 6] ->
   ByteOrder_SetInt32 BigEndian [1; 2; 3; 4; 5; 6] 1 (-2) =
   Returned (ByteOrder_AppendInt32 BigEndian (take (Z.to_nat 1) [1; 2; 3; 4; 5; 6]) (-2) ++
             drop (Z.to_nat 1 + 4) [1; 2; 3; 4; 5; 6])).
Proof. apply SetInt32_writes_what_AppendInt32_appends. by right. Defined.

(** X11. [init] selects the byte order of the host: on every host whose
    [int] has at least three bytes (Go's have four or eight), the probe of
    the first byte of 0x1234 leaves [BigEndian] in [byteOrder] on a
    big-endian host and [LittleEndian] on a little-endian one. *)
Theorem init_detects_the_host (h : host) :
  3 <= sizeof_int h ->
  init h = Returned (match order_of h with
                     | BigEndianHost => BigEndian
                     | LittleEndianHost => LittleEndian
                     end).
Proof.
  intros Hsize. unfold init, memory_of_int.
  set (n := Z.to_nat (sizeof_int h)).
  set (le := (fun i => to_byte (4660 ≫ (8 * Z.of_nat i))) <$> seq 0 n).
  assert (Hn : (3 <= n)%nat) by (subst n; lia).
  assert (Hlen : length le = n) by (subst le; by rewrite length_fmap, length_seq).
  destruct (order_of h).
  - rewrite (index_lookup le 0 52).
    + reflexivity.
    + lia.
    + subst le. rewrite list_lookup_fmap, lookup_seq_lt by lia. reflexivity.
  - rewrite (index_lookup (reverse le) 0 0).
    + reflexivity.
    + lia.
    + rewrite reverse_lookup by lia. subst le.
      rewrite list_lookup_fmap, Hlen, lookup_seq_lt by lia. cbn [fmap option_fmap option_map].
      f_equal. unfold to_byte. rewrite Z.shiftr_div_pow2 by lia.
      rewrite Z.div_small; [reflexivity |].
      split; [lia |]. apply Z.lt_le_trans with (2 ^ 16); [lia |].
      apply Z.pow_le_mono_r; lia.
Qed.

Lemma init_detects_the_host_witness :
  init {| order_of := BigEndianHost; sizeof_int := 4 |} = Returned BigEndian.
Proof.
  apply (init_detects_the_host {| order_of := BigEndianHost; sizeof_int := 4 |}).
  simpl. lia.
Defined.

(** ** Reading from a stream *)

Import binary io sdb.

Lemma ReadFull_enough r n :
  0 <= n <= len (unread r) ->
  ReadFull r n =
  (take (Z.to_nat n) (unread r), {| unread := drop (Z.to_nat n) (unread r) |}, None).
Proof. intros H. unfold ReadFull. by rewrite bool_decide_eq_true_2 by lia. Qed.

Lemma ReadFull_len r n buf r' err :
  0 <= n -> ReadFull r n = (buf, r', err) -> len buf = n.
Proof.
  intros Hn. unfold ReadFull. case_bool_decide as Hle; intros [= <- <- <-].
  - unfold len in *. rewrite length_take. lia.
  - rewrite len_app, len_make by lia. lia.
Qed.

Lemma ReadFull_error r n buf r' e :
  ReadFull r n = (buf, r', Some e) -> e = EOF \/ e = ErrUnexpectedEOF.
Proof.
  unfold ReadFull. case_bool_decide; intros [= <- <- <-].
  case_bool_decide; auto.
Qed.

Lemma get_in_range order n b off :
  0 <= off -> off + Z.of_nat n <= len b ->
  get order n b off = Returned (decode order (take n (drop (Z.to_nat off) b))).
Proof. intros H1 H2. unfold get. by rewrite bool_decide_eq_true_2. Qed.

(** ** The reply to the system-info probe *)

Lemma SysInfoMsgHeader_Decode_returns h0 r order h r1 err :
  SysInfoMsgHeader.Decode h0 r order = Returned (h, r1, err) ->
  r1 = (ReadFull r 12).1.2.
Proof.
  unfold SysInfoMsgHeader.Decode.
  destruct (ReadFull r 12) as [[buf r'] [e |]] eqn:E; simpl.
  - by intros [= <- <- <-].
  - pose proof (ReadFull_len _ 12 _ _ _ ltac:(lia) E) as Hlen.
    unfold Uint32. rewrite !get_in_range by (simpl; lia). simpl.
    by intros [= <- <- <-].
Qed.

(** C10. Once the header is decoded, [SysInfoReply.Decode] answers "invalid
    sysinfo reply size" for every header whose [Length] is not 128; it then
    leaves the stream where the header ended and [OSType] as it was. With
    [Length] 128 it reads the 116 bytes of the body, and the error is not
    that one. *)
Theorem SysInfoReply_Decode_size_check
    (m : SysInfoReply.t) (r r1 : Reader) (order : ByteOrder) (h : SysInfoMsgHeader.t) :
  SysInfoMsgHeader.Decode (SysInfoReply.Header m) r order = Returned (h, r1, None) ->
  (SysInfoMsgHeader.Length h <> sysInfoReplySize ->
   SysInfoReply.Decode m r order =
   Returned ({| SysInfoReply.Header := h; SysInfoReply.OSType := SysInfoReply.OSType m |},
             r1, Some invalid_sysinfo_reply_size)) /\
  (SysInfoMsgHeader.Length h = sysInfoReplySize ->
   exists m' err,
     SysInfoReply.Decode m r order = Returned (m', (ReadFull r1 116).1.2, err) /\
     err <> Some invalid_sysinfo_reply_size /\
     (116 <= len (unread r1) ->
      err = None /\ unread (ReadFull r1 116).1.2 = drop 116 (unread r1) /\
      SysInfoReply.OSType m' = to_int32 (decode order (take 4 (unread r1))))).
Proof.
  intros Hh. unfold SysInfoReply.Decode. rewrite Hh. simpl. split.
  - intros Hne. by rewrite bool_decide_eq_false_2.
  - intros Heq. rewrite bool_decide_eq_true_2 by done. simpl.
    change (sysInfoReplySize - sysInfoMsgHeaderSize) with 116.
    destruct (ReadFull r1 116) as [[buf r2] [e |]] eqn:E; simpl.
    + eexists _, _. split; [reflexivity |]. split.
      * apply ReadFull_error in E. destruct E as [-> | ->]; discriminate.
      * intros Hlen. rewrite ReadFull_enough in E by lia. discriminate E.
    + pose proof (ReadFull_len _ 116 _ _ _ ltac:(lia) E) as Hlen.
      unfold Uint32. rewrite get_in_range by (simpl; lia). simpl.
      eexists _, _. split; [reflexivity |]. split; [discriminate |].
      intros Hlen1. rewrite ReadFull_enough in E by lia.
      injection E as <- <-. simpl. split; [done |]. split; [done |].
      do 2 f_equal. change (Z.to_nat 0) with 0%nat. rewrite drop_0, take_take.
      reflexivity.
Qed.

Lemma SysInfoReply_Decode_size_check_witness :
  SysInfoReply.Decode unread_reply short_sysinfo_reply LittleEndian =
  Returned ({| SysInfoReply.Header := sysinfo_header 12; SysInfoReply.OSType := 5 |},
            {| unread := [1; 2; 3] |}, Some invalid_sysinfo_reply_size) /\
  (exists m' err,
     SysInfoReply.Decode unread_reply full_sysinfo_reply LittleEndian =
     Returned (m', (ReadFull {| unread := sysinfo_body |} 116).1.2, err) /\
     err <> Some invalid_sysinfo_reply_size /\
     (116 <= len sysinfo_body ->
      err = None /\
      unread (ReadFull {| unread := sysinfo_body |} 116).1.2 = drop 116 sysinfo_body /\
      SysInfoReply.OSType m' = to_int32 (decode LittleEndian (take 4 sysinfo_body)))).
Proof.
  split.
  - apply (proj1 (SysInfoReply_Decode_size_check unread_reply short_sysinfo_reply
                    {| unread := [1; 2; 3] |} LittleEndian (sysinfo_header 12) eq_refl)).
    vm_compute. discriminate.
  - apply (proj2 (SysInfoReply_Decode_size_check unread_reply full_sysinfo_reply
                    {| unread := sysinfo_body |} LittleEndian (sysinfo_header 128) eq_refl)).
    reflexivity.
Defined.

(** ** The reply to an operation *)

Lemma to_int32_range v : fits_int32 (to_int32 v).
Proof.
  unfold fits_int32, to_int32, MinInt32, MaxInt32.
  pose proof (Z.mod_pos_bound (v + 2 ^ 31) (2 ^ 32)). lia.
Qed.

Lemma MsgHeader_Decode_length h0 r order h r1 :
  MsgHeader.Decode h0 r order = Returned (h, r1, None) ->
  fits_int32 (MsgHeader.Length h).
Proof.
  unfold MsgHeader.Decode.
  destruct (ReadFull r msgHeaderSize) as [[buf r'] [e |]] eqn:E; simpl; [discriminate |].
  pose proof (ReadFull_len _ 28 _ _ _ ltac:(lia) E) as Hlen.
  unfold Uint32, Uint64. rewrite !get_in_range by (simpl; lia). simpl.
  intros [= <- <-]. simpl. apply to_int32_range.
Qed.

Lemma ReplyMsg_Size m : ReplyMsg.Size m = 48.
Proof. reflexivity. Qed.

Section ReplyDecode.

Variable Bson_String : Bson -> outcome string.
Variables (m : ReplyMsg.t) (r r1 : Reader) (order : ByteOrder) (h : MsgHeader.t).
Hypothesis header_decoded :
  MsgHeader.Decode (ReplyMsg.Header m) r order = Returned (h, r1, None).

Lemma ReplyMsg_Decode_short :
  MsgHeader.Length h < 48 ->
  ReplyMsg.Decode Bson_String m r order =
  Returned (ReplyMsg.with_Header h m, r1,
            Some (invalid_msg_length 48 (MsgHeader.Length h))).
Proof.
  intros Hlt. unfold ReplyMsg.Decode. rewrite header_decoded. simpl.
  rewrite ReplyMsg_Size. by rewrite bool_decide_eq_true_2.
Qed.

Lemma ReplyMsg_Decode_body :
  48 <= MsgHeader.Length h -> 20 <= len (unread r1) ->
  let body := take 20 (unread r1) in
  let rest := drop 20 (unread r1) in
  let m1 := reply_of_body order m h body in
  let tail := MsgHeader.Length h - 48 in
  ReplyMsg.Decode Bson_String m r order =
  if bool_decide (ReplyMsg.Flags m1 = 0) then Returned (m1, {| unread := rest |}, None)
  else
    let '(buf, r2, err) := ReadFull {| unread := rest |} tail in
    match err with
    | Some e => Returned (m1, r2, Some e)
    | None => s ← Bson_String (NewBsonWithRaw buf);
              Returned (ReplyMsg.with_Error s m1, r2, None)
    end.
Proof.
  intros Hge Hlen body rest m1 tail.
  pose proof (MsgHeader_Decode_length _ _ _ _ _ header_decoded) as Hfit.
  unfold ReplyMsg.Decode. rewrite header_decoded. simpl.
  rewrite !ReplyMsg_Size. rewrite bool_decide_eq_false_2 by lia.
  rewrite ReadFull_enough by lia. simpl.
  assert (Hbody : len body = 20).
  { subst body. unfold len in *. rewrite length_take. lia. }
  change (Z.to_nat 20) with 20%nat. fold body. fold rest.
  unfold Uint32, Uint64.
  rewrite !get_in_range by (rewrite ?Hbody; simpl; lia). simpl.
  change (Z.to_nat 0) with 0%nat. rewrite drop_0.
  change (Z.to_nat 8) with 8%nat. change (Z.to_nat 12) with 12%nat.
  change (Z.to_nat 16) with 16%nat.
  fold (reply_of_body order m h body). fold m1.
  rewrite ReplyMsg_Size.
  rewrite (to_int32_fits (MsgHeader.Length h - 48))
    by (unfold fits_int32, MinInt32, MaxInt32 in *; lia).
  reflexivity.
Qed.

Lemma ReplyMsg_Decode_long m' r' expect actual :
  48 <= MsgHeader.Length h ->
  ReplyMsg.Decode Bson_String m r order <>
  Returned (m', r', Some (invalid_msg_length expect actual)).
Proof.
  intros Hge. unfold ReplyMsg.Decode. rewrite header_decoded. simpl.
  rewrite !ReplyMsg_Size. rewrite bool_decide_eq_false_2 by lia.
  destruct (ReadFull r1 20) as [[buf r2] [e |]] eqn:E.
  - apply ReadFull_error in E. destruct E as [-> | ->]; discriminate.
  - pose proof (ReadFull_len _ 20 _ _ _ ltac:(lia) E) as Hbuf.
    unfold Uint32, Uint64.
    rewrite !get_in_range by (rewrite ?Hbuf; simpl; lia). simpl.
    case_bool_decide; [discriminate |].
    rewrite ReplyMsg_Size.
    destruct (ReadFull r2 _) as [[buf' r3] [e |]] eqn:E'.
    + apply ReadFull_error in E'. destruct E' as [-> | ->]; discriminate.
    + destruct (Bson_String (NewBsonWithRaw buf')); simpl; discriminate.
Qed.

End ReplyDecode.

(** C8. Once the header is decoded, [ReplyMsg.Decode] fails with the
    invalid-length error exactly when the header's [Length] is below 48,
    the size of the header plus 20. With [Length] at least 48 it reads the
    20 bytes of the fixed body; if the flags decoded from them are zero it
    stops there, and if they are not it reads the [Length - 48] bytes that
    follow as a document, whose rendering as a string becomes [Error]. *)
Theorem ReplyMsg_Decode_length_and_flags
    (Bson_String : Bson -> outcome string)
    (m : ReplyMsg.t) (r r1 : Reader) (order : ByteOrder) (h : MsgHeader.t) :
  MsgHeader.Decode (ReplyMsg.Header m) r order = Returned (h, r1, None) ->
  ((exists m' r' expect actual,
      ReplyMsg.Decode Bson_String m r order =
      Returned (m', r', Some (invalid_msg_length expect actual)))
   <-> MsgHeader.Length h < 48) /\
  (48 <= MsgHeader.Length h -> 20 <= len (unread r1) ->
   let body := take 20 (unread r1) in
   let rest := drop 20 (unread r1) in
   let m1 := reply_of_body order m h body in
   let tail := Z.to_nat (MsgHeader.Length h - 48) in
   (ReplyMsg.Flags m1 = 0 ->
    ReplyMsg.Decode Bson_String m r order = Returned (m1, {| unread := rest |}, None)) /\
   (ReplyMsg.Flags m1 <> 0 -> MsgHeader.Length h - 48 <= len rest ->
    ReplyMsg.Decode Bson_String m r order =
    (s ← Bson_String (NewBsonWithRaw (take tail rest));
     Returned (ReplyMsg.with_Error s m1, {| unread := drop tail rest |}, None)))).
Proof.
  intros Hh. split.
  - split.
    + intros (m' & r' & expect & actual & H).
      destruct (decide (MsgHeader.Length h < 48)) as [| Hge]; [done |].
      exfalso. revert H. apply ReplyMsg_Decode_long with (r1 := r1) (h := h); [done | lia].
    + intros Hlt. eexists _, _, _, _. by apply ReplyMsg_Decode_short.
  - intros Hge Hlen body rest m1 tail.
    rewrite (ReplyMsg_Decode_body Bson_String m r r1 order h Hh Hge Hlen).
    fold body. fold rest. fold m1. split.
    + intros Hz. by rewrite bool_decide_eq_true_2.
    + intros Hnz Htail. rewrite bool_decide_eq_false_2 by done.
      rewrite ReadFull_enough by (simpl; lia). reflexivity.
Qed.

Lemma ReplyMsg_Decode_length_and_flags_witness :
  (exists m' r' expect actual,
     ReplyMsg.Decode (fun _ => Returned "{}") empty_reply short_reply LittleEndian =
     Returned (m', r', Some (invalid_msg_length expect actual))) /\
  ReplyMsg.Decode (fun _ => Returned "{}") empty_reply failed_reply LittleEndian =
  Returned (ReplyMsg.with_Error "{}"
              (reply_of_body LittleEndian empty_reply (reply_header 53)
                 (take 20 failed_reply_body)),
            {| unread := [9; 9] |}, None).
Proof.
  split.
  - apply (proj1 (ReplyMsg_Decode_length_and_flags (fun _ => Returned "{}")
                    empty_reply short_reply {| unread := [9; 9] |} LittleEndian
                    (reply_header 47) eq_refl)).
    reflexivity.
  - apply (proj2 (ReplyMsg_Decode_length_and_flags (fun _ => Returned "{}")
                    empty_reply failed_reply {| unread := failed_reply_body |} LittleEndian
                    (reply_header 53) eq_refl)).
    + vm_compute. discriminate.
    + vm_compute. discriminate.
    + vm_compute. discriminate.
    + vm_compute. discriminate.
Defined.

(** ** Validation *)

Lemma slice_returned s lo hi r :
  slice s lo hi = Returned r -> 0 <= lo /\ lo <= hi /\ hi <= len s.
Proof. unfold slice. case_bool_decide; [done | discriminate]. Qed.

(** A step of the iterator that finds an element moves the cursor forward
    within the same buffer, and started inside it. *)
Lemma Next_advances it it' :
  Next it = Returned (true, it') ->
  it_doc it' = it_doc it /\ 0 <= it_pos it < len (it_doc it) /\ it_pos it < it_pos it'.
Proof.
  unfold Next. intros H.
  apply bind_returned in H as (t & Ht & H).
  apply index_returned in Ht as [Hpos _].
  case_bool_decide; [discriminate |].
  apply bind_returned in H as (name & _ & H).
  apply bind_returned in H as (size & _ & H).
  apply bind_returned in H as (v & Hv & H).
  apply slice_returned in Hv as (_ & Hle & _).
  injection H as <-. simpl.
  pose proof (len_nonneg name). split; [done | lia].
Qed.

(** The loop of [Validate] ends within as many turns as the buffer has
    bytes ahead of the cursor, and one more. *)
Lemma Validate_loop_terminates fuel it :
  len (it_doc it) - it_pos it <= Z.of_nat fuel ->
  exists res, Validate_loop (S fuel) it = Some res.
Proof.
  revert it. induction fuel as [| fuel IH]; intros it Hfuel;
    cbn [Validate_loop]; destruct (Next it) as [[[] it'] |] eqn:E; eauto.
  - apply Next_advances in E. lia.
  - apply Next_advances in E as (Hdoc & Hpos & Hadv).
    unfold Name, Value. apply IH. rewrite Hdoc. lia.
Qed.

(** C9. [Validate] returns for every builder, and so for every buffer
    wrapped as a finished document: the result is nil or one of the errors
    "unfinished bson", "invalid bson length" and "invalid bson: ..." for a
    panic that the iteration of a malformed buffer raised. *)
Theorem Validate_never_aborts (b : Bson) :
  exists err, Validate b = Some (Returned err) /\
    (err = None \/
     err = Some (errorString "unfinished bson") \/
     err = Some (errorString "invalid bson length") \/
     exists r, err = Some (errorString ("invalid bson: " +:+ r))).
Proof.
  unfold Validate, Validate_fuel, Validate_body.
  destruct (finished b); cbn -[Validate_loop]; [| eauto 6].
  destruct (bson.Length b) as [l |]; [| eauto 8].
  destruct (Raw b) as [r |] eqn:Hraw; [| eauto 8].
  case_bool_decide; cbn -[Validate_loop]; [| eauto 6].
  unfold Iterator, NewBsonIterator. rewrite Hraw. cbn -[Validate_loop].
  destruct (Validate_loop_terminates (length (raw b))
              {| it_doc := r; it_pos := 4; it_type := BsonTypeEOD;
                 it_name := []; it_value := [] |}) as [res ->].
  - simpl. apply slice_from_returned in Hraw as [Hoff ->].
    rewrite len_drop by done. unfold len. lia.
  - destruct res; eauto 8.
Qed.

(** ** Writing to a stream *)

Lemma Write_nil_error w p w' :
  Write w p = (w', None) -> written w' = written w ++ p.
Proof.
  unfold Write. destruct (room w) as [k |].
  - case_bool_decide; intros [= <-]; done.
  - by intros [= <-].
Qed.

Lemma and_then_nil_error step k w' :
  and_then step k = Returned (w', None) ->
  exists w1, step = Returned (w1, None) /\ k w1 = Returned (w', None).
Proof.
  unfold and_then. destruct step as [[w1 [e |]] |]; simpl; [discriminate | eauto | discriminate].
Qed.

Lemma padding_written w p w' :
  (if bool_decide (p > 0) then Returned (Write w (make p)) else nil_error w)
  = Returned (w', None) ->
  written w' = written w ++ replicate (Z.to_nat p) 0.
Proof.
  case_bool_decide as Hp.
  - intros [= H]. by apply Write_nil_error in H.
  - intros [= <-]. replace (Z.to_nat p) with 0%nat by lia. simpl. by rewrite app_nil_r.
Qed.

(** ** The fixed parts of the frames *)

Lemma length_le_bytes n v : length (le_bytes n v) = n.
Proof. revert v. induction n as [| n IH]; intros v; simpl; [done | by rewrite IH]. Qed.

Lemma length_encode order n v : length (encode order n v) = n.
Proof. destruct order; simpl; by rewrite ?length_reverse, length_le_bytes. Qed.

Lemma put_in_range order n b off v :
  0 <= off -> off + Z.of_nat n <= len b ->
  exists b', put order n b off v = Returned b' /\ len b' = len b.
Proof.
  intros H1 H2. unfold put. rewrite bool_decide_eq_true_2 by done.
  eexists. split; [reflexivity |].
  unfold len in *. rewrite !length_app, length_take, length_drop, length_encode. lia.
Qed.

Ltac put_step :=
  match goal with
  | |- context [put ?order ?n ?b ?off ?v] =>
      let b' := fresh "buf" in
      let E := fresh "E" in
      let L := fresh "L" in
      destruct (put_in_range order n b off v) as (b' & E & L);
      [lia | rewrite ?len_make by lia; simpl; lia |];
      rewrite E; cbn [mbind outcome_bind];
      rewrite ?len_make in L by lia
  end.

Lemma MsgHeader_Encode_spec m w order :
  exists buf, MsgHeader.Encode m w order = Returned (Write w buf) /\ len buf = 28.
Proof.
  unfold MsgHeader.Encode, PutUint32, PutUint64, msgHeaderSize.
  do 5 put_step. eexists. split; [reflexivity | lia].
Qed.

(** ** Alignment *)

Lemma alignedSize_4 n :
  0 <= n -> n + 3 <= MaxInt32 ->
  n <= alignedSize n 4 < n + 4 /\ alignedSize n 4 mod 4 = 0.
Proof.
  intros H0 Hmax. unfold alignedSize.
  replace (n + 4 - 1) with (n + 3) by lia.
  rewrite (to_int32_fits (n + 3)) by (unfold fits_int32, MinInt32, MaxInt32 in *; lia).
  rewrite Z.quot_div_nonneg by lia.
  assert (Hdiv : n <= (n + 3) `div` 4 * 4 < n + 4).
  { pose proof (Z.div_mod (n + 3) 4 ltac:(lia)).
    pose proof (Z.mod_pos_bound (n + 3) 4 ltac:(lia)). lia. }
  rewrite to_int32_fits by (unfold fits_int32, MinInt32, MaxInt32 in *; lia).
  split; [done |]. apply Z.mod_mul. lia.
Qed.

(** The padding behind a name of [n] bytes: between one and four zero
    bytes, up to a multiple of 4. *)
Lemma name_padding n :
  0 <= n -> n + 4 <= MaxInt32 ->
  let p := to_int32 (alignedSize (to_int32 (n + 1)) 4 - n) in
  p = alignedSize (n + 1) 4 - n /\ 1 <= p <= 4 /\ (n + p) mod 4 = 0.
Proof.
  intros H0 Hmax p. subst p.
  rewrite (to_int32_fits (n + 1)) by (unfold fits_int32, MinInt32, MaxInt32 in *; lia).
  destruct (alignedSize_4 (n + 1)) as [Hb Hm]; [lia | lia |].
  rewrite to_int32_fits by (unfold fits_int32, MinInt32, MaxInt32 in *; lia).
  split; [done |]. split; [lia |].
  by replace (n + (alignedSize (n + 1) 4 - n)) with (alignedSize (n + 1) 4) by lia.
Qed.

(** The padding behind a document of [l] bytes: at most three zero bytes,
    up to a multiple of 4. *)
Lemma document_padding l :
  0 <= l -> l + 3 <= MaxInt32 ->
  let p := to_int32 (alignedSize (to_int32 l) 4 - to_int32 l) in
  0 <= p <= 3 /\ (l + p) mod 4 = 0.
Proof.
  intros H0 Hmax p. subst p.
  rewrite (to_int32_fits l) by (unfold fits_int32, MinInt32, MaxInt32 in *; lia).
  destruct (alignedSize_4 l) as [Hb Hm]; [lia | lia |].
  rewrite to_int32_fits by (unfold fits_int32, MinInt32, MaxInt32 in *; lia).
  split; [lia |].
  by replace (l + (alignedSize l 4 - l)) with (alignedSize l 4) by lia.
Qed.

(** ** The documents of a frame *)

Lemma writeBson_written w b w' :
  writeBson w b = Returned (w', None) ->
  exists r l, Raw b = Returned r /\ bson.Length b = Returned l /\
    written w' = written w ++ r ++
      replicate (Z.to_nat (to_int32 (alignedSize (to_int32 l) 4 - to_int32 l))) 0.
Proof.
  unfold writeBson. intros H.
  apply bind_returned in H as (r & Hr & H).
  apply and_then_nil_error in H as (w1 & Hw1 & H).
  injection Hw1 as Hw1. apply Write_nil_error in Hw1.
  apply bind_returned in H as (l & Hl & H).
  apply and_then_nil_error in H as (w2 & Hw2 & H).
  apply padding_written in Hw2. injection H as <-.
  exists r, l. rewrite Hw2, Hw1, <- app_assoc. done.
Qed.

Lemma mod4_add a b : a mod 4 = 0 -> b mod 4 = 0 -> (a + b) mod 4 = 0.
Proof. intros Ha Hb. rewrite Z.add_mod, Ha, Hb by lia. done. Qed.

Lemma writeBson_layout w b w' :
  writeBson w b = Returned (w', None) -> well_formed b ->
  exists r (pad : nat), Raw b = Returned r /\
    written w' = written w ++ r ++ replicate pad 0 /\
    (len r + Z.of_nat pad) mod 4 = 0.
Proof.
  intros H (r & Hr & Hl & Hmax).
  apply writeBson_written in H as (r' & l & Hr' & Hl' & Hw).
  rewrite Hr in Hr'. injection Hr' as <-. rewrite Hl in Hl'. injection Hl' as <-.
  destruct (document_padding (len r)) as [Hp Hm]; [apply len_nonneg | done |].
  eexists r, _. split; [done |]. split; [exact Hw |].
  rewrite Z2Nat.id by lia. exact Hm.
Qed.

Lemma write_all_layout docs : forall w w' off,
  write_all docs w = Returned (w', None) -> Forall well_formed docs ->
  off mod 4 = 0 ->
  exists raws body, written w' = written w ++ body /\
    Forall2 (fun d r => Raw d = Returned r) docs raws /\
    doc_layout off raws body.
Proof.
  induction docs as [| d docs IH]; intros w w' off H Hwf Hoff; simpl in H.
  - injection H as <-. exists [], []. rewrite app_nil_r.
    repeat split; constructor.
  - apply and_then_nil_error in H as (w1 & Hd & H).
    apply Forall_cons in Hwf as [Hwf_d Hwf].
    apply writeBson_layout in Hd as (r & pad & Hr & Hw1 & Hm); [| done].
    destruct (IH w1 w' (off + len r + Z.of_nat pad) H Hwf) as (raws & body & Hw' & Hraws & Hlay).
    { rewrite <- Z.add_assoc. by apply mod4_add. }
    exists (r :: raws), (r ++ replicate pad 0 ++ body).
    split; [by rewrite Hw', Hw1, <- !app_assoc |].
    split; [by constructor |]. by constructor.
Qed.

(** ** The layout of the frames *)

Ltac put_step_in H :=
  match type of H with
  | context [put ?order ?n ?b ?off ?v] =>
      let b' := fresh "buf" in
      let E := fresh "E" in
      let L := fresh "L" in
      destruct (put_in_range order n b off v) as (b' & E & L);
      [lia | rewrite ?len_make by lia; simpl; lia |];
      rewrite E in H; cbn [mbind outcome_bind] in H;
      rewrite ?len_make in L by lia
  end.

(** What all four frames do behind the header: the prelude, the name and
    its padding, then the documents. *)
Lemma frame_rest w buf name p (tail : Writer -> writing) w' :
  and_then (Returned (Write w buf)) (fun w =>
    and_then (Returned (Write w name)) (fun w =>
      and_then (if bool_decide (p > 0) then Returned (Write w (make p)) else nil_error w)
               tail)) = Returned (w', None) ->
  exists w1, written w1 = written w ++ buf ++ name ++ replicate (Z.to_nat p) 0 /\
    tail w1 = Returned (w', None).
Proof.
  intros H.
  apply and_then_nil_error in H as (w1 & Hw1 & H). injection Hw1 as Hw1.
  apply Write_nil_error in Hw1.
  apply and_then_nil_error in H as (w2 & Hw2 & H). injection Hw2 as Hw2.
  apply Write_nil_error in Hw2.
  apply and_then_nil_error in H as (w3 & Hw3 & H).
  apply padding_written in Hw3.
  exists w3. split; [| done]. by rewrite Hw3, Hw2, Hw1, <- !app_assoc.
Qed.

Lemma header_written m w order w' k :
  and_then (MsgHeader.Encode m w order) k = Returned (w', None) ->
  exists hbuf w1, len hbuf = 28 /\ written w1 = written w ++ hbuf /\
    k w1 = Returned (w', None).
Proof.
  intros H. destruct (MsgHeader_Encode_spec m w order) as (hbuf & E & Hlen).
  rewrite E in H. apply and_then_nil_error in H as (w1 & Hw1 & H).
  injection Hw1 as Hw1. apply Write_nil_error in Hw1. eauto.
Qed.

(** A frame whose fixed part, name and padding are written, and whose
    documents follow, is an aligned frame. *)
Lemma frame_aligned (w w1 w' : Writer) hbuf buf name nameLength docs fixed_size :
  written w1 = written w ++ hbuf ++ buf ++ name ++
    replicate (name_padding_of nameLength) 0 ->
  write_all docs w1 = Returned (w', None) ->
  len hbuf + len buf = fixed_size -> fixed_size mod 4 = 0 ->
  nameLength = len name -> nameLength + 4 <= MaxInt32 ->
  Forall well_formed docs ->
  exists raws frame, Forall2 (fun d r => Raw d = Returned r) docs raws /\
    written w' = written w ++ frame /\
    aligned_frame fixed_size name raws frame.
Proof.
  unfold name_padding_of. intros Hw1 Hdocs Hfixed Hmod Hname Hmax Hwf.
  destruct (name_padding nameLength) as (Hp & Hrange & Hpm);
    [rewrite Hname; apply len_nonneg | done |].
  set (p := to_int32 (alignedSize (to_int32 (nameLength + 1)) 4 - nameLength)) in *.
  destruct (write_all_layout docs w1 w' (fixed_size + len name + Z.of_nat (Z.to_nat p))
              Hdocs Hwf) as (raws & body & Hw' & Hraws & Hlay).
  { rewrite Z2Nat.id by lia. rewrite <- Z.add_assoc, <- Hname. by apply mod4_add. }
  exists raws, ((hbuf ++ buf) ++ name ++ replicate (Z.to_nat p) 0 ++ body).
  split; [exact Hraws |]. split.
  - rewrite Hw', Hw1, <- !app_assoc. done.
  - exists (hbuf ++ buf), (Z.to_nat p), body.
    split; [done |]. split; [by rewrite len_app |].
    split; [rewrite Z2Nat.id by lia; by rewrite <- Hname |].
    split; [lia |]. done.
Qed.

Lemma name_padding_of_unfold n :
  Z.to_nat (to_int32 (alignedSize (to_int32 (n + 1)) 4 - n)) = name_padding_of n.
Proof. unfold name_padding_of. reflexivity. Qed.

Lemma write_present_4 a b c d w :
  and_then (writeBson_if_present w a) (fun w =>
    and_then (writeBson_if_present w b) (fun w =>
      and_then (writeBson_if_present w c) (fun w =>
        and_then (writeBson_if_present w d) (fun w => nil_error w))))
  = write_all (present [a; b; c; d]) w.
Proof. destruct a, b, c, d; reflexivity. Qed.

Lemma write_present_1 a w :
  and_then (writeBson_if_present w a) (fun w => nil_error w)
  = write_all (present [a]) w.
Proof. destruct a; reflexivity. Qed.

Lemma QueryMsg_Encode_written m w order w' :
  QueryMsg.Encode m w order = Returned (w', None) ->
  exists hbuf buf w1, len hbuf + len buf = 60 /\
    written w1 = written w ++ hbuf ++ buf ++ QueryMsg.Name m ++
      replicate (name_padding_of (QueryMsg.NameLength m)) 0 /\
    write_all (present [QueryMsg.Where m; QueryMsg.Select m;
                        QueryMsg.OrderBy m; QueryMsg.Hint m]) w1 = Returned (w', None).
Proof.
  unfold QueryMsg.Encode, PutUint16, PutUint32, PutUint64. intros H.
  apply header_written in H as (hbuf & w0 & Hh & Hw0 & H).
  do 7 put_step_in H.
  apply frame_rest in H as (w1 & Hw1 & H).
  rewrite write_present_4 in H.
  match type of Hw1 with _ = _ ++ ?b ++ _ => exists hbuf, b, w1 end.
  split; [lia |]. split; [| exact H].
  rewrite name_padding_of_unfold in Hw1.
  rewrite Hw1, Hw0, <- !app_assoc. reflexivity.
Qed.

Lemma InsertMsg_Encode_written m w order w' :
  InsertMsg.Encode m w order = Returned (w', None) ->
  exists hbuf buf w1, len hbuf + len buf = 44 /\
    written w1 = written w ++ hbuf ++ buf ++ InsertMsg.Name m ++
      replicate (name_padding_of (InsertMsg.NameLength m)) 0 /\
    write_all (present [InsertMsg.Doc m]) w1 = Returned (w', None).
Proof.
  unfold InsertMsg.Encode, PutUint16, PutUint32. intros H.
  apply header_written in H as (hbuf & w0 & Hh & Hw0 & H).
  do 5 put_step_in H.
  apply frame_rest in H as (w1 & Hw1 & H).
  rewrite write_present_1 in H.
  match type of Hw1 with _ = _ ++ ?b ++ _ => exists hbuf, b, w1 end.
  split; [lia |]. split; [| exact H].
  rewrite name_padding_of_unfold in Hw1.
  rewrite Hw1, Hw0, <- !app_assoc. reflexivity.
Qed.

Lemma DeleteMsg_Encode_written m w order w' :
  DeleteMsg.Encode m w order = Returned (w', None) ->
  exists hbuf buf w1, len hbuf + len buf = 44 /\
    written w1 = written w ++ hbuf ++ buf ++ DeleteMsg.Name m ++
      replicate (name_padding_of (DeleteMsg.NameLength m)) 0 /\
    write_all [or_empty (DeleteMsg.Condition m); or_empty (DeleteMsg.Hint m)] w1
    = Returned (w', None).
Proof.
  unfold DeleteMsg.Encode, PutUint16, PutUint32. intros H.
  apply header_written in H as (hbuf & w0 & Hh & Hw0 & H).
  do 5 put_step_in H.
  apply frame_rest in H as (w1 & Hw1 & H).
  match type of Hw1 with _ = _ ++ ?b ++ _ => exists hbuf, b, w1 end.
  split; [lia |]. split; [| exact H].
  rewrite name_padding_of_unfold in Hw1.
  rewrite Hw1, Hw0, <- !app_assoc. reflexivity.
Qed.

Lemma UpdateMsg_Encode_written m w order w' :
  UpdateMsg.Encode m w order = Returned (w', None) ->
  exists hbuf buf w1, len hbuf + len buf = 44 /\
    written w1 = written w ++ hbuf ++ buf ++ UpdateMsg.Name m ++
      replicate (name_padding_of (UpdateMsg.NameLength m)) 0 /\
    write_all [or_empty (UpdateMsg.Condition m); or_empty (UpdateMsg.Rule m);
               or_empty (UpdateMsg.Hint m)] w1
    = Returned (w', None).
Proof.
  unfold UpdateMsg.Encode, PutUint16, PutUint32. intros H.
  apply header_written in H as (hbuf & w0 & Hh & Hw0 & H).
  do 5 put_step_in H.
  apply frame_rest in H as (w1 & Hw1 & H).
  match type of Hw1 with _ = _ ++ ?b ++ _ => exists hbuf, b, w1 end.
  split; [lia |]. split; [| exact H].
  rewrite name_padding_of_unfold in Hw1.
  rewrite Hw1, Hw0, <- !app_assoc. reflexivity.
Qed.

Lemma well_formed_emptyBson : well_formed emptyBson.
Proof.
  exists empty_document. split; [reflexivity |]. split; [reflexivity |].
  vm_compute. discriminate.
Qed.

(** A document that [Finish] has closed is well formed. *)
Lemma Finish_well_formed b b' :
  reserved b -> len (raw b) - offset b + 4 <= MaxInt32 ->
  Finish b = Returned b' -> well_formed b'.
Proof.
  intros Hres Hmax Hfin.
  assert (Hopen : finished b = false /\ inChild b = false).
  { unfold Finish, checkBeforeAppend in Hfin.
    destruct (finished b), (inChild b); try discriminate. done. }
  destruct Hopen as [Hf Hc].
  destruct (Finish_spec b Hres Hf Hc) as (b2 & r & Hfin2 & Hfinished & Hraw & Hlen & Hstored & _).
  { unfold MaxInt32 in *. lia. }
  rewrite Hfin in Hfin2. injection Hfin2 as <-.
  exists r. split; [done |]. split.
  - unfold bson.Length. rewrite Hfinished. simpl.
    unfold Raw in Hraw. rewrite Hraw. simpl. exact Hstored.
  - lia.
Qed.

Lemma built_Finish_well_formed b b' :
  built b -> len (raw b) - offset b + 4 <= MaxInt32 ->
  Finish b = Returned b' -> well_formed b'.
Proof. intros Hbuilt. apply Finish_well_formed. by apply built_reserved. Qed.

(** ** Encoding into a stream that takes every write *)

Lemma Write_unbounded w p :
  room w = None -> Write w p = ({| written := written w ++ p; room := None |}, None).
Proof. intros H. unfold Write. by rewrite H. Qed.

Lemma writeBson_returns w b :
  room w = None -> well_formed b ->
  exists w', writeBson w b = Returned (w', None) /\ room w' = None.
Proof.
  intros Hroom (r & Hr & Hl & _). unfold writeBson.
  rewrite Hr, Hl. cbn [mbind outcome_bind].
  rewrite Write_unbounded by done. unfold and_then at 1. cbn [mbind outcome_bind].
  case_bool_decide.
  - rewrite Write_unbounded by done. eexists. split; reflexivity.
  - eexists. split; reflexivity.
Qed.

Lemma write_all_returns docs : forall w,
  room w = None -> Forall well_formed docs ->
  exists w', write_all docs w = Returned (w', None).
Proof.
  induction docs as [| d docs IH]; intros w Hroom Hwf; simpl; [by eexists |].
  apply Forall_cons in Hwf as [Hd Hwf].
  destruct (writeBson_returns w d Hroom Hd) as (w1 & -> & Hroom1).
  unfold and_then. cbn [mbind outcome_bind]. by apply IH.
Qed.

Lemma frame_rest_returns w buf name p (tail : Writer -> writing) :
  room w = None ->
  (forall w1, room w1 = None -> exists w', tail w1 = Returned (w', None)) ->
  exists w',
    and_then (Returned (Write w buf)) (fun w =>
      and_then (Returned (Write w name)) (fun w =>
        and_then (if bool_decide (p > 0) then Returned (Write w (make p)) else nil_error w)
                 tail)) = Returned (w', None).
Proof.
  intros Hroom Htail.
  rewrite Write_unbounded by done. unfold and_then at 1. cbn [mbind outcome_bind].
  rewrite Write_unbounded by done. unfold and_then at 1. cbn [mbind outcome_bind].
  case_bool_decide.
  - rewrite Write_unbounded by done. unfold and_then. cbn [mbind outcome_bind].
    by apply Htail.
  - unfold and_then, nil_error. cbn [mbind outcome_bind]. by apply Htail.
Qed.

Ltac header_step m w order Hroom :=
  let hbuf := fresh "hbuf" in
  let E := fresh "E" in
  destruct (MsgHeader_Encode_spec m w order) as (hbuf & E & _);
  rewrite E, Write_unbounded by exact Hroom;
  unfold and_then at 1; cbn [mbind outcome_bind].

(** The four frames are written whenever the stream takes every write and
    the documents are well formed. *)
Lemma Encode_returns (w : Writer) (order : ByteOrder) :
  room w = None ->
  (forall m : QueryMsg.t,
     Forall well_formed (present [QueryMsg.Where m; QueryMsg.Select m;
                                  QueryMsg.OrderBy m; QueryMsg.Hint m]) ->
     exists w', QueryMsg.Encode m w order = Returned (w', None)) /\
  (forall m : InsertMsg.t,
     Forall well_formed (present [InsertMsg.Doc m]) ->
     exists w', InsertMsg.Encode m w order = Returned (w', None)) /\
  (forall m : DeleteMsg.t,
     Forall well_formed [or_empty (DeleteMsg.Condition m); or_empty (DeleteMsg.Hint m)] ->
     exists w', DeleteMsg.Encode m w order = Returned (w', None)) /\
  (forall m : UpdateMsg.t,
     Forall well_formed [or_empty (UpdateMsg.Condition m); or_empty (UpdateMsg.Rule m);
                         or_empty (UpdateMsg.Hint m)] ->
     exists w', UpdateMsg.Encode m w order = Returned (w', None)).
Proof.
  intros Hroom. repeat split; intros m Hwf.
  - unfold QueryMsg.Encode, PutUint16, PutUint32, PutUint64.
    header_step (QueryMsg.Header m) w order Hroom.
    do 7 put_step. apply frame_rest_returns; [done |].
    intros w1 Hw1. rewrite write_present_4. by apply write_all_returns.
  - unfold InsertMsg.Encode, PutUint16, PutUint32.
    header_step (InsertMsg.Header m) w order Hroom.
    do 5 put_step. apply frame_rest_returns; [done |].
    intros w1 Hw1. rewrite write_present_1. by apply write_all_returns.
  - unfold DeleteMsg.Encode, PutUint16, PutUint32.
    header_step (DeleteMsg.Header m) w order Hroom.
    do 5 put_step. apply frame_rest_returns; [done |].
    intros w1 Hw1.
    by apply (write_all_returns
                [or_empty (DeleteMsg.Condition m); or_empty (DeleteMsg.Hint m)]).
  - unfold UpdateMsg.Encode, PutUint16, PutUint32.
    header_step (UpdateMsg.Header m) w order Hroom.
    do 5 put_step. apply frame_rest_returns; [done |].
    intros w1 Hw1.
    by apply (write_all_returns
                [or_empty (UpdateMsg.Condition m); or_empty (UpdateMsg.Rule m);
                 or_empty (UpdateMsg.Hint m)]).
Qed.

(** ** The alignment of the documents *)

Lemma well_formed_hello_world : well_formed hello_world_document.
Proof.
  eexists. split; [reflexivity |]. split; [reflexivity |].
  vm_compute. discriminate.
Qed.

(** The documents of a delete and of an update: nil stands for the empty
    document. *)
Lemma well_formed_or_empty_all ps :
  Forall optional_well_formed ps -> Forall well_formed (or_empty <$> ps).
Proof.
  induction 1 as [| p ps Hp _ IH]; cbn [fmap list_fmap]; constructor; [| exact IH].
  destruct p as [b |]; [exact Hp | apply well_formed_emptyBson].
Qed.

Lemma document_of_or_empty p r : Raw (or_empty p) = Returned r -> document_of p r.
Proof.
  destruct p as [b |]; cbn [or_empty document_of]; [done |].
  intros H. by injection H as <-.
Qed.

Lemma documents_of_or_empty ps raws :
  Forall2 (fun d r => Raw d = Returned r) (or_empty <$> ps) raws ->
  Forall2 document_of ps raws.
Proof.
  revert raws. induction ps as [| p ps IH]; intros raws H; cbn [fmap list_fmap] in H.
  - apply Forall2_nil_inv_l in H as ->. constructor.
  - apply Forall2_cons_inv_l in H as (r & raws' & Hr & H & ->).
    constructor; [by apply document_of_or_empty | by apply IH].
Qed.

(** C7, as the specification has it, does not hold of every frame that
    [Encode] writes: [Encode] does not compare [NameLength] with the name.
    For the insert whose name has four bytes and whose [NameLength] is 7 it
    writes the 44 bytes of the fixed part, the four bytes of the name and
    [alignedSize(8, 4) - 7], that is one, zero byte, returns nil, and the
    document stands at offset 49: the frame is not an aligned one. *)
Lemma misnamed_frame_is_not_aligned :
  InsertMsg.Encode misnamed_insert buffer LittleEndian =
    Returned (encoded_misnamed_insert, None) /\
  Raw hello_world_document = Returned hello_world_encoding /\
  take 22 (drop 49 (written encoded_misnamed_insert)) = hello_world_encoding /\
  49 mod 4 = 1 /\
  ~ (exists frame, written encoded_misnamed_insert = written buffer ++ frame /\
       aligned_frame 44 (InsertMsg.Name misnamed_insert) [hello_world_encoding] frame).
Proof.
  split; [reflexivity |]. split; [reflexivity |]. split; [reflexivity |].
  split; [reflexivity |].
  intros (frame & Hw & fixed & pad & body & Hframe & Hfixed & Hpad & _ & Hlay).
  inversion Hlay as [| off d pad1 docs rest _ Hrest]; subst.
  inversion Hrest; subst.
  assert (E : alignedSize (len (InsertMsg.Name misnamed_insert) + 1) 4 -
              len (InsertMsg.Name misnamed_insert) = 4) by reflexivity.
  rewrite E in Hpad.
  apply (f_equal (@length Z)) in Hw.
  rewrite !length_app, !length_replicate in Hw.
  assert (El : length (written encoded_misnamed_insert) = 73%nat) by reflexivity.
  assert (En : length (InsertMsg.Name misnamed_insert) = 4%nat) by reflexivity.
  assert (Ed : length hello_world_encoding = 22%nat) by reflexivity.
  rewrite El, En, Ed in Hw. unfold len in Hfixed. cbn [length buffer written] in Hw. lia.
Qed.

(** C7, amended. For a query, an insert, a delete or an update whose
    [NameLength] is the length of its name and whose documents are well
    formed, [Encode] writes its frame into a stream that takes every write,
    and in every frame that it has written the fixed part is followed by the
    name and by [alignedSize(NameLength+1, 4) - NameLength] zero bytes, at
    least one; every embedded document starts at an offset that is a
    multiple of 4, and only zero bytes lie between the name and the first
    document and between one document and the next. The documents are those
    of the message that are not nil for a query and an insert, and for a
    delete and an update each document of the message, the empty document
    standing for nil. *)
Theorem frames_are_aligned (w : Writer) (order : ByteOrder) :
  (forall m : QueryMsg.t,
     QueryMsg.NameLength m = len (QueryMsg.Name m) ->
     QueryMsg.NameLength m + 4 <= MaxInt32 ->
     let docs := present [QueryMsg.Where m; QueryMsg.Select m;
                          QueryMsg.OrderBy m; QueryMsg.Hint m] in
     Forall well_formed docs ->
     (room w = None -> exists w', QueryMsg.Encode m w order = Returned (w', None)) /\
     (forall w', QueryMsg.Encode m w order = Returned (w', None) ->
        exists raws frame, Forall2 (fun d r => Raw d = Returned r) docs raws /\
          written w' = written w ++ frame /\
          aligned_frame 60 (QueryMsg.Name m) raws frame)) /\
  (forall m : InsertMsg.t,
     InsertMsg.NameLength m = len (InsertMsg.Name m) ->
     InsertMsg.NameLength m + 4 <= MaxInt32 ->
     let docs := present [InsertMsg.Doc m] in
     Forall well_formed docs ->
     (room w = None -> exists w', InsertMsg.Encode m w order = Returned (w', None)) /\
     (forall w', InsertMsg.Encode m w order = Returned (w', None) ->
        exists raws frame, Forall2 (fun d r => Raw d = Returned r) docs raws /\
          written w' = written w ++ frame /\
          aligned_frame 44 (InsertMsg.Name m) raws frame)) /\
  (forall m : DeleteMsg.t,
     DeleteMsg.NameLength m = len (DeleteMsg.Name m) ->
     DeleteMsg.NameLength m + 4 <= MaxInt32 ->
     let docs := [DeleteMsg.Condition m; DeleteMsg.Hint m] in
     Forall optional_well_formed docs ->
     (room w = None -> exists w', DeleteMsg.Encode m w order = Returned (w', None)) /\
     (forall w', DeleteMsg.Encode m w order = Returned (w', None) ->
        exists raws frame, Forall2 document_of docs raws /\
          written w' = written w ++ frame /\
          aligned_frame 44 (DeleteMsg.Name m) raws frame)) /\
  (forall m : UpdateMsg.t,
     UpdateMsg.NameLength m = len (UpdateMsg.Name m) ->
     UpdateMsg.NameLength m + 4 <= MaxInt32 ->
     let docs := [UpdateMsg.Condition m; UpdateMsg.Rule m; UpdateMsg.Hint m] in
     Forall optional_well_formed docs ->
     (room w = None -> exists w', UpdateMsg.Encode m w order = Returned (w', None)) /\
     (forall w', UpdateMsg.Encode m w order = Returned (w', None) ->
        exists raws frame, Forall2 document_of docs raws /\
          written w' = written w ++ frame /\
          aligned_frame 44 (UpdateMsg.Name m) raws frame)).
Proof.
  split; [| split; [| split]]; intros m Hname Hmax docs Hwf.
  - split.
    + intros Hroom. by apply (proj1 (Encode_returns w order Hroom)).
    + intros w' H.
      apply QueryMsg_Encode_written in H as (hbuf & buf & w1 & Hlen & Hw1 & H).
      apply (frame_aligned w w1 w' hbuf buf _ (QueryMsg.NameLength m) docs);
        [exact Hw1 | exact H | exact Hlen | reflexivity | exact Hname | exact Hmax | exact Hwf].
  - split.
    + intros Hroom. by apply (proj1 (proj2 (Encode_returns w order Hroom))).
    + intros w' H.
      apply InsertMsg_Encode_written in H as (hbuf & buf & w1 & Hlen & Hw1 & H).
      apply (frame_aligned w w1 w' hbuf buf _ (InsertMsg.NameLength m) docs);
        [exact Hw1 | exact H | exact Hlen | reflexivity | exact Hname | exact Hmax | exact Hwf].
  - apply well_formed_or_empty_all in Hwf. split.
    + intros Hroom. by apply (proj1 (proj2 (proj2 (Encode_returns w order Hroom)))).
    + intros w' H.
      apply DeleteMsg_Encode_written in H as (hbuf & buf & w1 & Hlen & Hw1 & H).
      destruct (frame_aligned w w1 w' hbuf buf _ (DeleteMsg.NameLength m) _ 44
                  Hw1 H Hlen eq_refl Hname Hmax Hwf) as (raws & frame & Hraws & Hw' & Hal).
      exists raws, frame. split; [| done].
      by apply (documents_of_or_empty docs).
  - apply well_formed_or_empty_all in Hwf. split.
    + intros Hroom. by apply (proj2 (proj2 (proj2 (Encode_returns w order Hroom)))).
    + intros w' H.
      apply UpdateMsg_Encode_written in H as (hbuf & buf & w1 & Hlen & Hw1 & H).
      destruct (frame_aligned w w1 w' hbuf buf _ (UpdateMsg.NameLength m) _ 44
                  Hw1 H Hlen eq_refl Hname Hmax Hwf) as (raws & frame & Hraws & Hw' & Hal).
      exists raws, frame. split; [| done].
      by apply (documents_of_or_empty docs).
Qed.

Lemma frames_are_aligned_witness :
  (exists raws frame,
     Forall2 (fun d r => Raw d = Returned r) [hello_world_document] raws /\
     written encoded_query = written buffer ++ frame /\
     aligned_frame 60 (QueryMsg.Name example_query) raws frame) /\
  (exists raws frame,
     Forall2 (fun d r => Raw d = Returned r) [hello_world_document] raws /\
     written encoded_insert = written buffer ++ frame /\
     aligned_frame 44 (InsertMsg.Name example_insert) raws frame) /\
  (exists raws frame,
     Forall2 document_of [Some hello_world_document; None] raws /\
     written encoded_conditional_delete = written buffer ++ frame /\
     aligned_frame 44 (DeleteMsg.Name conditional_delete) raws frame) /\
  (exists raws frame,
     Forall2 document_of [None; Some hello_world_document; None] raws /\
     written encoded_update = written buffer ++ frame /\
     aligned_frame 44 (UpdateMsg.Name example_update) raws frame).
Proof.
  split; [| split; [| split]].
  - apply (proj1 (frames_are_aligned buffer BigEndian) example_query).
    + reflexivity.
    + vm_compute. discriminate.
    + repeat constructor. apply well_formed_hello_world.
    + reflexivity.
  - apply (proj1 (proj2 (frames_are_aligned buffer LittleEndian)) example_insert).
    + reflexivity.
    + vm_compute. discriminate.
    + repeat constructor. apply well_formed_hello_world.
    + reflexivity.
  - apply (proj1 (proj2 (proj2 (frames_are_aligned buffer LittleEndian)))
             conditional_delete).
    + reflexivity.
    + vm_compute. discriminate.
    + repeat constructor. apply well_formed_hello_world.
    + reflexivity.
  - apply (proj2 (proj2 (proj2 (frames_are_aligned buffer BigEndian))) example_update).
    + reflexivity.
    + vm_compute. discriminate.
    + repeat constructor. apply well_formed_hello_world.
    + reflexivity.
Defined.

(** ** The documents of a delete and of an update *)

Lemma write_all_written docs : forall w w',
  write_all docs w = Returned (w', None) ->
  exists frames, written w' = written w ++ concat frames /\
    Forall2 (fun d f => exists r (pad : nat),
               Raw d = Returned r /\ f = r ++ replicate pad 0) docs frames.
Proof.
  induction docs as [| d docs IH]; intros w w' H; simpl in H.
  - injection H as <-. exists []. simpl. rewrite app_nil_r. split; [done | constructor].
  - apply and_then_nil_error in H as (w1 & Hd & H).
    apply writeBson_written in Hd as (r & l & Hr & _ & Hw1).
    destruct (IH w1 w' H) as (frames & Hw' & Hframes).
    eexists ((r ++ replicate _ 0) :: frames). split.
    + rewrite Hw', Hw1. cbn [concat]. by rewrite <- !app_assoc.
    + constructor; [eauto | done].
Qed.

(** C6. A delete frame that [Encode] has written holds, behind the fixed
    part, the name and its padding, exactly two documents, the condition
    and then the hint, and an update frame exactly three, the condition, the
    rule and the hint, each followed by its zero padding: the bytes of the
    document of the message, and where the message has nil, the five bytes
    05 00 00 00 00 of the empty document in its place. Into a stream that
    takes every write, [Encode] writes the frame of every delete and of
    every update whose documents are well formed. *)
Theorem Delete_Update_documents (w : Writer) (order : ByteOrder) :
  (forall (m : DeleteMsg.t) w',
     DeleteMsg.Encode m w order = Returned (w', None) ->
     exists fixed (pad pad1 pad2 : nat) cond hint,
       written w' = written w ++ fixed ++ DeleteMsg.Name m ++ replicate pad 0 ++
                    (cond ++ replicate pad1 0) ++ (hint ++ replicate pad2 0) /\
       len fixed = 44 /\
       document_of (DeleteMsg.Condition m) cond /\
       document_of (DeleteMsg.Hint m) hint) /\
  (forall m : DeleteMsg.t,
     room w = None ->
     Forall optional_well_formed [DeleteMsg.Condition m; DeleteMsg.Hint m] ->
     exists w', DeleteMsg.Encode m w order = Returned (w', None)) /\
  (forall (m : UpdateMsg.t) w',
     UpdateMsg.Encode m w order = Returned (w', None) ->
     exists fixed (pad pad1 pad2 pad3 : nat) cond rule hint,
       written w' = written w ++ fixed ++ UpdateMsg.Name m ++ replicate pad 0 ++
                    (cond ++ replicate pad1 0) ++ (rule ++ replicate pad2 0) ++
                    (hint ++ replicate pad3 0) /\
       len fixed = 44 /\
       document_of (UpdateMsg.Condition m) cond /\
       document_of (UpdateMsg.Rule m) rule /\
       document_of (UpdateMsg.Hint m) hint) /\
  (forall m : UpdateMsg.t,
     room w = None ->
     Forall optional_well_formed
       [UpdateMsg.Condition m; UpdateMsg.Rule m; UpdateMsg.Hint m] ->
     exists w', UpdateMsg.Encode m w order = Returned (w', None)).
Proof.
  split; [| split; [| split]].
  - intros m w' H.
    apply DeleteMsg_Encode_written in H as (hbuf & buf & w1 & Hlen & Hw1 & H).
    apply write_all_written in H as (frames & Hw' & Hframes).
    apply Forall2_cons_inv_l in Hframes as (f1 & fs & (c & p1 & Hc & ->) & Hframes & ->).
    apply Forall2_cons_inv_l in Hframes as (f2 & fs' & (h & p2 & Hh & ->) & Hframes & ->).
    apply Forall2_nil_inv_l in Hframes as ->.
    exists (hbuf ++ buf), (name_padding_of (DeleteMsg.NameLength m)), p1, p2, c, h.
    split; [| split; [by rewrite len_app |]].
    + rewrite Hw', Hw1. cbn [concat]. rewrite app_nil_r, <- !app_assoc. reflexivity.
    + split; by apply document_of_or_empty.
  - intros m Hroom Hwf. apply well_formed_or_empty_all in Hwf.
    by apply (proj1 (proj2 (proj2 (Encode_returns w order Hroom)))).
  - intros m w' H.
    apply UpdateMsg_Encode_written in H as (hbuf & buf & w1 & Hlen & Hw1 & H).
    apply write_all_written in H as (frames & Hw' & Hframes).
    apply Forall2_cons_inv_l in Hframes as (f1 & fs & (c & p1 & Hc & ->) & Hframes & ->).
    apply Forall2_cons_inv_l in Hframes as (f2 & fs' & (u & p2 & Hu & ->) & Hframes & ->).
    apply Forall2_cons_inv_l in Hframes as (f3 & fs'' & (h & p3 & Hh & ->) & Hframes & ->).
    apply Forall2_nil_inv_l in Hframes as ->.
    exists (hbuf ++ buf), (name_padding_of (UpdateMsg.NameLength m)), p1, p2, p3, c, u, h.
    split; [| split; [by rewrite len_app |]].
    + rewrite Hw', Hw1. cbn [concat]. rewrite app_nil_r, <- !app_assoc. reflexivity.
    + repeat split; by apply document_of_or_empty.
  - intros m Hroom Hwf. apply well_formed_or_empty_all in Hwf.
    by apply (proj2 (proj2 (proj2 (Encode_returns w order Hroom)))).
Qed.

Lemma Delete_Update_documents_witness :
  (exists fixed (pad pad1 pad2 : nat) cond hint,
     written encoded_conditional_delete =
       written buffer ++ fixed ++ DeleteMsg.Name conditional_delete ++ replicate pad 0 ++
       (cond ++ replicate pad1 0) ++ (hint ++ replicate pad2 0) /\
     len fixed = 44 /\
     document_of (Some hello_world_document) cond /\
     document_of None hint) /\
  (exists w', DeleteMsg.Encode conditional_delete buffer LittleEndian = Returned (w', None)) /\
  (exists fixed (pad pad1 pad2 pad3 : nat) cond rule hint,
     written encoded_update =
       written buffer ++ fixed ++ UpdateMsg.Name example_update ++ replicate pad 0 ++
       (cond ++ replicate pad1 0) ++ (rule ++ replicate pad2 0) ++
       (hint ++ replicate pad3 0) /\
     len fixed = 44 /\
     document_of None cond /\
     document_of (Some hello_world_document) rule /\
     document_of None hint) /\
  (exists w', UpdateMsg.Encode example_update buffer BigEndian = Returned (w', None)).
Proof.
  split; [| split; [| split]].
  - apply (proj1 (Delete_Update_documents buffer LittleEndian) conditional_delete).
    reflexivity.
  - apply (proj1 (proj2 (Delete_Update_documents buffer LittleEndian)) conditional_delete).
    + reflexivity.
    + repeat constructor. apply well_formed_hello_world.
  - apply (proj1 (proj2 (proj2 (Delete_Update_documents buffer BigEndian))) example_update).
    reflexivity.
  - apply (proj2 (proj2 (proj2 (Delete_Update_documents buffer BigEndian))) example_update).
    + reflexivity.
    + repeat constructor. apply well_formed_hello_world.
Defined.

(** ** Round trips of the fixed-size messages *)

Lemma le_bytes_digits n : forall v, le_bytes n v = Z_to_little_endian (Z.of_nat n) 8 v.
Proof.
  induction n as [| n IH]; intros v.
  - reflexivity.
  - rewrite Nat2Z.inj_succ, Z_to_little_endian_succ by lia.
    cbn [le_bytes]. rewrite IH, Z.land_ones by lia. reflexivity.
Qed.

Lemma le_value_digits bs : le_value bs = little_endian_to_Z 8 bs.
Proof. induction bs as [| b bs IH]; [reflexivity |]. cbn. by rewrite IH. Qed.

Lemma decode_encode order n v :
  decode order (encode order n v) = v mod 2 ^ (8 * Z.of_nat n).
Proof.
  assert (H : le_value (le_bytes n v) = v mod 2 ^ (8 * Z.of_nat n)).
  { rewrite le_value_digits, le_bytes_digits.
    rewrite little_endian_to_Z_to_little_endian by lia. f_equal. f_equal. lia. }
  destruct order; cbn [decode encode]; [exact H |].
  by rewrite reverse_involutive.
Qed.

Lemma get_encoded order n buf off v :
  0 <= off -> off + Z.of_nat n <= len buf ->
  take n (drop (Z.to_nat off) buf) = encode order n v ->
  get order n buf off = Returned (v mod 2 ^ (8 * Z.of_nat n)).
Proof.
  intros H0 H1 H. rewrite get_in_range by done. by rewrite H, decode_encode.
Qed.

Lemma MsgHeader_Encode_bytes m w order :
  MsgHeader.Encode m w order = Returned (Write w (MsgHeader_bytes order m)).
Proof. destruct order; reflexivity. Qed.

Lemma uint32_round_trip v : in_int 32 v -> to_int32 (to_uint32 v mod 2 ^ (8 * Z.of_nat 4)) = v.
Proof.
  intros H. change (8 * Z.of_nat 4) with 32. unfold to_uint32.
  rewrite !to_int32_mod. apply to_int32_fits.
  unfold in_int, fits_int32, MinInt32, MaxInt32 in *. lia.
Qed.

Lemma uint32_id v : in_uint 32 v -> v mod 2 ^ (8 * Z.of_nat 4) = v.
Proof. unfold in_uint. intros H. change (8 * Z.of_nat 4) with 32. apply Z.mod_small. lia. Qed.

Lemma uint64_id v : in_uint 64 v -> v mod 2 ^ (8 * Z.of_nat 8) = v.
Proof. unfold in_uint. intros H. change (8 * Z.of_nat 8) with 64. apply Z.mod_small. lia. Qed.

Lemma to_uint32_id v : in_uint 32 v -> to_uint32 v = v.
Proof. unfold in_uint, to_uint32. intros H. apply Z.mod_small. lia. Qed.

Lemma len_MsgHeader_bytes order m : len (MsgHeader_bytes order m) = 28.
Proof. unfold len, MsgHeader_bytes. by rewrite !length_app, !length_encode. Qed.

Lemma ReadFull_app (buf rest : list Z) n :
  len buf = n -> ReadFull {| unread := buf ++ rest |} n = (buf, {| unread := rest |}, None).
Proof.
  intros H. pose proof (len_nonneg buf). pose proof (len_nonneg rest).
  rewrite ReadFull_enough by (cbn [unread]; rewrite len_app; lia).
  cbn [unread]. unfold len in H.
  rewrite take_app_length', drop_app_length' by lia. reflexivity.
Qed.

(** X12. The header of a message: [Encode] hands the stream, in one
    write, the five fields in their order in the byte order of the
    connection, [Size()] bytes in all; and [Decode], in the same byte
    order, reads back the header that was encoded and leaves the rest of
    the stream unread. *)
Theorem MsgHeader_round_trip
    (m m0 : MsgHeader.t) (order : ByteOrder) (w : Writer) (rest : list Z) :
  MsgHeader_in_range m ->
  MsgHeader.Encode m w order = Returned (Write w (MsgHeader_bytes order m)) /\
  len (MsgHeader_bytes order m) = MsgHeader.Size m /\
  MsgHeader.Decode m0 {| unread := MsgHeader_bytes order m ++ rest |} order =
    Returned (m, {| unread := rest |}, None).
Proof.
  intros (HL & HO & HT & HR & HQ).
  split; [apply MsgHeader_Encode_bytes |]. split; [apply len_MsgHeader_bytes |].
  unfold MsgHeader.Decode.
  rewrite (ReadFull_app _ _ msgHeaderSize) by apply len_MsgHeader_bytes.
  pose proof (len_MsgHeader_bytes order m) as Hlen.
  unfold Uint32, Uint64.
  rewrite (get_encoded order 4 _ 0 (to_uint32 (MsgHeader.Length m)));
    [| lia | rewrite Hlen; simpl; lia | by destruct order].
  cbn [mbind outcome_bind].
  rewrite (get_encoded order 4 _ 4 (to_uint32 (MsgHeader.OpCode m)));
    [| lia | rewrite Hlen; simpl; lia | by destruct order].
  cbn [mbind outcome_bind].
  rewrite (get_encoded order 4 _ 8 (MsgHeader.Tid m));
    [| lia | rewrite Hlen; simpl; lia | by destruct order].
  cbn [mbind outcome_bind].
  rewrite (get_encoded order 8 _ 12 (MsgHeader.RouteId m));
    [| lia | rewrite Hlen; simpl; lia | by destruct order].
  cbn [mbind outcome_bind].
  rewrite (get_encoded order 8 _ 20 (MsgHeader.RequestId m));
    [| lia | rewrite Hlen; simpl; lia | by destruct order].
  cbn [mbind outcome_bind].
  rewrite uint32_round_trip, (to_uint32_id (MsgHeader.OpCode m)), !uint32_id, !uint64_id
    by done.
  by destruct m.
Qed.

Lemma MsgHeader_round_trip_witness :
  MsgHeader.Encode (reply_header 48) buffer BigEndian =
    Returned (Write buffer (MsgHeader_bytes BigEndian (reply_header 48))) /\
  len (MsgHeader_bytes BigEndian (reply_header 48)) = MsgHeader.Size (reply_header 48) /\
  MsgHeader.Decode (reply_header 0)
    {| unread := MsgHeader_bytes BigEndian (reply_header 48) ++ [9; 9] |} BigEndian =
    Returned (reply_header 48, {| unread := [9; 9] |}, None).
Proof.
  apply MsgHeader_round_trip. unfold MsgHeader_in_range, in_int, in_uint. simpl.
  vm_compute. intuition discriminate.
Defined.

Lemma SysInfoMsgHeader_Encode_bytes m w order :
  SysInfoMsgHeader.Encode m w order = Returned (Write w (SysInfoMsgHeader_bytes order m)).
Proof. destruct order; reflexivity. Qed.

Lemma len_SysInfoMsgHeader_bytes order m : len (SysInfoMsgHeader_bytes order m) = 12.
Proof. unfold len, SysInfoMsgHeader_bytes. by rewrite !length_app, !length_encode. Qed.

Lemma SysInfoMsgHeader_Decode_bytes m m0 order rest :
  SysInfoMsgHeader_in_range m ->
  SysInfoMsgHeader.Decode m0 {| unread := SysInfoMsgHeader_bytes order m ++ rest |} order =
  Returned (m, {| unread := rest |}, None).
Proof.
  intros (HS & HE & HL). unfold SysInfoMsgHeader.Decode.
  rewrite (ReadFull_app _ _ 12) by apply len_SysInfoMsgHeader_bytes.
  pose proof (len_SysInfoMsgHeader_bytes order m) as Hlen.
  unfold Uint32.
  rewrite (get_encoded order 4 _ 0 (SysInfoMsgHeader.Special m));
    [| lia | rewrite Hlen; simpl; lia | by destruct order].
  cbn [mbind outcome_bind].
  rewrite (get_encoded order 4 _ 4 (SysInfoMsgHeader.EyeCatcher m));
    [| lia | rewrite Hlen; simpl; lia | by destruct order].
  cbn [mbind outcome_bind].
  rewrite (get_encoded order 4 _ 8 (to_uint32 (SysInfoMsgHeader.Length m)));
    [| lia | rewrite Hlen; simpl; lia | by destruct order].
  cbn [mbind outcome_bind].
  rewrite uint32_round_trip, !uint32_id by done.
  by destruct m.
Qed.

(** X13. The reply to the system-info probe: into a stream that takes
    every write, [Encode] writes the header, the operating-system type and
    112 zero bytes, [Size()] bytes in all; and when the header announces
    that size, [Decode] reads back the reply that was encoded and leaves
    the rest of the stream unread. *)
Theorem SysInfoReply_round_trip
    (m m0 : SysInfoReply.t) (order : ByteOrder) (w : Writer) (rest : list Z) :
  SysInfoMsgHeader_in_range (SysInfoReply.Header m) ->
  in_int 32 (SysInfoReply.OSType m) ->
  room w = None ->
  SysInfoReply.Encode m w order =
    Returned ({| written := written w ++ SysInfoReply_bytes order m; room := None |}, None) /\
  len (SysInfoReply_bytes order m) = SysInfoReply.Size m /\
  (SysInfoMsgHeader.Length (SysInfoReply.Header m) = SysInfoReply.Size m ->
   SysInfoReply.Decode m0 {| unread := SysInfoReply_bytes order m ++ rest |} order =
     Returned (m, {| unread := rest |}, None)).
Proof.
  intros Hh Hos Hroom. split; [| split].
  - unfold SysInfoReply.Encode.
    rewrite SysInfoMsgHeader_Encode_bytes, Write_unbounded by done.
    unfold and_then. cbn [mbind outcome_bind].
    assert (E : PutUint32 order (make (sysInfoReplySize - sysInfoMsgHeaderSize)) 0
                  (to_uint32 (SysInfoReply.OSType m)) =
                Returned (encode order 4 (to_uint32 (SysInfoReply.OSType m)) ++
                          replicate 112 0)) by (by destruct order).
    rewrite E. cbn [mbind outcome_bind]. rewrite Write_unbounded by done.
    cbn [written]. unfold SysInfoReply_bytes. by rewrite <- app_assoc.
  - unfold len, SysInfoReply_bytes.
    pose proof (len_SysInfoMsgHeader_bytes order (SysInfoReply.Header m)) as H.
    unfold len in H. rewrite !length_app, length_encode, length_replicate.
    unfold SysInfoReply.Size, sysInfoReplySize. lia.
  - intros Hsize. unfold SysInfoReply.Decode, SysInfoReply_bytes.
    rewrite <- app_assoc, SysInfoMsgHeader_Decode_bytes by done.
    cbn [mbind outcome_bind SysInfoReply.Header SysInfoReply.OSType].
    rewrite bool_decide_eq_true_2 by exact Hsize. cbn [negb].
    rewrite (ReadFull_app (encode order 4 (to_uint32 (SysInfoReply.OSType m)) ++
                           replicate 112 0) rest).
    2: { unfold len. rewrite length_app, length_encode, length_replicate. reflexivity. }
    unfold Uint32.
    rewrite (get_encoded order 4 _ 0 (to_uint32 (SysInfoReply.OSType m)));
      [| lia | | by destruct order].
    2: { unfold len. rewrite length_app, length_encode, length_replicate. simpl. lia. }
    cbn [mbind outcome_bind]. rewrite uint32_round_trip by done. by destruct m.
Qed.

Lemma SysInfoReply_round_trip_witness :
  SysInfoReply.Encode example_sysinfo_reply buffer BigEndian =
    Returned ({| written := written buffer ++
                            SysInfoReply_bytes BigEndian example_sysinfo_reply;
                 room := None |}, None) /\
  len (SysInfoReply_bytes BigEndian example_sysinfo_reply) =
    SysInfoReply.Size example_sysinfo_reply /\
  (SysInfoMsgHeader.Length (SysInfoReply.Header example_sysinfo_reply) =
     SysInfoReply.Size example_sysinfo_reply ->
   SysInfoReply.Decode unread_reply
     {| unread := SysInfoReply_bytes BigEndian example_sysinfo_reply ++ [9] |} BigEndian =
   Returned (example_sysinfo_reply, {| unread := [9] |}, None)).
Proof.
  apply SysInfoReply_round_trip.
  - unfold SysInfoMsgHeader_in_range, in_int, in_uint. vm_compute. intuition discriminate.
  - unfold in_int. simpl. lia.
  - reflexivity.
Defined.

(** X14. The system-info request tells its reader the byte order of its
    writer: [NewSysInfoRequest()] is written as [Size()] bytes; read in the
    byte order of the writer they give back the request, and read in the
    other byte order they give the same [Special], the eye catcher
    [sysInfoEyeCatcherRevert], and a length that is not the size of a
    request. *)
Theorem SysInfoRequest_reveals_the_byte_order
    (order : ByteOrder) (m0 : SysInfoRequest.t) (w : Writer) (rest : list Z) :
  exists request,
    SysInfoRequest.Encode SysInfoRequest.NewSysInfoRequest w order =
      Returned (Write w request) /\
    len request = SysInfoRequest.Size SysInfoRequest.NewSysInfoRequest /\
    SysInfoRequest.Decode m0 {| unread := request ++ rest |} order =
      Returned (SysInfoRequest.NewSysInfoRequest, {| unread := rest |}, None) /\
    exists m',
      SysInfoRequest.Decode m0 {| unread := request ++ rest |} (opposite order) =
        Returned (m', {| unread := rest |}, None) /\
      SysInfoMsgHeader.Special m' = sysInfoSpecial /\
      SysInfoMsgHeader.EyeCatcher m' = sysInfoEyeCatcherRevert /\
      SysInfoMsgHeader.Length m' <> sysInfoRequestSize.
Proof.
  exists (SysInfoMsgHeader_bytes order SysInfoRequest.NewSysInfoRequest).
  split; [apply SysInfoMsgHeader_Encode_bytes |].
  split; [apply len_SysInfoMsgHeader_bytes |].
  split.
  - apply SysInfoMsgHeader_Decode_bytes.
    unfold SysInfoMsgHeader_in_range, in_int, in_uint. vm_compute. intuition discriminate.
  - unfold SysInfoRequest.Decode, SysInfoMsgHeader.Decode.
    rewrite (ReadFull_app _ _ 12) by apply len_SysInfoMsgHeader_bytes.
    destruct order; (eexists; split; [reflexivity |]);
      (split; [reflexivity |]); (split; [reflexivity |]); vm_compute; discriminate.
Qed.

Lemma ReadFull_short r n :
  len (unread r) < n ->
  ReadFull r n =
  (unread r ++ make (n - len (unread r)), {| unread := [] |},
   Some (if bool_decide (len (unread r) = 0) then EOF else ErrUnexpectedEOF)).
Proof. intros H. unfold ReadFull. by rewrite bool_decide_eq_false_2 by lia. Qed.

(** X15. [Decode] of a header never panics. It succeeds exactly when the
    stream holds [Size()] bytes, and then consumes these and no more; on a
    shorter stream it leaves the header as it was, drains the stream and
    returns [io.EOF] if the stream was empty and [io.ErrUnexpectedEOF]
    otherwise. *)
Theorem header_Decode_never_panics (r : Reader) (order : ByteOrder) :
  (forall m : MsgHeader.t,
     exists m' r' err, MsgHeader.Decode m r order = Returned (m', r', err) /\
       (err = None <-> MsgHeader.Size m <= len (unread r)) /\
       (MsgHeader.Size m <= len (unread r) ->
        unread r' = drop (Z.to_nat (MsgHeader.Size m)) (unread r)) /\
       (len (unread r) < MsgHeader.Size m ->
        m' = m /\ unread r' = [] /\
        err = Some (if bool_decide (len (unread r) = 0) then EOF else ErrUnexpectedEOF))) /\
  (forall m : SysInfoMsgHeader.t,
     exists m' r' err, SysInfoMsgHeader.Decode m r order = Returned (m', r', err) /\
       (err = None <-> SysInfoMsgHeader.Size m <= len (unread r)) /\
       (SysInfoMsgHeader.Size m <= len (unread r) ->
        unread r' = drop (Z.to_nat (SysInfoMsgHeader.Size m)) (unread r)) /\
       (len (unread r) < SysInfoMsgHeader.Size m ->
        m' = m /\ unread r' = [] /\
        err = Some (if bool_decide (len (unread r) = 0) then EOF else ErrUnexpectedEOF))).
Proof.
  split; intros m.
  - unfold MsgHeader.Size, msgHeaderSize, MsgHeader.Decode.
    destruct (decide (28 <= len (unread r))) as [Hlen | Hlen].
    + rewrite ReadFull_enough by (unfold msgHeaderSize; lia).
      assert (Hbuf : len (take (Z.to_nat 28) (unread r)) = 28).
      { unfold len in *. rewrite length_take. lia. }
      unfold Uint32, Uint64, msgHeaderSize.
      rewrite !get_in_range by (rewrite ?Hbuf; simpl; lia).
      cbn [mbind outcome_bind]. do 3 eexists. split; [reflexivity |].
      split; [done |]. split; [done |]. lia.
    + rewrite ReadFull_short by (unfold msgHeaderSize; lia).
      do 3 eexists. split; [reflexivity |].
      split; [split; [discriminate | lia] |]. split; [lia | done].
  - unfold SysInfoMsgHeader.Size, sysInfoMsgHeaderSize, SysInfoMsgHeader.Decode.
    destruct (decide (12 <= len (unread r))) as [Hlen | Hlen].
    + rewrite ReadFull_enough by lia.
      assert (Hbuf : len (take (Z.to_nat 12) (unread r)) = 12).
      { unfold len in *. rewrite length_take. lia. }
      unfold Uint32.
      rewrite !get_in_range by (rewrite ?Hbuf; simpl; lia).
      cbn [mbind outcome_bind]. do 3 eexists. split; [reflexivity |].
      split; [done |]. split; [done |]. lia.
    + rewrite ReadFull_short by lia.
      do 3 eexists. split; [reflexivity |].
      split; [split; [discriminate | lia] |]. split; [lia | done].
Qed.

Lemma header_Decode_never_panics_witness :
  exists m' r' err,
    MsgHeader.Decode (reply_header 0) stray_bytes LittleEndian = Returned (m', r', err) /\
    (err = None <-> MsgHeader.Size (reply_header 0) <= len (unread stray_bytes)) /\
    (MsgHeader.Size (reply_header 0) <= len (unread stray_bytes) ->
     unread r' = drop (Z.to_nat (MsgHeader.Size (reply_header 0))) (unread stray_bytes)) /\
    (len (unread stray_bytes) < MsgHeader.Size (reply_header 0) ->
     m' = reply_header 0 /\ unread r' = [] /\
     err = Some (if bool_decide (len (unread stray_bytes) = 0)
                 then EOF else ErrUnexpectedEOF)).
Proof.
  apply (proj1 (header_Decode_never_panics stray_bytes LittleEndian) (reply_header 0)).
Defined.

(** ** The size of a frame *)

Lemma document_padding_eq l :
  0 <= l -> l + 3 <= MaxInt32 ->
  Z.of_nat (Z.to_nat (to_int32 (alignedSize (to_int32 l) 4 - to_int32 l))) =
  alignedSize l 4 - l.
Proof.
  intros H0 Hmax.
  rewrite (to_int32_fits l) by (unfold fits_int32, MinInt32, MaxInt32 in *; lia).
  destruct (alignedSize_4 l) as [Hb Hm]; [lia | lia |].
  rewrite to_int32_fits by (unfold fits_int32, MinInt32, MaxInt32 in *; lia).
  lia.
Qed.

Lemma write_all_length docs : forall w w',
  write_all docs w = Returned (w', None) -> Forall well_formed docs ->
  exists raws, Forall2 (fun d r => Raw d = Returned r) docs raws /\
    len (written w') = len (written w) + padded_size raws /\
    padded_size raws mod 4 = 0.
Proof.
  induction docs as [| d docs IH]; intros w w' H Hwf; cbn [write_all] in H.
  - injection H as <-. exists []. split; [constructor |]. cbn [padded_size foldr].
    split; [lia | reflexivity].
  - apply and_then_nil_error in H as (w1 & Hd & H).
    apply Forall_cons in Hwf as [(r & Hr & Hl & Hmax) Hwf].
    apply writeBson_written in Hd as (r' & l & Hr' & Hl' & Hw).
    rewrite Hr in Hr'. injection Hr' as <-. rewrite Hl in Hl'. injection Hl' as <-.
    destruct (IH w1 w' H Hwf) as (raws & Hraws & Hlen & Hmod).
    exists (r :: raws). split; [by constructor |].
    cbn [padded_size foldr]. fold (padded_size raws).
    pose proof (document_padding_eq (len r) (len_nonneg r) Hmax) as Hp.
    destruct (alignedSize_4 (len r) (len_nonneg r) Hmax) as [_ Hm].
    split; [| by apply mod4_add].
    rewrite Hlen, Hw, !len_app. unfold len at 3. rewrite length_replicate, Hp. lia.
Qed.

Lemma frame_size (w w1 w' : Writer) hbuf buf name nameLength docs fixed_size :
  written w1 = written w ++ hbuf ++ buf ++ name ++
    replicate (name_padding_of nameLength) 0 ->
  write_all docs w1 = Returned (w', None) ->
  len hbuf + len buf = fixed_size -> fixed_size mod 4 = 0 ->
  nameLength = len name -> nameLength + 4 <= MaxInt32 ->
  Forall well_formed docs ->
  exists raws, Forall2 (fun d r => Raw d = Returned r) docs raws /\
    len (written w') =
      len (written w) + fixed_size + alignedSize (nameLength + 1) 4 + padded_size raws /\
    (len (written w') - len (written w)) mod 4 = 0.
Proof.
  intros Hw1 Hall Hfixed Hmod Hname Hmax Hwf.
  destruct (write_all_length docs w1 w' Hall Hwf) as (raws & Hraws & Hlen & Hpm).
  exists raws. split; [exact Hraws |].
  destruct (name_padding nameLength) as (Hp & Hp1 & Hpmod);
    [subst; apply len_nonneg | done |].
  destruct (alignedSize_4 (nameLength + 1)) as [_ Ham];
    [subst; pose proof (len_nonneg name); lia | lia |].
  assert (Hpad : Z.of_nat (name_padding_of nameLength) =
                 alignedSize (nameLength + 1) 4 - nameLength).
  { rewrite <- name_padding_of_unfold. rewrite Z2Nat.id by lia. exact Hp. }
  assert (Htotal : len (written w') =
            len (written w) + fixed_size + alignedSize (nameLength + 1) 4 + padded_size raws).
  { rewrite Hlen, Hw1, !len_app. unfold len at 5. rewrite length_replicate, Hpad. lia. }
  split; [exact Htotal |].
  rewrite Htotal.
  replace (len (written w) + fixed_size + alignedSize (nameLength + 1) 4 + padded_size raws -
           len (written w))
    with (fixed_size + (alignedSize (nameLength + 1) 4 + padded_size raws)) by lia.
  apply mod4_add; [exact Hmod |]. by apply mod4_add.
Qed.

(** X16. Into a stream that takes every write, each of the four frames
    whose documents are well formed and whose [NameLength] is the length of
    [Name] is written without error, and the number of bytes written is
    [FixedSize()], plus the name and its NUL rounded up to a multiple of 4,
    plus each document rounded up to a multiple of 4: a multiple of 4. *)
Theorem frames_have_aligned_sizes (w : Writer) (order : ByteOrder) :
  room w = None ->
  (forall m : QueryMsg.t,
     QueryMsg.NameLength m = len (QueryMsg.Name m) ->
     QueryMsg.NameLength m + 4 <= MaxInt32 ->
     let docs := present [QueryMsg.Where m; QueryMsg.Select m;
                          QueryMsg.OrderBy m; QueryMsg.Hint m] in
     Forall well_formed docs ->
     exists w' raws, QueryMsg.Encode m w order = Returned (w', None) /\
       Forall2 (fun d r => Raw d = Returned r) docs raws /\
       len (written w') = len (written w) + QueryMsg.FixedSize m +
         alignedSize (QueryMsg.NameLength m + 1) 4 + padded_size raws /\
       (len (written w') - len (written w)) mod 4 = 0) /\
  (forall m : InsertMsg.t,
     InsertMsg.NameLength m = len (InsertMsg.Name m) ->
     InsertMsg.NameLength m + 4 <= MaxInt32 ->
     let docs := present [InsertMsg.Doc m] in
     Forall well_formed docs ->
     exists w' raws, InsertMsg.Encode m w order = Returned (w', None) /\
       Forall2 (fun d r => Raw d = Returned r) docs raws /\
       len (written w') = len (written w) + InsertMsg.FixedSize m +
         alignedSize (InsertMsg.NameLength m + 1) 4 + padded_size raws /\
       (len (written w') - len (written w)) mod 4 = 0) /\
  (forall m : DeleteMsg.t,
     DeleteMsg.NameLength m = len (DeleteMsg.Name m) ->
     DeleteMsg.NameLength m + 4 <= MaxInt32 ->
     let docs := [or_empty (DeleteMsg.Condition m); or_empty (DeleteMsg.Hint m)] in
     Forall well_formed docs ->
     exists w' raws, DeleteMsg.Encode m w order = Returned (w', None) /\
       Forall2 (fun d r => Raw d = Returned r) docs raws /\
       len (written w') = len (written w) + DeleteMsg.FixedSize m +
         alignedSize (DeleteMsg.NameLength m + 1) 4 + padded_size raws /\
       (len (written w') - len (written w)) mod 4 = 0) /\
  (forall m : UpdateMsg.t,
     UpdateMsg.NameLength m = len (UpdateMsg.Name m) ->
     UpdateMsg.NameLength m + 4 <= MaxInt32 ->
     let docs := [or_empty (UpdateMsg.Condition m); or_empty (UpdateMsg.Rule m);
                  or_empty (UpdateMsg.Hint m)] in
     Forall well_formed docs ->
     exists w' raws, UpdateMsg.Encode m w order = Returned (w', None) /\
       Forall2 (fun d r => Raw d = Returned r) docs raws /\
       len (written w') = len (written w) + UpdateMsg.FixedSize m +
         alignedSize (UpdateMsg.NameLength m + 1) 4 + padded_size raws /\
       (len (written w') - len (written w)) mod 4 = 0).
Proof.
  intros Hroom.
  destruct (Encode_returns w order Hroom) as (HQ & HI & HD & HU).
  repeat split; intros m Hname Hmax docs Hwf.
  - destruct (HQ m Hwf) as [w' H]. exists w'.
    pose proof H as H'.
    apply QueryMsg_Encode_written in H' as (hbuf & buf & w1 & Hlen & Hw1 & Hall).
    destruct (frame_size w w1 w' hbuf buf (QueryMsg.Name m) (QueryMsg.NameLength m) docs 60)
      as (raws & Hraws & Hsize & Hmod); try done.
    by exists raws.
  - destruct (HI m Hwf) as [w' H]. exists w'.
    pose proof H as H'.
    apply InsertMsg_Encode_written in H' as (hbuf & buf & w1 & Hlen & Hw1 & Hall).
    destruct (frame_size w w1 w' hbuf buf (InsertMsg.Name m) (InsertMsg.NameLength m) docs 44)
      as (raws & Hraws & Hsize & Hmod); try done.
    by exists raws.
  - destruct (HD m Hwf) as [w' H]. exists w'.
    pose proof H as H'.
    apply DeleteMsg_Encode_written in H' as (hbuf & buf & w1 & Hlen & Hw1 & Hall).
    destruct (frame_size w w1 w' hbuf buf (DeleteMsg.Name m) (DeleteMsg.NameLength m) docs 44)
      as (raws & Hraws & Hsize & Hmod); try done.
    by exists raws.
  - destruct (HU m Hwf) as [w' H]. exists w'.
    pose proof H as H'.
    apply UpdateMsg_Encode_written in H' as (hbuf & buf & w1 & Hlen & Hw1 & Hall).
    destruct (frame_size w w1 w' hbuf buf (UpdateMsg.Name m) (UpdateMsg.NameLength m) docs 44)
      as (raws & Hraws & Hsize & Hmod); try done.
    by exists raws.
Qed.

Lemma frames_have_aligned_sizes_witness :
  exists w' raws, QueryMsg.Encode example_query buffer BigEndian = Returned (w', None) /\
    Forall2 (fun d r => Raw d = Returned r) [hello_world_document] raws /\
    len (written w') = len (written buffer) + QueryMsg.FixedSize example_query +
      alignedSize (QueryMsg.NameLength example_query + 1) 4 + padded_size raws /\
    (len (written w') - len (written buffer)) mod 4 = 0.
Proof.
  apply (proj1 (frames_have_aligned_sizes buffer BigEndian eq_refl) example_query).
  - reflexivity.
  - vm_compute. discriminate.
  - repeat constructor. apply well_formed_hello_world.
Defined.

(** ** Frames that embed an unfinished document *)

Lemma frame_rest_unbounded w buf name p (tail : Writer -> writing) :
  room w = None ->
  and_then (Returned (Write w buf)) (fun w =>
    and_then (Returned (Write w name)) (fun w =>
      and_then (if bool_decide (p > 0) then Returned (Write w (make p)) else nil_error w)
               tail)) =
  tail {| written := written w ++ buf ++ name ++ replicate (Z.to_nat p) 0; room := None |}.
Proof.
  intros Hroom.
  rewrite Write_unbounded by done. unfold and_then at 1. cbn [mbind outcome_bind].
  rewrite Write_unbounded by done. unfold and_then at 1. cbn [mbind outcome_bind].
  case_bool_decide.
  - rewrite Write_unbounded by done. unfold and_then. cbn [mbind outcome_bind written].
    unfold make. by rewrite <- !app_assoc.
  - unfold and_then, nil_error. cbn [mbind outcome_bind written].
    replace (Z.to_nat p) with 0%nat by lia. cbn [replicate].
    by rewrite <- !app_assoc, app_nil_r.
Qed.

Lemma writeBson_unfinished w b :
  room w = None -> reserved b -> finished b = false ->
  writeBson w b = Panicked "the bson is unfinished".
Proof.
  intros Hroom [H0 H4] Hf. unfold writeBson, Raw.
  rewrite slice_from_in_range by lia. cbn [mbind outcome_bind].
  rewrite Write_unbounded by done. unfold and_then at 1. cbn [mbind outcome_bind].
  unfold bson.Length. by rewrite Hf.
Qed.

(** X17. A frame does not take a document that has not been finished:
    when the first document of a frame is a builder on which [Finish] has
    not been called, [Encode] panics with "the bson is unfinished" instead
    of returning an error. *)
Theorem Encode_of_an_unfinished_document_panics
    (w : Writer) (order : ByteOrder) (b : Bson) :
  room w = None -> built b -> finished b = false ->
  (forall m : QueryMsg.t, QueryMsg.Where m = Some b ->
     QueryMsg.Encode m w order = Panicked "the bson is unfinished") /\
  (forall m : InsertMsg.t, InsertMsg.Doc m = Some b ->
     InsertMsg.Encode m w order = Panicked "the bson is unfinished") /\
  (forall m : DeleteMsg.t, DeleteMsg.Condition m = Some b ->
     DeleteMsg.Encode m w order = Panicked "the bson is unfinished") /\
  (forall m : UpdateMsg.t, UpdateMsg.Condition m = Some b ->
     UpdateMsg.Encode m w order = Panicked "the bson is unfinished").
Proof.
  intros Hroom Hb Hf. apply built_reserved in Hb.
  repeat split; intros m Hdoc.
  - unfold QueryMsg.Encode, PutUint16, PutUint32, PutUint64.
    header_step (QueryMsg.Header m) w order Hroom.
    do 7 put_step. rewrite frame_rest_unbounded by done.
    rewrite Hdoc. cbn [writeBson_if_present]. by rewrite writeBson_unfinished.
  - unfold InsertMsg.Encode, PutUint16, PutUint32.
    header_step (InsertMsg.Header m) w order Hroom.
    do 5 put_step. rewrite frame_rest_unbounded by done.
    rewrite Hdoc. cbn [writeBson_if_present]. by rewrite writeBson_unfinished.
  - unfold DeleteMsg.Encode, PutUint16, PutUint32.
    header_step (DeleteMsg.Header m) w order Hroom.
    do 5 put_step. rewrite frame_rest_unbounded by done.
    rewrite Hdoc. cbn [or_empty]. by rewrite writeBson_unfinished.
  - unfold UpdateMsg.Encode, PutUint16, PutUint32.
    header_step (UpdateMsg.Header m) w order Hroom.
    do 5 put_step. rewrite frame_rest_unbounded by done.
    rewrite Hdoc. cbn [or_empty]. by rewrite writeBson_unfinished.
Qed.

Lemma Encode_of_an_unfinished_document_panics_witness :
  InsertMsg.Encode unfinished_insert buffer LittleEndian = Panicked "the bson is unfinished".
Proof.
  apply (proj1 (proj2 (Encode_of_an_unfinished_document_panics buffer LittleEndian NewBson
                         eq_refl built_NewBson eq_refl)) unfinished_insert).
  reflexivity.
Defined.

(** ** A reply that ends too early *)

Lemma MsgHeader_Decode_short m r order :
  len (unread r) < 28 ->
  MsgHeader.Decode m r order = Returned (m, {| unread := [] |}, Some (short_read (unread r))).
Proof.
  intros H. unfold MsgHeader.Decode.
  by rewrite ReadFull_short by (unfold msgHeaderSize; lia).
Qed.

(** X19. [ReplyMsg.Decode] on a stream that ends too early returns the
    error of [io.ReadFull] ([io.EOF] if nothing was left to read,
    [io.ErrUnexpectedEOF] otherwise) and drains the stream: with the reply
    untouched if the header is incomplete; with only the header replaced if
    the 20 bytes behind it are incomplete; and with the header and the four
    fields replaced, but [Error] as it was and the document never rendered,
    if the flags are set and the error document is incomplete. *)
Theorem ReplyMsg_Decode_on_a_short_stream
    (Bson_String : Bson -> outcome string) (m : ReplyMsg.t) (r : Reader) (order : ByteOrder) :
  (len (unread r) < 28 ->
   ReplyMsg.Decode Bson_String m r order =
   Returned (m, {| unread := [] |}, Some (short_read (unread r)))) /\
  (forall h r1,
     MsgHeader.Decode (ReplyMsg.Header m) r order = Returned (h, r1, None) ->
     48 <= MsgHeader.Length h ->
     (len (unread r1) < 20 ->
      ReplyMsg.Decode Bson_String m r order =
      Returned (ReplyMsg.with_Header h m, {| unread := [] |},
                Some (short_read (unread r1)))) /\
     (20 <= len (unread r1) ->
      let m1 := reply_of_body order m h (take 20 (unread r1)) in
      let rest := drop 20 (unread r1) in
      ReplyMsg.Flags m1 <> 0 -> len rest < MsgHeader.Length h - 48 ->
      ReplyMsg.Decode Bson_String m r order =
      Returned (m1, {| unread := [] |}, Some (short_read rest)))).
Proof.
  split.
  - intros H. unfold ReplyMsg.Decode.
    rewrite MsgHeader_Decode_short by done. cbn [mbind outcome_bind].
    by destruct m.
  - intros h r1 Hh Hlen. split.
    + intros Hshort. unfold ReplyMsg.Decode. rewrite Hh. cbn [mbind outcome_bind].
      rewrite ReplyMsg_Size. cbn [ReplyMsg.Header ReplyMsg.with_Header].
      rewrite bool_decide_eq_false_2 by lia.
      by rewrite ReadFull_short by lia.
    + intros Hbody m1 rest Hflags Htail.
      rewrite (ReplyMsg_Decode_body Bson_String m r r1 order h Hh Hlen Hbody).
      cbv zeta. fold m1. fold rest.
      rewrite bool_decide_eq_false_2 by exact Hflags.
      by rewrite ReadFull_short by (cbn [unread]; lia).
Qed.

Lemma ReplyMsg_Decode_on_a_short_stream_witness :
  ReplyMsg.Decode (fun _ => Returned "{}") empty_reply truncated_reply LittleEndian =
  Returned (ReplyMsg.with_Header (reply_header 48) empty_reply, {| unread := [] |},
            Some (short_read (unread stray_bytes))).
Proof.
  apply (proj1 (proj2 (ReplyMsg_Decode_on_a_short_stream (fun _ => Returned "{}")
                         empty_reply truncated_reply LittleEndian)
                 (reply_header 48) stray_bytes eq_refl ltac:(simpl; lia))).
  vm_compute. reflexivity.
Defined.

(** ** The fields of a frame *)

Lemma prelude_put {A} order a b c d e (k : list Z -> outcome A) :
  (buf ← put order 4 (make 16) 0 a;
   buf ← put order 2 buf 4 b;
   buf ← put order 2 buf 6 c;
   buf ← put order 4 buf 8 d;
   buf ← put order 4 buf 12 e;
   k buf) =
  k (encode order 4 a ++ encode order 2 b ++ encode order 2 c ++ encode order 4 d ++
     encode order 4 e).
Proof. destruct order; reflexivity. Qed.

Lemma query_prelude_put {A} order a b c d e f g (k : list Z -> outcome A) :
  (buf ← put order 4 (make 32) 0 a;
   buf ← put order 2 buf 4 b;
   buf ← put order 2 buf 6 c;
   buf ← put order 4 buf 8 d;
   buf ← put order 4 buf 12 e;
   buf ← put order 8 buf 16 f;
   buf ← put order 8 buf 24 g;
   k buf) =
  k (encode order 4 a ++ encode order 2 b ++ encode order 2 c ++ encode order 4 d ++
     encode order 4 e ++ encode order 8 f ++ encode order 8 g).
Proof. destruct order; reflexivity. Qed.

Lemma InsertMsg_Encode_unbounded m w order :
  room w = None ->
  InsertMsg.Encode m w order =
  write_all (present [InsertMsg.Doc m])
    {| written := written w ++ InsertMsg_fixed_bytes order m ++ InsertMsg.Name m ++
                  replicate (name_padding_of (InsertMsg.NameLength m)) 0;
       room := None |}.
Proof.
  intros Hroom. unfold InsertMsg.Encode, PutUint16, PutUint32.
  rewrite MsgHeader_Encode_bytes, Write_unbounded by done.
  unfold and_then at 1. cbn [mbind outcome_bind].
  rewrite prelude_put.
  rewrite frame_rest_unbounded by done. cbn [written].
  rewrite write_present_1, name_padding_of_unfold.
  unfold InsertMsg_fixed_bytes, prelude_bytes. by rewrite <- !app_assoc.
Qed.

Lemma QueryMsg_Encode_unbounded m w order :
  room w = None ->
  QueryMsg.Encode m w order =
  write_all (present [QueryMsg.Where m; QueryMsg.Select m; QueryMsg.OrderBy m;
                      QueryMsg.Hint m])
    {| written := written w ++ QueryMsg_fixed_bytes order m ++ QueryMsg.Name m ++
                  replicate (name_padding_of (QueryMsg.NameLength m)) 0;
       room := None |}.
Proof.
  intros Hroom. unfold QueryMsg.Encode, PutUint16, PutUint32, PutUint64.
  rewrite MsgHeader_Encode_bytes, Write_unbounded by done.
  unfold and_then at 1. cbn [mbind outcome_bind].
  rewrite query_prelude_put.
  rewrite frame_rest_unbounded by done. cbn [written].
  rewrite write_present_4, name_padding_of_unfold.
  unfold QueryMsg_fixed_bytes, prelude_bytes. by rewrite <- !app_assoc.
Qed.

Lemma DeleteMsg_Encode_unbounded m w order :
  room w = None ->
  DeleteMsg.Encode m w order =
  write_all [or_empty (DeleteMsg.Condition m); or_empty (DeleteMsg.Hint m)]
    {| written := written w ++ DeleteMsg_fixed_bytes order m ++ DeleteMsg.Name m ++
                  replicate (name_padding_of (DeleteMsg.NameLength m)) 0;
       room := None |}.
Proof.
  intros Hroom. unfold DeleteMsg.Encode, PutUint16, PutUint32.
  rewrite MsgHeader_Encode_bytes, Write_unbounded by done.
  unfold and_then at 1. cbn [mbind outcome_bind].
  rewrite prelude_put.
  rewrite frame_rest_unbounded by done. cbn [written].
  rewrite name_padding_of_unfold.
  unfold DeleteMsg_fixed_bytes, prelude_bytes. by rewrite <- !app_assoc.
Qed.

Lemma UpdateMsg_Encode_unbounded m w order :
  room w = None ->
  UpdateMsg.Encode m w order =
  write_all [or_empty (UpdateMsg.Condition m); or_empty (UpdateMsg.Rule m);
             or_empty (UpdateMsg.Hint m)]
    {| written := written w ++ UpdateMsg_fixed_bytes order m ++ UpdateMsg.Name m ++
                  replicate (name_padding_of (UpdateMsg.NameLength m)) 0;
       room := None |}.
Proof.
  intros Hroom. unfold UpdateMsg.Encode, PutUint16, PutUint32.
  rewrite MsgHeader_Encode_bytes, Write_unbounded by done.
  unfold and_then at 1. cbn [mbind outcome_bind].
  rewrite prelude_put.
  rewrite frame_rest_unbounded by done. cbn [written].
  rewrite name_padding_of_unfold.
  unfold UpdateMsg_fixed_bytes, prelude_bytes. by rewrite <- !app_assoc.
Qed.

Lemma len_prelude_bytes order a b c d e : len (prelude_bytes order a b c d e) = 16.
Proof. unfold len, prelude_bytes. by rewrite !length_app, !length_encode. Qed.

Lemma writeBson_unbounded w b r :
  room w = None -> Raw b = Returned r -> bson.Length b = Returned (len r) ->
  len r + 3 <= MaxInt32 ->
  writeBson w b =
  Returned ({| written := written w ++ padded [r]; room := None |}, None).
Proof.
  intros Hroom Hr Hl Hmax. unfold writeBson.
  rewrite Hr. cbn [mbind outcome_bind].
  rewrite Write_unbounded by done. unfold and_then at 1. cbn [mbind outcome_bind].
  rewrite Hl. cbn [mbind outcome_bind].
  pose proof (document_padding_eq (len r) (len_nonneg r) Hmax) as Hp.
  set (p := to_int32 (alignedSize (to_int32 (len r)) 4 - to_int32 (len r))) in *.
  unfold padded. cbn [fmap list_fmap concat]. rewrite app_nil_r.
  replace (Z.to_nat (alignedSize (len r) 4 - len r)) with (Z.to_nat p) by lia.
  case_bool_decide.
  - rewrite Write_unbounded by done. unfold and_then, nil_error.
    cbn [mbind outcome_bind written]. unfold make. by rewrite <- !app_assoc.
  - unfold and_then, nil_error. cbn [mbind outcome_bind written].
    replace (Z.to_nat p) with 0%nat by lia. cbn [replicate].
    by rewrite app_nil_r.
Qed.

Lemma padded_cons r raws : padded (r :: raws) = padded [r] ++ padded raws.
Proof. unfold padded. cbn [fmap list_fmap concat]. by rewrite app_nil_r. Qed.

Lemma write_all_unbounded docs : forall w raws,
  room w = None -> Forall well_formed docs ->
  Forall2 (fun d r => Raw d = Returned r) docs raws ->
  write_all docs w =
  Returned ({| written := written w ++ padded raws; room := None |}, None).
Proof.
  induction docs as [| d docs IH]; intros w raws Hroom Hwf Hraws.
  - apply Forall2_nil_inv_l in Hraws as ->. cbn [write_all]. unfold nil_error, padded.
    cbn [fmap list_fmap concat]. rewrite app_nil_r. destruct w as [wr ro].
    cbn in Hroom. by subst ro.
  - apply Forall2_cons_inv_l in Hraws as (r & raws' & Hr & Hraws & ->).
    apply Forall_cons in Hwf as [(r' & Hr' & Hl & Hmax) Hwf].
    rewrite Hr in Hr'. injection Hr' as <-.
    cbn [write_all]. rewrite (writeBson_unbounded w d r) by done.
    unfold and_then. cbn [mbind outcome_bind].
    rewrite (IH _ raws') by done. cbn [written].
    by rewrite (padded_cons r raws'), <- !app_assoc.
Qed.

Lemma documents_of_Raw ps raws :
  Forall2 document_of ps raws ->
  Forall2 (fun d r => Raw d = Returned r) (or_empty <$> ps) raws.
Proof.
  induction 1 as [| p r ps raws Hp _ IH]; cbn [fmap list_fmap]; constructor; [| exact IH].
  destruct p as [b |]; cbn [or_empty document_of] in *; [done |]. by subst r.
Qed.

(** X18. The bytes of a frame are its fields in their order: into a
    stream that takes every write, [Encode] writes the header, then
    [Version], [W], [padding], [Flags] and [NameLength] (and for a query
    [SkipNum] and [ReturnNum]) in the byte order of the connection,
    [FixedSize()] bytes in all, then the name and its zero padding, and
    then the documents, which are well formed, each followed by the zero
    bytes that bring it to a multiple of 4: for a query and an insert the
    documents of the message that are not nil, for a delete the condition
    and the hint and for an update the condition, the rule and the hint,
    with the five bytes of the empty document for one that is nil. *)
Theorem frames_start_with_their_fields (w : Writer) (order : ByteOrder) :
  room w = None ->
  (forall (m : QueryMsg.t) raws,
     let docs := present [QueryMsg.Where m; QueryMsg.Select m; QueryMsg.OrderBy m;
                          QueryMsg.Hint m] in
     Forall well_formed docs ->
     Forall2 (fun d r => Raw d = Returned r) docs raws ->
     len (QueryMsg_fixed_bytes order m) = QueryMsg.FixedSize m /\
     QueryMsg.Encode m w order =
     Returned ({| written := written w ++ QueryMsg_fixed_bytes order m ++ QueryMsg.Name m ++
                    replicate (name_padding_of (QueryMsg.NameLength m)) 0 ++ padded raws;
                  room := None |}, None)) /\
  (forall (m : InsertMsg.t) raws,
     let docs := present [InsertMsg.Doc m] in
     Forall well_formed docs ->
     Forall2 (fun d r => Raw d = Returned r) docs raws ->
     len (InsertMsg_fixed_bytes order m) = InsertMsg.FixedSize m /\
     InsertMsg.Encode m w order =
     Returned ({| written := written w ++ InsertMsg_fixed_bytes order m ++
                    InsertMsg.Name m ++
                    replicate (name_padding_of (InsertMsg.NameLength m)) 0 ++ padded raws;
                  room := None |}, None)) /\
  (forall (m : DeleteMsg.t) cond hint,
     Forall optional_well_formed [DeleteMsg.Condition m; DeleteMsg.Hint m] ->
     document_of (DeleteMsg.Condition m) cond ->
     document_of (DeleteMsg.Hint m) hint ->
     len (DeleteMsg_fixed_bytes order m) = DeleteMsg.FixedSize m /\
     DeleteMsg.Encode m w order =
     Returned ({| written := written w ++ DeleteMsg_fixed_bytes order m ++
                    DeleteMsg.Name m ++
                    replicate (name_padding_of (DeleteMsg.NameLength m)) 0 ++
                    padded [cond; hint];
                  room := None |}, None)) /\
  (forall (m : UpdateMsg.t) cond rule hint,
     Forall optional_well_formed
       [UpdateMsg.Condition m; UpdateMsg.Rule m; UpdateMsg.Hint m] ->
     document_of (UpdateMsg.Condition m) cond ->
     document_of (UpdateMsg.Rule m) rule ->
     document_of (UpdateMsg.Hint m) hint ->
     len (UpdateMsg_fixed_bytes order m) = UpdateMsg.FixedSize m /\
     UpdateMsg.Encode m w order =
     Returned ({| written := written w ++ UpdateMsg_fixed_bytes order m ++
                    UpdateMsg.Name m ++
                    replicate (name_padding_of (UpdateMsg.NameLength m)) 0 ++
                    padded [cond; rule; hint];
                  room := None |}, None)).
Proof.
  intros Hroom. split; [| split; [| split]].
  - intros m raws docs Hwf Hraws. split.
    + unfold QueryMsg_fixed_bytes. rewrite !len_app, len_MsgHeader_bytes, len_prelude_bytes.
      unfold len. by rewrite !length_encode.
    + rewrite QueryMsg_Encode_unbounded by done.
      rewrite (write_all_unbounded docs _ raws) by done. cbn [written].
      by rewrite <- !app_assoc.
  - intros m raws docs Hwf Hraws. split.
    + unfold InsertMsg_fixed_bytes.
      by rewrite !len_app, len_MsgHeader_bytes, len_prelude_bytes.
    + rewrite InsertMsg_Encode_unbounded by done.
      rewrite (write_all_unbounded docs _ raws) by done. cbn [written].
      by rewrite <- !app_assoc.
  - intros m cond hint Hwf Hc Hh. split.
    + unfold DeleteMsg_fixed_bytes.
      by rewrite !len_app, len_MsgHeader_bytes, len_prelude_bytes.
    + rewrite DeleteMsg_Encode_unbounded by done.
      rewrite (write_all_unbounded _ _ [cond; hint]); cbn [written].
      * by rewrite <- !app_assoc.
      * reflexivity.
      * exact (well_formed_or_empty_all _ Hwf).
      * apply (documents_of_Raw [DeleteMsg.Condition m; DeleteMsg.Hint m]).
        repeat constructor; done.
  - intros m cond rule hint Hwf Hc Hr Hh. split.
    + unfold UpdateMsg_fixed_bytes.
      by rewrite !len_app, len_MsgHeader_bytes, len_prelude_bytes.
    + rewrite UpdateMsg_Encode_unbounded by done.
      rewrite (write_all_unbounded _ _ [cond; rule; hint]); cbn [written].
      * by rewrite <- !app_assoc.
      * reflexivity.
      * exact (well_formed_or_empty_all _ Hwf).
      * apply (documents_of_Raw [UpdateMsg.Condition m; UpdateMsg.Rule m; UpdateMsg.Hint m]).
        repeat constructor; done.
Qed.

Lemma frames_start_with_their_fields_witness :
  (len (QueryMsg_fixed_bytes BigEndian example_query) = QueryMsg.FixedSize example_query /\
   QueryMsg.Encode example_query buffer BigEndian =
   Returned ({| written := written buffer ++ QueryMsg_fixed_bytes BigEndian example_query ++
                  QueryMsg.Name example_query ++
                  replicate (name_padding_of (QueryMsg.NameLength example_query)) 0 ++
                  padded [hello_world_encoding];
                room := None |}, None)) /\
  (len (UpdateMsg_fixed_bytes BigEndian example_update) = UpdateMsg.FixedSize example_update /\
   UpdateMsg.Encode example_update buffer BigEndian =
   Returned ({| written := written buffer ++ UpdateMsg_fixed_bytes BigEndian example_update ++
                  UpdateMsg.Name example_update ++
                  replicate (name_padding_of (UpdateMsg.NameLength example_update)) 0 ++
                  padded [empty_document; hello_world_encoding; empty_document];
                room := None |}, None)).
Proof.
  split.
  - apply (proj1 (frames_start_with_their_fields buffer BigEndian eq_refl) example_query).
    + repeat constructor. apply well_formed_hello_world.
    + repeat constructor.
  - apply (proj2 (proj2 (proj2 (frames_start_with_their_fields buffer BigEndian eq_refl)))
             example_update).
    + repeat constructor. apply well_formed_hello_world.
    + reflexivity.
    + reflexivity.
    + reflexivity.
Defined.
